(** * Lost-and-Found game server: session, collision and retirement core

    A shallow embedding of [src/application.cpp] (namespace [app]) and of
    the parts of [application.h] it relies on, with the connection pool of
    [application.h] and the road and loot-type readers of the configuration
    loader (namespace [json_loader]).

    Modelling conventions.
    - C++ [double] values of the simulation (positions, velocities, the
      collision times that events carry) are idealised as real numbers
      ([R]); comparisons become [Rlt_dec] and friends.  Where a property
      is about the arithmetic itself the model is bit-exact on IEEE
      binary64 ([PrimFloat]): [FindCollisionTime] (module [Geometry64]),
      the clock arithmetic of retirement (idle and play seconds, the
      retirement time) and the records sink.
    - [std::sort] is the one of libstdc++ (introsort, then insertion sort),
      modelled step by step on lists.
    - [std::unordered_map] indices are [gmap]s, [std::vector] sequences are
      lists, positions in a vector ([size_t]) are [nat].
    - [std::chrono::steady_clock::now()], the random token and the spawn
      position are inputs of the operations that read them.
    - [static uint32_t] counters wrap modulo 2^32.
    - In the pool and in the loader a call that throws, has to wait or
      fails an assertion returns [None]. *)

From Stdlib Require Import ZArith List String Reals Lra Lia Bool.
From Stdlib Require Import Permutation Sorted.
From Stdlib Require Floats.
From Stdlib Require Ascii.
From stdpp Require Import gmap strings list fin_maps.

Local Open Scope R_scope.

(** ** Geometry ([model::Position], [std::hypot], [FindCollisionTime]) *)

Module Geometry.

Record Position := mkPosition { x : R; y : R }.

Definition hypot (a b : R) : R := sqrt (a * a + b * b).

(** [Application::FindCollisionTime], application.cpp lines 147-198. *)
Definition FindCollisionTime (start_pos end_pos target_pos : Position)
    (collision_distance : R) : option R :=
  let dx := x end_pos - x start_pos in
  let dy := y end_pos - y start_pos in
  let path_length := hypot dx dy in
  if Rlt_dec path_length 1e-9 then
    let current_distance :=
      hypot (x target_pos - x start_pos) (y target_pos - y start_pos) in
    if Rle_dec current_distance collision_distance then Some 0 else None
  else
    let dir_x := dx / path_length in
    let dir_y := dy / path_length in
    let to_target_x := x target_pos - x start_pos in
    let to_target_y := y target_pos - y start_pos in
    let projection := to_target_x * dir_x + to_target_y * dir_y in
    let closest :=
      if Rle_dec projection 0 then (x start_pos, y start_pos)
      else if Rge_dec projection path_length then (x end_pos, y end_pos)
      else (x start_pos + dir_x * projection, y start_pos + dir_y * projection) in
    let distance_to_path :=
      hypot (x target_pos - fst closest) (y target_pos - snd closest) in
    if Rgt_dec distance_to_path collision_distance then None
    else
      let distance_to_collision :=
        projection - sqrt (collision_distance * collision_distance
                           - distance_to_path * distance_to_path) in
      if Rlt_dec distance_to_collision 0 then None
      else if Rgt_dec distance_to_collision path_length then None
      else Some (distance_to_collision / path_length).

Definition distance (a b : Position) : R := hypot (x b - x a) (y b - y a).

End Geometry.

(** ** The world and session data

    [model.h] and [collision_detector.h] are not part of the sources.  The
    records of this module carry the fields that [application.cpp] and the
    loader (namespace [json_loader]) read and write, and the methods they call
    are modelled from the specification (sections 3 and 4), each under a
    comment that says so. *)

Module Model.
Import Geometry.

(** Modelled from the spec: the value types of [model.h] (absent): facing,
    velocity, integer point. *)
Inductive Direction := North | South | West | East.

Record Velocity := mkVelocity { vx : R; vy : R }.

Record Point := mkPoint { pt_x : Z; pt_y : Z }.

Inductive Orientation := HORIZONTAL | VERTICAL.

(** Modelled from the spec: [model::Road] ([model.h] is absent), with the
    three fields the loader passes: orientation, start, end coordinate. *)
Record Road := mkRoad {
  road_orientation : Orientation;
  road_start : Point;
  road_end : Z }.

(** Modelled from the spec: [model::Office] ([model.h] is absent), with the
    fields the loader passes. *)
Record Office := mkOffice {
  office_id : string;
  office_position : Point;
  office_offset : Point }.

(** Modelled from the spec: [model.h] is absent.  A loot item carries a
    numeric id, a type index, a value and a position; the value is taken
    integral, like the score it is added to on an office return. *)
Record LootItem := mkLootItem {
  loot_id : Z;
  loot_type : Z;
  loot_value : Z;
  loot_position : Position }.

Record BagItem := mkBagItem {
  bag_item_id : Z;
  bag_item_type : Z;
  value : Z }.

(** Modelled from the spec: [model::Map], [model::Dog], [model::Player] and
    [model::Game] ([model.h] is absent), with the fields behind the getters
    and setters [application.cpp] calls.  A bag capacity is a number of
    items. *)
Record Map := mkMap {
  map_id : string;
  map_name : string;
  map_roads : list Road;
  map_offices : list Office;
  map_loot_items : list LootItem;
  map_dog_speed : R;
  map_bag_capacity : nat }.

Record Dog := mkDog {
  dog_id : Z;
  dog_name : string;
  dog_map_id : string;
  dog_position : Position;
  dog_velocity : Velocity;
  dog_direction : Direction;
  dog_bag : list BagItem;
  dog_bag_capacity : nat;
  dog_score : Z }.

Record Player := mkPlayer {
  player_id : Z;
  player_name : string;
  player_dog_id : Z;
  player_map_id : string;
  player_token : string }.

Record Game := mkGame {
  maps : list Map;
  dogs : list Dog;
  players : list Player;
  token_to_player_index : gmap string nat;
  player_id_to_index : gmap Z nat;
  dog_id_to_index : gmap Z nat }.

(** Modelled from the spec: [Game::FindMap] ([model.h] is absent) resolves
    a map id to the map of that id; the position in [maps] stands for the
    pointer it returns. *)
Definition FindMap (g : Game) (id : string) : option (nat * Map) :=
  list_find (fun m => map_id m = id) (maps g).

(** Modelled from the spec: [Game::FindPlayer] ([model.h] is absent)
    resolves a player id through the player-id index, as
    [Application::FindDog] does for dogs. *)
Definition FindPlayer (g : Game) (id : Z) : option Player :=
  match player_id_to_index g !! id with
  | None => None
  | Some i => players g !! i
  end.

(** Modelled from the spec: [Map::FindLootItem], [Map::RemoveLootItem] and
    [Map::AddLootItem] ([model.h] is absent): look an item up by id, remove
    the item of that id, append an item. *)
Definition FindLootItem (m : Map) (id : Z) : option LootItem :=
  List.find (fun l => bool_decide (loot_id l = id)) (map_loot_items m).

Definition set_loot (m : Map) (l : list LootItem) : Map :=
  mkMap (map_id m) (map_name m) (map_roads m) (map_offices m) l
        (map_dog_speed m) (map_bag_capacity m).

Definition RemoveLootItem (m : Map) (id : Z) : Map :=
  set_loot m (List.filter (fun l => negb (bool_decide (loot_id l = id)))
                          (map_loot_items m)).

Definition AddLootItem (m : Map) (item : LootItem) : Map :=
  set_loot m (map_loot_items m ++ [item]).

(** Modelled from the spec: the bag operations of [model::Dog] ([model.h]
    is absent).  A bag is full when it holds [bag_capacity] items;
    [AddToBag] appends the item with its id, type and value. *)
Definition IsBagFull (d : Dog) : bool :=
  (dog_bag_capacity d <=? length (dog_bag d))%nat.

Definition set_bag (d : Dog) (b : list BagItem) : Dog :=
  mkDog (dog_id d) (dog_name d) (dog_map_id d) (dog_position d)
        (dog_velocity d) (dog_direction d) b (dog_bag_capacity d) (dog_score d).

Definition AddToBag (d : Dog) (item : LootItem) : Dog :=
  set_bag d (dog_bag d ++ [mkBagItem (loot_id item) (loot_type item) (loot_value item)]).

Definition ClearBag (d : Dog) : Dog := set_bag d [].

Definition AddScore (d : Dog) (v : Z) : Dog :=
  mkDog (dog_id d) (dog_name d) (dog_map_id d) (dog_position d)
        (dog_velocity d) (dog_direction d) (dog_bag d) (dog_bag_capacity d)
        (dog_score d + v)%Z.

(** Modelled from the spec: the setters of [model::Dog] ([model.h] is
    absent) change the one field they name. *)
Definition SetPosition (d : Dog) (p : Position) : Dog :=
  mkDog (dog_id d) (dog_name d) (dog_map_id d) p
        (dog_velocity d) (dog_direction d) (dog_bag d) (dog_bag_capacity d)
        (dog_score d).

Definition SetVelocity (d : Dog) (v : Velocity) : Dog :=
  mkDog (dog_id d) (dog_name d) (dog_map_id d) (dog_position d)
        v (dog_direction d) (dog_bag d) (dog_bag_capacity d) (dog_score d).

Definition SetDirection (d : Dog) (dir : Direction) : Dog :=
  mkDog (dog_id d) (dog_name d) (dog_map_id d) (dog_position d)
        (dog_velocity d) dir (dog_bag d) (dog_bag_capacity d) (dog_score d).

Definition SetBagCapacity (d : Dog) (c : nat) : Dog :=
  mkDog (dog_id d) (dog_name d) (dog_map_id d) (dog_position d)
        (dog_velocity d) (dog_direction d) (dog_bag d) c (dog_score d).

(** Modelled from the spec: the constructor
    [model::Dog{id, name, map_id, position}] ([model.h] is absent) gives a
    dog at rest, with an empty bag and no score. *)
Definition new_dog (id : Z) (name map : string) (p : Position) : Dog :=
  mkDog id name map p (mkVelocity 0 0) North [] 0%nat 0%Z.

(** The test [velocity.vx == 0 && velocity.vy == 0] of [MoveDog],
    [SetPlayerAction] and [CheckPlayerRetirement]. *)
Definition is_zero (v : Velocity) : bool :=
  if Req_dec_T (vx v) 0 then (if Req_dec_T (vy v) 0 then true else false)
  else false.

(** Modelled from the spec: the result of
    [CollisionDetector::CalculateMovement] ([collision_detector.h] is
    absent): the end point and whether the motion was clipped. *)
Record MovementResult := mkMovementResult {
  new_position : Position;
  collision_occurred : bool }.

End Model.

(** ** Durations in seconds ([count() / 1000.0]) *)

Module Chrono.
Import Floats.

(** The conversion of an [int64_t] to [double] (to nearest, ties to
    even); the model covers the values above [-2^63]. *)
Definition double_of_int64 (n : Z) : float :=
  if (n <? 0)%Z then (- of_uint63 (Uint63.of_Z (- n)))%float
  else of_uint63 (Uint63.of_Z n).

Definition thousand : float := 1000%float.

(** [duration.count() / 1000.0] for a duration of [n] milliseconds. *)
Definition seconds_of_count (n : Z) : float := (double_of_int64 n / thousand)%float.

(** [idle_seconds >= dog_retirement_time_seconds_] on [double]s; it is
    false when one of them is not a number. *)
Definition reaches (idle_seconds threshold : float) : bool :=
  (threshold <=? idle_seconds)%float.

(** 60 seconds, the retirement time [LoadDogRetirementTime] returns when
    the configuration gives none, and a tenth of a second. *)
Definition sixty_seconds : float := 60%float.

Definition a_tenth : float := 0x1.999999999999ap-4%float.

End Chrono.

(** ** [FindCollisionTime] on [double]s

    The function of module [Geometry] once more, this time with the
    IEEE binary64 arithmetic of the program. *)

Module Geometry64.
Import Floats.
Local Open Scope float_scope.

Record Position := mkPosition { x : float; y : float }.

(** The C library behind [std::hypot].  The C standard (Annex F) fixes its
    value when an argument is zero, [hypot(x, ±0) = fabs(x)]; what it
    returns for other arguments is the library's. *)
Class LibM := mkLibM { libm_hypot : float -> float -> float }.

Definition hypot {libm : LibM} (a b : float) : float :=
  if b =? 0 then PrimFloat.abs a
  else if a =? 0 then PrimFloat.abs b
  else libm_hypot a b.

(** The literal [1e-9]. *)
Definition epsilon : float := 0x1.12e0be826d695p-30.

(** [Application::FindCollisionTime], application.cpp lines 147-198, every
    operation rounded to binary64 on its own.  A comparison with a value
    that is not a number is false. *)
Definition FindCollisionTime {libm : LibM}
    (start_pos end_pos target_pos : Position) (collision_distance : float)
    : option float :=
  let dx := x end_pos - x start_pos in
  let dy := y end_pos - y start_pos in
  let path_length := hypot dx dy in
  if path_length <? epsilon then
    let current_distance :=
      hypot (x target_pos - x start_pos) (y target_pos - y start_pos) in
    if current_distance <=? collision_distance then Some 0 else None
  else
    let dir_x := dx / path_length in
    let dir_y := dy / path_length in
    let to_target_x := x target_pos - x start_pos in
    let to_target_y := y target_pos - y start_pos in
    let projection := to_target_x * dir_x + to_target_y * dir_y in
    let closest :=
      if projection <=? 0 then (x start_pos, y start_pos)
      else if path_length <=? projection then (x end_pos, y end_pos)
      else (x start_pos + dir_x * projection, y start_pos + dir_y * projection) in
    let distance_to_path :=
      hypot (x target_pos - fst closest) (y target_pos - snd closest) in
    if collision_distance <? distance_to_path then None
    else
      let distance_to_collision :=
        projection - PrimFloat.sqrt (collision_distance * collision_distance
                                     - distance_to_path * distance_to_path) in
      if (distance_to_collision <? 0) || (path_length <? distance_to_collision)
      then None
      else Some (distance_to_collision / path_length).

(** The exact value of a finite [double], in units of [2^-1074]. *)
Definition exact (f : float) : Z :=
  match Prim2SF f with
  | S754_finite s m e => ((if s then -1 else 1) * Z.pos m * 2 ^ (e + 1074))%Z
  | _ => 0%Z
  end.

(** *** The quantities the time of a collision is described with

    All of them are computed on [double]s, in the order given here. *)

(** The length of the motion and the distance from its start to the
    target. *)
Definition path_length {libm : LibM} (s e : Position) : float :=
  hypot (x e - x s) (y e - y s).

Definition start_distance {libm : LibM} (s tg : Position) : float :=
  hypot (x tg - x s) (y tg - y s).

(** The unit direction of the motion, and how far along it the target
    lies. *)
Definition direction {libm : LibM} (s e : Position) : float * float :=
  ((x e - x s) / path_length s e, (y e - y s) / path_length s e).

Definition projection {libm : LibM} (s e tg : Position) : float :=
  (x tg - x s) * fst (direction s e) + (y tg - y s) * snd (direction s e).






End Geometry64.

(** ** [std::sort] *)

(** [std::sort] as libstdc++ implements it (GCC 12, bits/stl_algo.h and
    bits/stl_heap.h).  The vector is a list, an iterator is a position in
    it; reading outside the vector is undefined behaviour and gives
    [None]. *)
Module StdSort.
Local Open Scope nat_scope.

Section StdSort.
Context {A : Type}.
Variable comp : A -> A -> bool.

(** [std::iter_swap]. *)
Definition iter_swap (v : list A) (a b : nat) : option (list A) :=
  x ← v !! a; y ← v !! b; Some (<[b := x]> (<[a := y]> v)).

(** [__move_median_to_first]. *)
Definition move_median_to_first (v : list A) (result a b c : nat)
    : option (list A) :=
  xa ← v !! a; xb ← v !! b; xc ← v !! c;
  if comp xa xb then
    if comp xb xc then iter_swap v result b
    else if comp xa xc then iter_swap v result c
    else iter_swap v result a
  else if comp xa xc then iter_swap v result a
  else if comp xb xc then iter_swap v result c
  else iter_swap v result b.

(** The inner loops of [__unguarded_partition]:
    [while (comp(first, pivot)) ++first], which leaves the vector when
    [fuel] runs out, and [while (comp(pivot, last)) --last]. *)
Fixpoint scan_up (fuel : nat) (v : list A) (first pivot : nat) : option nat :=
  match fuel with
  | O => None
  | S fuel' =>
      x ← v !! first; p ← v !! pivot;
      if comp x p then scan_up fuel' v (S first) pivot else Some first
  end.

Fixpoint scan_down (v : list A) (last pivot : nat) : option nat :=
  x ← v !! last; p ← v !! pivot;
  if comp p x then
    match last with
    | O => None
    | S last' => scan_down v last' pivot
    end
  else Some last.

(** [__unguarded_partition]; every turn of the outer loop moves [last]
    down, so [length v] turns are enough. *)
Fixpoint unguarded_partition (fuel : nat) (v : list A) (first last pivot : nat)
    : option (list A * nat) :=
  match fuel with
  | O => None
  | S fuel' =>
      first1 ← scan_up (length v) v first pivot;
      match last with
      | O => None
      | S last0 =>
          last1 ← scan_down v last0 pivot;
          if decide (first1 < last1) then
            v1 ← iter_swap v first1 last1;
            unguarded_partition fuel' v1 (S first1) last1 pivot
          else Some (v, first1)
      end
  end.

(** [__unguarded_partition_pivot]. *)
Definition unguarded_partition_pivot (v : list A) (first last : nat)
    : option (list A * nat) :=
  let mid := first + (last - first) / 2 in
  v1 ← move_median_to_first v first (first + 1) mid (last - 1);
  unguarded_partition (length v) v1 (first + 1) last first.

(** [__push_heap] on the range that starts at [first]; [holeIndex] goes
    down at every turn. *)
Fixpoint push_heap (fuel : nat) (v : list A) (first holeIndex topIndex : nat)
    (value : A) : option (list A) :=
  match fuel with
  | O => None
  | S fuel' =>
      let parent := (holeIndex - 1) / 2 in
      if decide (topIndex < holeIndex) then
        p ← v !! (first + parent);
        if comp p value then
          push_heap fuel' (<[first + holeIndex := p]> v) first parent topIndex value
        else Some (<[first + holeIndex := value]> v)
      else Some (<[first + holeIndex := value]> v)
  end.

(** The first loop of [__adjust_heap]: the hole goes down to a leaf. *)
Fixpoint adjust_heap_down (fuel : nat) (v : list A) (first holeIndex len : nat)
    (secondChild : nat) : option (list A * nat * nat) :=
  match fuel with
  | O => None
  | S fuel' =>
      if decide (secondChild < (len - 1) / 2) then
        let secondChild1 := 2 * (secondChild + 1) in
        r ← v !! (first + secondChild1);
        l ← v !! (first + (secondChild1 - 1));
        let secondChild2 := if comp r l then secondChild1 - 1 else secondChild1 in
        c ← v !! (first + secondChild2);
        adjust_heap_down fuel' (<[first + holeIndex := c]> v) first secondChild2 len
                         secondChild2
      else Some (v, holeIndex, secondChild)
  end.

(** [__adjust_heap]. *)
Definition adjust_heap (v : list A) (first holeIndex len : nat) (value : A)
    : option (list A) :=
  let topIndex := holeIndex in
  '(v1, holeIndex1, secondChild) ← adjust_heap_down len v first holeIndex len holeIndex;
  '(v2, holeIndex2) ←
    (if decide (len mod 2 = 0 /\ secondChild = (len - 2) / 2) then
       let secondChild1 := 2 * (secondChild + 1) in
       c ← v1 !! (first + (secondChild1 - 1));
       Some (<[first + holeIndex1 := c]> v1, secondChild1 - 1)
     else Some (v1, holeIndex1));
  push_heap (S len) v2 first holeIndex2 topIndex value.

(** [__pop_heap] on the range [first, last) with the result at [result]. *)
Definition pop_heap (v : list A) (first last result : nat) : option (list A) :=
  value ← v !! result;
  top ← v !! first;
  adjust_heap (<[result := top]> v) first 0 (last - first) value.

(** The loop of [__make_heap], from [parent] down to 0. *)
Fixpoint make_heap_loop (v : list A) (first len parent : nat) : option (list A) :=
  value ← v !! (first + parent);
  v1 ← adjust_heap v first parent len value;
  match parent with
  | O => Some v1
  | S parent' => make_heap_loop v1 first len parent'
  end.

(** [__make_heap]. *)
Definition make_heap (v : list A) (first last : nat) : option (list A) :=
  if decide (last - first < 2) then Some v
  else make_heap_loop v first (last - first) ((last - first - 2) / 2).

(** [__sort_heap]: [n] is [last - first]. *)
Fixpoint sort_heap (v : list A) (first n : nat) : option (list A) :=
  match n with
  | O => Some v
  | S n' =>
      if decide (1 < n) then
        v1 ← pop_heap v first (first + n') (first + n');
        sort_heap v1 first n'
      else Some v
  end.

(** [__partial_sort (first, last, last)], as [__introsort_loop] calls it:
    the loop of [__heap_select] runs over the empty range. *)
Definition partial_sort (v : list A) (first last : nat) : option (list A) :=
  v1 ← make_heap v first last;
  sort_heap v1 first (last - first).

(** [__introsort_loop]; the [while] loop goes on as the second call. *)
Fixpoint introsort_loop (depth_limit : nat) (v : list A) (first last : nat)
    : option (list A) :=
  if decide (16 < last - first) then
    match depth_limit with
    | O => partial_sort v first last
    | S depth_limit' =>
        '(v1, cut) ← unguarded_partition_pivot v first last;
        v2 ← introsort_loop depth_limit' v1 cut last;
        introsort_loop depth_limit' v2 first cut
    end
  else Some v.

(** [__unguarded_linear_insert]: the value [val] taken from [last] moves
    down past the elements it is less than; at position 0 the next read is
    before the vector. *)
Fixpoint unguarded_linear_insert_loop (v : list A) (last : nat) (val : A)
    : option (list A) :=
  match last with
  | O => None
  | S next =>
      x ← v !! next;
      if comp val x then unguarded_linear_insert_loop (<[last := x]> v) next val
      else Some (<[last := val]> v)
  end.

Definition unguarded_linear_insert (v : list A) (last : nat) : option (list A) :=
  val ← v !! last; unguarded_linear_insert_loop v last val.

(** [std::move_backward (first, i, i + 1)] followed by [*first = val]. *)
Definition move_backward_put (v : list A) (first i : nat) (val : A) : list A :=
  take first v ++ val :: take (i - first) (drop first v) ++ drop (S i) v.

(** The loop of [__insertion_sort] from [i]; [n] turns are left. *)
Fixpoint insertion_sort_loop (n : nat) (v : list A) (first i : nat)
    : option (list A) :=
  match n with
  | O => Some v
  | S n' =>
      x ← v !! i; f ← v !! first;
      v1 ← (if comp x f then Some (move_backward_put v first i x)
            else unguarded_linear_insert v i);
      insertion_sort_loop n' v1 first (S i)
  end.

(** [__insertion_sort]. *)
Definition insertion_sort (v : list A) (first last : nat) : option (list A) :=
  if decide (first = last) then Some v
  else insertion_sort_loop (last - (first + 1)) v first (first + 1).

(** [__unguarded_insertion_sort]; [n] turns are left. *)
Fixpoint unguarded_insertion_sort (n : nat) (v : list A) (i : nat)
    : option (list A) :=
  match n with
  | O => Some v
  | S n' => v1 ← unguarded_linear_insert v i; unguarded_insertion_sort n' v1 (S i)
  end.

(** [__final_insertion_sort]. *)
Definition final_insertion_sort (v : list A) (first last : nat) : option (list A) :=
  if decide (16 < last - first) then
    v1 ← insertion_sort v first (first + 16);
    unguarded_insertion_sort (last - (first + 16)) v1 (first + 16)
  else insertion_sort v first last.

(** [std::__lg]: the position of the highest bit. *)
Definition lg (n : nat) : nat := Nat.log2 n.

(** [std::sort (v.begin(), v.end(), comp)]. *)
Definition sort (v : list A) : option (list A) :=
  match v with
  | [] => Some v
  | _ :: _ =>
      v1 ← introsort_loop (lg (length v) * 2) v 0 (length v);
      final_insertion_sort v1 0 (length v)
  end.

End StdSort.
End StdSort.


(** ** Notions the properties of [std::sort] are stated with *)

Module SortSpec.
Local Open Scope nat_scope.

Section SortSpec.
Context {A : Type}.
Variable comp : A -> A -> bool.

(** [x] is not after [y]: [comp y x] does not hold. *)
Definition notafter (x y : A) : Prop := comp y x = false.

(** Insertion from the left: [x] goes in front of the first element it is
    before, so behind every element it ties with. *)
Fixpoint ins (x : A) (l : list A) : list A :=
  match l with
  | [] => [x]
  | y :: l' => if comp x y then x :: l else y :: ins x l'
  end.

(** The stable sort: the elements are inserted one by one, in their
    order. *)
Definition stable_sort (l : list A) : list A := fold_left (fun acc x => ins x acc) l [].

(** Every element from position [k] on has an element not after it
    somewhere in front of it. *)
Definition guarded (k : nat) (v : list A) : Prop :=
  forall i x, k <= i -> v !! i = Some x ->
    exists j y, j < i /\ v !! j = Some y /\ notafter y x.

(** The elements at positions [lo], ..., [hi - 1]. *)
Definition sub (lo hi : nat) (v : list A) : list A := take (hi - lo) (drop lo v).

Definition agree_outside (lo hi : nat) (v v' : list A) : Prop :=
  forall i, i < lo \/ hi <= i -> v' !! i = v !! i.

(** [v'] is [v] with the elements at [lo], ..., [hi - 1] put in another
    order. *)
Definition rearranges (lo hi : nat) (v v' : list A) : Prop :=
  v ≡ₚ v' /\ agree_outside lo hi v v'.

(** The heap of [len] elements that starts at [first]: from the node [p]
    on, no node is before one of its children. *)
Definition hp (first len p : nat) (v : list A) : Prop :=
  forall i x y, 1 <= i -> i < len -> p <= (i - 1) / 2 ->
    v !! (first + i) = Some x -> v !! (first + (i - 1) / 2) = Some y -> notafter x y.

(** [h] is [p] or lies below [p] in the heap. *)
Inductive desc (p : nat) : nat -> Prop :=
  | desc_top : desc p p
  | desc_child h : 1 <= h -> desc p ((h - 1) / 2) -> desc p h.

(** From the seventeenth position of the range on, every element has an
    element not after it in front of it, within the range. *)
Definition block_guarded (first last : nat) (v : list A) : Prop :=
  forall i x, first + 16 <= i -> i < last -> v !! i = Some x ->
    exists j y, first <= j < i /\ v !! j = Some y /\ notafter y x.

(** Two runs have the same outcome, and a result satisfies [P]. *)
Definition same_run {B : Type} (P : B -> Prop) (m m' : option B) : Prop :=
  m = m' /\ forall r, m = Some r -> P r.

End SortSpec.

End SortSpec.

(** ** The application façade ([application.h], [application.cpp]) *)

Module App.
Import Geometry Model.

Inductive Type_ := ITEM_PICKUP | OFFICE_RETURN | ITEM_SKIP.

Record CollisionEvent := mkCollisionEvent {
  type : Type_;
  timestamp : R;
  event_dog_id : Z;
  item_id : option Z;
  item_type : option Z }.

(** Time points of [std::chrono::steady_clock] are counted in nanoseconds. *)
Record PlayerMetadata := mkPlayerMetadata {
  join_time : Z;
  idle_start_time : option Z;
  is_retired : bool }.

(** What [retirement_callback_] receives. *)
Record RetiredPlayer := mkRetiredPlayer {
  name : string;
  score : Z;
  play_time_seconds : PrimFloat.float }.

(** The members of [Application], the function-local [static] counters of
    [GenerateLootItems] and [JoinGame], and whether a retirement callback
    is installed. *)
Record Application := mkApplication {
  game_ : Game;
  randomize_spawn_points_ : bool;
  dog_retirement_time_seconds_ : PrimFloat.float;
  player_metadata_ : gmap Z PlayerMetadata;
  retirement_callback_ : bool;
  next_loot_id : Z;
  next_dog_id : Z;
  next_player_id : Z }.

(** Code the façade calls and that is not part of the sources:
    [CollisionDetector::CalculateMovement] of the detector registered under
    a map id ([collision_detector.h]) and [Map::GetDefaultDogPosition]
    ([model.h]). *)
Class Externals := mkExternals {
  CalculateMovement : string -> Position -> Velocity -> R -> MovementResult;
  GetDefaultDogPosition : Map -> Position }.

(** The comparator of the [std::sort] call of [ProcessDogCollisions]:
    [a.timestamp < b.timestamp]. *)
Definition by_timestamp (a b : CollisionEvent) : bool :=
  if Rlt_dec (timestamp a) (timestamp b) then true else false.

(** [std::sort (events.begin(), events.end(), by_timestamp)].  [None]
    stands for undefined behaviour inside the sort; the sort never runs
    into it (lemma [std_sort_returns]). *)
Definition std_sort (events : list CollisionEvent) : list CollisionEvent :=
  match StdSort.sort by_timestamp events with
  | Some sorted => sorted
  | None => events
  end.

(** No event is followed by one of smaller timestamp. *)
Definition ascending (l : list CollisionEvent) : Prop :=
  StronglySorted (fun a b => timestamp a <= timestamp b) l.

Definition set_maps (g : Game) (ms : list Map) : Game :=
  mkGame ms (dogs g) (players g) (token_to_player_index g)
         (player_id_to_index g) (dog_id_to_index g).

Definition set_dogs (g : Game) (ds : list Dog) : Game :=
  mkGame (maps g) ds (players g) (token_to_player_index g)
         (player_id_to_index g) (dog_id_to_index g).

Definition set_game (a : Application) (g : Game) : Application :=
  mkApplication g (randomize_spawn_points_ a) (dog_retirement_time_seconds_ a)
    (player_metadata_ a) (retirement_callback_ a)
    (next_loot_id a) (next_dog_id a) (next_player_id a).

Definition set_player_metadata (a : Application) (md : gmap Z PlayerMetadata)
    : Application :=
  mkApplication (game_ a) (randomize_spawn_points_ a)
    (dog_retirement_time_seconds_ a) md (retirement_callback_ a)
    (next_loot_id a) (next_dog_id a) (next_player_id a).

Definition set_idle_start_time (m : PlayerMetadata) (t : option Z)
    : PlayerMetadata :=
  mkPlayerMetadata (join_time m) t (is_retired m).

(** [Application::FindDog]: the position in [dogs] stands for the pointer. *)
Definition FindDog (g : Game) (id : Z) : option (nat * Dog) :=
  match dog_id_to_index g !! id with
  | None => None
  | Some i =>
      match dogs g !! i with
      | None => None
      | Some d => Some (i, d)
      end
  end.

(** [Application::FindPlayerByToken]. *)
Definition FindPlayerByToken (a : Application) (auth_token : string)
    : option Player :=
  match token_to_player_index (game_ a) !! auth_token with
  | None => None
  | Some i => players (game_ a) !! i
  end.

(** [Application::GetDogSpeedForMap]. *)
Definition GetDogSpeedForMap (g : Game) (id : string) : R :=
  match FindMap g id with
  | None => 1
  | Some (_, m) => map_dog_speed m
  end.

Section Facade.
Context {E : Externals}.

(** [Application::MoveDog]; a detector is registered for every map of the
    game by [InitializeCollisionDetectors]. *)
Definition MoveDog (g : Game) (dog : Dog) (delta_time : R) : Dog :=
  if is_zero (dog_velocity dog) then dog
  else
    match FindMap g (dog_map_id dog) with
    | None => dog
    | Some _ =>
        let movement_result :=
          CalculateMovement (dog_map_id dog) (dog_position dog)
                            (dog_velocity dog) delta_time in
        let dog1 := SetPosition dog (new_position movement_result) in
        if collision_occurred movement_result
        then SetVelocity dog1 (mkVelocity 0 0)
        else dog1
    end.

(** The two loops of [ProcessDogCollisions] that fill [events]. *)
Definition loot_events (m : Map) (dog : Dog) (start_pos end_pos : Position)
    : list CollisionEvent :=
  omap (fun loot =>
          match FindCollisionTime start_pos end_pos (loot_position loot) 0.3 with
          | Some t => Some (mkCollisionEvent ITEM_PICKUP t (dog_id dog)
                              (Some (loot_id loot)) (Some (loot_type loot)))
          | None => None
          end) (map_loot_items m).

Definition office_events (m : Map) (dog : Dog) (start_pos end_pos : Position)
    : list CollisionEvent :=
  omap (fun office =>
          let office_pos :=
            mkPosition (IZR (pt_x (office_position office)))
                       (IZR (pt_y (office_position office))) in
          match FindCollisionTime start_pos end_pos office_pos 0.55 with
          | Some t => Some (mkCollisionEvent OFFICE_RETURN t (dog_id dog)
                              None None)
          | None => None
          end) (map_offices m).

Definition gather_events (m : Map) (dog : Dog) (start_pos end_pos : Position)
    : list CollisionEvent :=
  loot_events m dog start_pos end_pos ++ office_events m dog start_pos end_pos.

(** One turn of the loop over the sorted events. *)
Definition apply_event (st : Map * Dog) (event : CollisionEvent) : Map * Dog :=
  let '(m, dog) := st in
  match type event with
  | ITEM_PICKUP =>
      if IsBagFull dog then st
      else
        match item_id event with
        | None => st
        | Some id =>
            match FindLootItem m id with
            | Some item => (RemoveLootItem m (loot_id item), AddToBag dog item)
            | None => st
            end
        end
  | OFFICE_RETURN =>
      (m, ClearBag (fold_left (fun d bag_item => AddScore d (value bag_item))
                              (dog_bag dog) dog))
  | ITEM_SKIP => st
  end.

(** The events in the order in which the loop applies them. *)
Definition applied_events (m : Map) (dog : Dog) (start_pos end_pos : Position)
    : list CollisionEvent :=
  std_sort (gather_events m dog start_pos end_pos).

(** [Application::ProcessDogCollisions]; the map is changed in place. *)
Definition ProcessDogCollisions (g : Game) (dog : Dog)
    (start_pos end_pos : Position) : Game * Dog :=
  match FindMap g (dog_map_id dog) with
  | None => (g, dog)
  | Some (i, m) =>
      let '(m', dog') :=
        fold_left apply_event (applied_events m dog start_pos end_pos) (m, dog) in
      (set_maps g (<[i := m']> (maps g)), dog')
  end.

(** The loop of [Application::UpdateGameState] over the dogs. *)
Fixpoint update_dogs (delta_time_seconds : R) (g : Game) (ds : list Dog)
    : Game * list Dog :=
  match ds with
  | [] => (g, [])
  | dog :: rest =>
      let start_pos := dog_position dog in
      let dog1 := MoveDog g dog delta_time_seconds in
      let end_pos := dog_position dog1 in
      let '(g1, dog2) := ProcessDogCollisions g dog1 start_pos end_pos in
      let '(g2, rest') := update_dogs delta_time_seconds g1 rest in
      (g2, dog2 :: rest')
  end.

Definition UpdateGameState (g : Game) (delta_time_seconds : R) : Game :=
  let '(g', ds) := update_dogs delta_time_seconds g (dogs g) in
  set_dogs g' ds.

(** The body of the inner loop of [GenerateLootItems], run for
    [i], [i+1], ... ; [n] turns are left. *)
Fixpoint spawn_loop (n : nat) (i : Z) (st : Map * Z) : Map * Z :=
  match n with
  | O => st
  | S n' =>
      let '(m, next) := st in
      let item := mkLootItem next 1 10 (mkPosition (10 + IZR i * 5) 10) in
      spawn_loop n' (i + 1)%Z (AddLootItem m item, (next + 1)%Z)
  end.

Definition generate_for_map (st : Map * Z) : Map * Z :=
  match map_loot_items (fst st) with
  | [] => spawn_loop 5 0 st
  | _ :: _ => st
  end.

Fixpoint generate_for_maps (ms : list Map) (next : Z) : list Map * Z :=
  match ms with
  | [] => ([], next)
  | m :: rest =>
      let '(m', next1) := generate_for_map (m, next) in
      let '(rest', next2) := generate_for_maps rest next1 in
      (m' :: rest', next2)
  end.

(** [Application::GenerateLootItems].  The counter is a [static int]; the
    model covers the runs in which it stays below [INT_MAX]. *)
Definition GenerateLootItems (a : Application) : Application :=
  let '(ms, next) := generate_for_maps (maps (game_ a)) (next_loot_id a) in
  mkApplication (set_maps (game_ a) ms) (randomize_spawn_points_ a)
    (dog_retirement_time_seconds_ a) (player_metadata_ a)
    (retirement_callback_ a) next (next_dog_id a) (next_player_id a).

(** [x++] on a [uint32_t]. *)
Definition uint32_succ (n : Z) : Z := ((n + 1) mod 2 ^ 32)%Z.

(** [Application::JoinGame].  [token] is what [GenerateToken] returned,
    [random_position] what [Map::GetRandomDogPosition] returned, [now] the
    reading of the clock. *)
Definition JoinGame (user_name map_id_ : string) (token : string)
    (random_position : Position) (now : Z) (a : Application)
    : Application * option (string * Z) :=
  let g := game_ a in
  match FindMap g map_id_ with
  | None => (a, None)
  | Some (_, m) =>
      if bool_decide (user_name = EmptyString) then (a, None)
      else
        let dog_id_ := next_dog_id a in
        let spawn_position :=
          if randomize_spawn_points_ a then random_position
          else GetDefaultDogPosition m in
        let dog :=
          SetBagCapacity (new_dog dog_id_ user_name map_id_ spawn_position)
                         (map_bag_capacity m) in
        let dogs' := dogs g ++ [dog] in
        let player_id_ := next_player_id a in
        let player := mkPlayer player_id_ user_name dog_id_ map_id_ token in
        let players' := players g ++ [player] in
        let g' :=
          mkGame (maps g) dogs' players'
            (<[token := (length players' - 1)%nat]> (token_to_player_index g))
            (<[player_id_ := (length players' - 1)%nat]> (player_id_to_index g))
            (<[dog_id_ := (length dogs' - 1)%nat]> (dog_id_to_index g)) in
        let metadata := mkPlayerMetadata now None false in
        (mkApplication g' (randomize_spawn_points_ a)
           (dog_retirement_time_seconds_ a)
           (<[player_id_ := metadata]> (player_metadata_ a))
           (retirement_callback_ a) (next_loot_id a)
           (uint32_succ dog_id_) (uint32_succ player_id_),
         Some (token, player_id_))
  end.

(** [Application::GetPlayers]. *)
Definition GetPlayers (a : Application) (auth_token : string) : list Player :=
  match FindPlayerByToken a auth_token with
  | None => []
  | Some player =>
      List.filter (fun p => bool_decide (player_map_id p = player_map_id player))
                  (players (game_ a))
  end.

(** [Application::GetGameState]. *)
Definition GetGameState (a : Application) (auth_token : string) : list Player :=
  match FindPlayerByToken a auth_token with
  | None => []
  | Some player =>
      List.filter (fun p => bool_decide (player_map_id p = player_map_id player))
                  (players (game_ a))
  end.

(** The chain of string comparisons of [SetPlayerAction]: the new velocity
    and direction, or nothing for an unknown move. *)
Definition decode_move (move : string) (speed : R) (dog : Dog)
    : option (Velocity * Direction) :=
  if bool_decide (move = "L"%string) then Some (mkVelocity (- speed) 0, West)
  else if bool_decide (move = "R"%string) then Some (mkVelocity speed 0, East)
  else if bool_decide (move = "U"%string) then Some (mkVelocity 0 (- speed), North)
  else if bool_decide (move = "D"%string) then Some (mkVelocity 0 speed, South)
  else if bool_decide (move = EmptyString)
       then Some (mkVelocity 0 0, dog_direction dog)
  else None.

(** [Application::SetPlayerAction]; [now] is the reading of the clock. *)
Definition SetPlayerAction (player : Player) (move : string) (now : Z)
    (a : Application) : Application * bool :=
  let g := game_ a in
  match FindDog g (player_dog_id player) with
  | None => (a, false)
  | Some (i, dog) =>
      match FindMap g (player_map_id player) with
      | None => (a, false)
      | Some _ =>
          let speed := GetDogSpeedForMap g (player_map_id player) in
          match decode_move move speed dog with
          | None => (a, false)
          | Some (new_velocity, new_direction) =>
              let dog' := SetDirection (SetVelocity dog new_velocity) new_direction in
              let a1 := set_game a (set_dogs g (<[i := dog']> (dogs g))) in
              let md := player_metadata_ a1 in
              let md' :=
                match md !! player_id player with
                | Some it =>
                    if is_retired it then md
                    else if is_zero new_velocity then
                      match idle_start_time it with
                      | Some _ => md
                      | None =>
                          <[player_id player := set_idle_start_time it (Some now)]> md
                      end
                    else <[player_id player := set_idle_start_time it None]> md
                | None => md
                end in
              (set_player_metadata a1 md', true)
          end
      end
  end.

(** [std::chrono::duration_cast<std::chrono::milliseconds>] of a difference
    of time points: truncation toward zero. *)
Definition duration_cast_milliseconds (d : Z) : Z := (d ÷ 1000000)%Z.

(** [Application::RetirePlayer]; returns the record handed to the
    callback, if one is installed.  [now] is the reading of the clock. *)
Definition RetirePlayer (now : Z) (player_id_ : Z) (a : Application)
    : Application * option RetiredPlayer :=
  let g := game_ a in
  match player_metadata_ a !! player_id_ with
  | None => (a, None)
  | Some it =>
      if is_retired it then (a, None)
      else
        match FindPlayer g player_id_ with
        | None => (a, None)
        | Some player =>
            match FindDog g (player_dog_id player) with
            | None => (a, None)
            | Some (_, dog) =>
                let play_duration :=
                  duration_cast_milliseconds (now - join_time it) in
                let play_time_seconds_ := Chrono.seconds_of_count play_duration in
                let emitted :=
                  if retirement_callback_ a
                  then Some (mkRetiredPlayer (player_name player) (dog_score dog)
                                             play_time_seconds_)
                  else None in
                let md :=
                  <[player_id_ := mkPlayerMetadata (join_time it)
                                    (idle_start_time it) true]>
                    (player_metadata_ a) in
                let g' :=
                  mkGame (maps g)
                    (List.filter (fun d => negb (bool_decide (dog_id d = dog_id dog)))
                                 (dogs g))
                    (List.filter (fun p => negb (bool_decide (player_id p = player_id_)))
                                 (players g))
                    (delete (player_token player) (token_to_player_index g))
                    (delete player_id_ (player_id_to_index g))
                    (delete (dog_id dog) (dog_id_to_index g)) in
                (set_player_metadata (set_game a g') md, emitted)
            end
        end
  end.

(** The body of the first loop of [CheckPlayerRetirement] for one entry of
    [player_metadata_]: the entry as the loop leaves it, and whether the
    player is queued for retirement. *)
Definition check_entry (now : Z) (a : Application) (player_id_ : Z)
    (metadata : PlayerMetadata) : PlayerMetadata * bool :=
  if is_retired metadata then (metadata, false)
  else
    match FindPlayer (game_ a) player_id_ with
    | None => (metadata, false)
    | Some player =>
        match FindDog (game_ a) (player_dog_id player) with
        | None => (metadata, false)
        | Some (_, dog) =>
            if is_zero (dog_velocity dog) then
              match idle_start_time metadata with
              | None => (set_idle_start_time metadata (Some now), false)
              | Some t0 =>
                  let idle_duration := duration_cast_milliseconds (now - t0) in
                  let idle_seconds := Chrono.seconds_of_count idle_duration in
                  if Chrono.reaches idle_seconds (dog_retirement_time_seconds_ a)
                  then (metadata, true)
                  else (metadata, false)
              end
            else (set_idle_start_time metadata None, false)
        end
    end.

(** One turn of the second loop of [CheckPlayerRetirement];
    [retire_clock] gives the reading of the clock inside the call of
    [RetirePlayer] for a player, and the records handed to the callback
    are collected. *)
Definition retire_step (retire_clock : Z -> Z)
    (st : Application * list RetiredPlayer) (id : Z)
    : Application * list RetiredPlayer :=
  let '(a', emitted) := RetirePlayer (retire_clock id) id (fst st) in
  (a', snd st ++ match emitted with Some r => [r] | None => [] end).

Definition retire_all (retire_clock : Z -> Z) (ids : list Z) (a : Application)
    : Application * list RetiredPlayer :=
  fold_left (retire_step retire_clock) ids (a, []).

(** [Application::CheckPlayerRetirement].  The traversal order of a
    [std::unordered_map] is not specified; the entries are visited in the
    order [map_to_list] lists them. *)
Definition CheckPlayerRetirement (now : Z) (retire_clock : Z -> Z)
    (a : Application) : Application * list RetiredPlayer :=
  let entries := map_to_list (player_metadata_ a) in
  let players_to_retire :=
    omap (fun e : Z * PlayerMetadata =>
            if snd (check_entry now a (fst e) (snd e)) then Some (fst e) else None)
         entries in
  let md :=
    map_imap (fun id metadata => Some (fst (check_entry now a id metadata)))
             (player_metadata_ a) in
  retire_all retire_clock players_to_retire (set_player_metadata a md).

(** [Application::Tick]; [delta] in milliseconds. *)
Definition Tick (delta : Z) (now : Z) (retire_clock : Z -> Z) (a : Application)
    : Application * list RetiredPlayer :=
  let delta_seconds := IZR delta / 1000 in
  let a1 := set_game a (UpdateGameState (game_ a) delta_seconds) in
  let a2 := GenerateLootItems a1 in
  CheckPlayerRetirement now retire_clock a2.

End Facade.

(** The application right after its construction over a freshly loaded
    game: no dog, no player, empty indices. *)
Definition initial_game (ms : list Map) : Game := mkGame ms [] [] ∅ ∅ ∅.

Definition initial_application (ms : list Map) (randomize_spawn_points : bool)
    (dog_retirement_time_seconds : PrimFloat.float) (callback : bool) : Application :=
  mkApplication (initial_game ms) randomize_spawn_points
    dog_retirement_time_seconds ∅ callback 0 0 0.

End App.

(** ** The records sink ([app::db::Database]) *)

Module Db.
Import Floats.

(** The IEEE binary64 value [±m·2^e] cut to an integer toward zero. *)
Definition truncate (s : bool) (m : positive) (e : Z) : Z :=
  let a := if (0 <=? e)%Z then Z.shiftl (Z.pos m) e
           else Z.shiftr (Z.pos m) (- e) in
  if s then (- a)%Z else a.

(** [static_cast<int64_t>] of a [double]: the fractional part is
    discarded; the behaviour is undefined ([None]) when the value is not
    finite or the result does not fit. *)
Definition static_cast_int64 (f : float) : option Z :=
  match Prim2SF f with
  | S754_zero _ => Some 0%Z
  | S754_finite s m e =>
      let z := truncate s m e in
      if ((- 2 ^ 63 <=? z) && (z <? 2 ^ 63))%Z then Some z else None
  | S754_infinity _ => None
  | S754_nan => None
  end.

(** A row of [retired_players] without its generated key. *)
Record Row := mkRow {
  row_name : string;
  row_score : Z;
  play_time_ms : Z }.

(** [Database::AddRetiredPlayer]: the row the [INSERT] adds to the table. *)
Definition AddRetiredPlayer (table : list Row) (name : string) (score : Z)
    (play_time_seconds : float) : option (list Row) :=
  match static_cast_int64 (play_time_seconds * 1000)%float with
  | Some ms => Some (table ++ [mkRow name score ms])
  | None => None
  end.

(** The seconds [Application::RetirePlayer] hands to the callback for a
    play duration of [n] milliseconds, [0 <= n < 2^63]:
    [play_duration.count() / 1000.0]. *)
Definition seconds_of_milliseconds (n : Z) : float :=
  (of_uint63 (Uint63.of_Z n) / 1000)%float.

(** The specification's rounding: the integer nearest to [±m·2^e]
    (halves away from zero). *)
Definition round_nearest (s : bool) (m : positive) (e : Z) : Z :=
  let a := if (0 <=? e)%Z then Z.shiftl (Z.pos m) e
           else Z.shiftr (Z.pos m + 2 ^ (- e - 1)) (- e) in
  if s then (- a)%Z else a.

Definition round_double (f : float) : option Z :=
  match Prim2SF f with
  | S754_zero _ => Some 0%Z
  | S754_finite s m e => Some (round_nearest s m e)
  | S754_infinity _ => None
  | S754_nan => None
  end.

(** The specification's [play_time_ms = round(play_time_seconds · 1000)]. *)
Definition rounded_play_time_ms (play_time_seconds : float) : option Z :=
  round_double (play_time_seconds * 1000)%float.

(** 2^-10 seconds, a little under a millisecond. *)
Definition short_play : float := 0x1p-10%float.

End Db.

(** ** Notions the properties are stated with *)

Module Contract.
Import Geometry Model App.

(** Every player sits at the position the token index and the player-id
    index give for it, and every dog at the position the dog-id index
    gives for it. *)
Definition indices_consistent (g : Game) : Prop :=
  (forall i p, players g !! i = Some p ->
     token_to_player_index g !! player_token p = Some i /\
     player_id_to_index g !! player_id p = Some i) /\
  (forall i d, dogs g !! i = Some d -> dog_id_to_index g !! dog_id d = Some i).

(** The move codes [SetPlayerAction] accepts. *)
Definition known_move (move : string) : Prop :=
  move = "L"%string \/ move = "R"%string \/ move = "U"%string \/
  move = "D"%string \/ move = EmptyString.

(** The metadata of a live player after an accepted action: a dog that
    moves has no idle-start time; a dog at rest keeps the idle-start time
    it has, or gets [now]. *)
Definition idle_after (it : PlayerMetadata) (moving : bool) (now : Z)
    : PlayerMetadata :=
  if moving then set_idle_start_time it None
  else match idle_start_time it with
       | Some _ => it
       | None => set_idle_start_time it (Some now)
       end.

(** The five items the loot generator puts on an empty map: ids [c] to
    [c + 4], type 1, value 10, at (10,10), (15,10), ..., (30,10). *)
Definition seed_items (c : Z) : list LootItem :=
  [ mkLootItem c 1 10 (mkPosition 10 10);
    mkLootItem (c + 1) 1 10 (mkPosition 15 10);
    mkLootItem (c + 2) 1 10 (mkPosition 20 10);
    mkLootItem (c + 3) 1 10 (mkPosition 25 10);
    mkLootItem (c + 4) 1 10 (mkPosition 30 10) ].

(** The specification's loot policy over the maps, from the counter [c]:
    every map without loot gets the five seed items. *)
Fixpoint replenish (ms : list Map) (c : Z) : list Map * Z :=
  match ms with
  | [] => ([], c)
  | m :: rest =>
      match map_loot_items m with
      | [] =>
          let '(rest', c') := replenish rest (c + 5) in
          (set_loot m (seed_items c) :: rest', c')
      | _ :: _ =>
          let '(rest', c') := replenish rest c in
          (m :: rest', c')
      end
  end.

(** The ids of the items put on the maps that were empty, in map order. *)
Fixpoint spawned_ids (before after : list Map) : list Z :=
  match before, after with
  | m :: rest, m' :: rest' =>
      match map_loot_items m with
      | [] => map loot_id (map_loot_items m') ++ spawned_ids rest rest'
      | _ :: _ => spawned_ids rest rest'
      end
  | _, _ => []
  end.

(** How one map changes when the generator runs with a counter that goes
    from [c] to [c']. *)
Definition replenished (c c' : Z) (m m' : Map) : Prop :=
  match map_loot_items m with
  | [] => exists k, (c <= k /\ k + 5 <= c')%Z /\ m' = set_loot m (seed_items k)
  | _ :: _ => m' = m
  end.

(** Modelled from the spec: a road strip is the axis segment of the road
    widened by 0.4 on every side ([model.h] is absent; the loader builds a
    road from its orientation, start point and end coordinate). *)
Definition on_road (r : Road) (p : Position) : Prop :=
  let x0 := IZR (pt_x (road_start r)) in
  let y0 := IZR (pt_y (road_start r)) in
  match road_orientation r with
  | HORIZONTAL =>
      Rmin x0 (IZR (road_end r)) - 0.4 <= x p <= Rmax x0 (IZR (road_end r)) + 0.4 /\
      y0 - 0.4 <= y p <= y0 + 0.4
  | VERTICAL =>
      x0 - 0.4 <= x p <= x0 + 0.4 /\
      Rmin y0 (IZR (road_end r)) - 0.4 <= y p <= Rmax y0 (IZR (road_end r)) + 0.4
  end.

(** The states the façade can be driven into from a fresh application
    over the maps [ms]. *)
Inductive reachable {E : Externals} (ms : list Map) : Application -> Prop :=
| reachable_initial randomize retirement callback :
    reachable ms (initial_application ms randomize retirement callback)
| reachable_join a user_name map_id_ token position now :
    reachable ms a ->
    reachable ms (fst (JoinGame user_name map_id_ token position now a))
| reachable_action a player move now :
    reachable ms a ->
    reachable ms (fst (SetPlayerAction player move now a))
| reachable_tick a delta now retire_clock :
    reachable ms a ->
    reachable ms (fst (Tick delta now retire_clock a)).

(** The ids the loot generator has issued along a run of the façade from
    a fresh application over the maps [ms], in the order of issue. *)
Inductive issued {E : Externals} (ms : list Map) : Application -> list Z -> Prop :=
| issued_initial randomize retirement callback :
    issued ms (initial_application ms randomize retirement callback) []
| issued_join a ids user_name map_id_ token position now :
    issued ms a ids ->
    issued ms (fst (JoinGame user_name map_id_ token position now a)) ids
| issued_action a ids player move now :
    issued ms a ids ->
    issued ms (fst (SetPlayerAction player move now a)) ids
| issued_tick a ids delta now retire_clock :
    issued ms a ids ->
    issued ms (fst (Tick delta now retire_clock a))
      (ids ++ spawned_ids (maps (UpdateGameState (game_ a) (IZR delta / 1000)))
                          (maps (game_ (fst (Tick delta now retire_clock a))))).

(** No two loot items of a map share an id. *)
Definition loot_ids_unique (ms : list Map) : Prop :=
  Forall (fun m => NoDup (loot_id <$> map_loot_items m)) ms.

(** Two versions of a map that differ at most in their loot. *)
Definition same_frame (m m' : Map) : Prop :=
  map_id m = map_id m' /\ map_bag_capacity m = map_bag_capacity m'.

(** A dog whose bag respects its capacity, which is that of its map. *)
Definition dog_ok (ms : list Map) (d : Dog) : Prop :=
  (length (dog_bag d) <= dog_bag_capacity d)%nat /\
  exists j m, list_find (fun m => map_id m = dog_map_id d) ms = Some (j, m) /\
              dog_bag_capacity d = map_bag_capacity m.

Definition bags_ok (g : Game) : Prop := Forall (dog_ok (maps g)) (dogs g).

(** The events of timestamp [t]. *)
Definition at_time (t : R) (ev : CollisionEvent) : bool :=
  if Req_dec_T (timestamp ev) t then true else false.

(** The summed values of the items of a bag. *)
Definition bag_value (l : list BagItem) : Z :=
  fold_right (fun b s => (value b + s)%Z) 0%Z l.

(** The books of one dog over a run of events: the items it picked up and
    the items it handed in at offices, each in order. *)
Record Ledger := mkLedger { picked : list BagItem; returned : list BagItem }.

(** What one event adds to the books, given the state it is applied to. *)
Definition record_event (st : Map * Dog) (ev : CollisionEvent) (l : Ledger) : Ledger :=
  match type ev with
  | ITEM_PICKUP =>
      if IsBagFull (snd st) then l
      else
        match item_id ev with
        | None => l
        | Some id =>
            match FindLootItem (fst st) id with
            | Some item =>
                mkLedger (picked l ++ [mkBagItem (loot_id item) (loot_type item)
                                                 (loot_value item)])
                         (returned l)
            | None => l
            end
        end
  | OFFICE_RETURN => mkLedger (picked l) (returned l ++ dog_bag (snd st))
  | ITEM_SKIP => l
  end.

Fixpoint ledger (evs : list CollisionEvent) (st : Map * Dog) (l : Ledger) : Ledger :=
  match evs with
  | [] => l
  | ev :: rest => ledger rest (apply_event st ev) (record_event st ev l)
  end.

(** The specification's [players_on_same_map]: walk the players sequence
    and keep, in order, those on the map of [player]. *)
Fixpoint players_on_same_map (player : Player) (ps : list Player) : list Player :=
  match ps with
  | [] => []
  | p :: rest =>
      if String.eqb (player_map_id p) (player_map_id player)
      then p :: players_on_same_map player rest
      else players_on_same_map player rest
  end.

End Contract.

(** ** A small world for the examples *)

Module Examples.
Import Geometry Model App.

(** Motion that is never clipped, spawn at the origin. *)
Definition free_movement (_ : string) (p : Position) (v : Velocity) (dt : R)
    : MovementResult :=
  mkMovementResult (mkPosition (x p + vx v * dt) (y p + vy v * dt)) false.

Definition free_world : Externals :=
  mkExternals free_movement (fun _ => mkPosition 0 0).

(** One map with a single horizontal road from (0,0) to (10,0), an office
    at (8,0) and no loot. *)
Definition town (speed : R) (capacity : nat) (loot : list LootItem) : Map :=
  mkMap "town" "Town" [mkRoad HORIZONTAL (mkPoint 0 0) 10]
        [mkOffice "o0" (mkPoint 8 0) (mkPoint 0 0)] loot speed capacity.

Definition join (user token : string) (now : Z) (a : Application) : Application :=
  fst (JoinGame (E := free_world) user "town" token (mkPosition 0 0) now a).

(** Three players on the town map: ids 0, 1, 2 at positions 0, 1, 2. *)
Definition three_players : Application :=
  join "Carol" "cccc" 30
    (join "Bob" "bbbb" 20
       (join "Alice" "aaaa" 10
          (initial_application [town 1 3 []] false Chrono.sixty_seconds true))).

(** Alice alone on a town map whose dog speed is [speed]. *)
Definition alice : Player := mkPlayer 0 "Alice" 0 "town" "aaaa".

Definition bob : Player := mkPlayer 1 "Bob" 1 "town" "bbbb".

Definition carol : Player := mkPlayer 2 "Carol" 2 "town" "cccc".

Definition dave : Player := mkPlayer 3 "Dave" 3 "town" "dddd".

Definition alice_alone (speed : R) : Application :=
  join "Alice" "aaaa" 10 (initial_application [town speed 3 []] false Chrono.sixty_seconds true).

(** Four players on the town map, and the state once Alice has been
    retired: players and dogs have moved up, the indices have not. *)
Definition four_players : Application := join "Dave" "dddd" 40 three_players.

Definition alice_gone : Application := fst (RetirePlayer 100 0 four_players).

(** Two loot items on the very spot where a dog rests, bag capacity 1. *)
Definition twin_loot : list LootItem :=
  [mkLootItem 0 1 10 (mkPosition 0 0); mkLootItem 1 2 20 (mkPosition 0 0)].

Definition resting_dog : Dog :=
  SetBagCapacity (new_dog 0 "Alice" "town" (mkPosition 0 0)) 1.

Definition pickup (id ty : Z) : CollisionEvent :=
  mkCollisionEvent ITEM_PICKUP 0 0 (Some id) (Some ty).

(** Seventeen loot items, ids 0 to 16, on the very spot where a dog with
    room for three items rests. *)
Definition loot_heap : list LootItem :=
  map (fun i => mkLootItem (Z.of_nat i) 1 10 (mkPosition 0 0)) (seq 0 17).

Definition greedy_dog : Dog :=
  SetBagCapacity (new_dog 0 "Alice" "town" (mkPosition 0 0)) 3.

End Examples.

(** ** Notions the further properties are stated with *)

Module Invariants.
Import Geometry Model App Contract.

(** The session registry read both ways: every player sits, with its dog,
    where the three indices say, and every index entry points at the
    player or dog it is filed under. *)
Definition registry_ok (g : Game) : Prop :=
  length (dogs g) = length (players g) /\
  (forall i p, players g !! i = Some p ->
     token_to_player_index g !! player_token p = Some i /\
     player_id_to_index g !! player_id p = Some i /\
     exists d, dogs g !! i = Some d /\ dog_id d = player_dog_id p /\
               dog_id_to_index g !! dog_id d = Some i) /\
  (forall t i, token_to_player_index g !! t = Some i ->
     exists p, players g !! i = Some p /\ player_token p = t) /\
  (forall k i, player_id_to_index g !! k = Some i ->
     exists p, players g !! i = Some p /\ player_id p = k) /\
  (forall k i, dog_id_to_index g !! k = Some i ->
     exists d, dogs g !! i = Some d /\ dog_id d = k).

(** The dog and the player that [JoinGame] creates in the state [a]. *)
Definition joined_dog {E : Externals} (a : Application) (user_name map_id_ : string)
    (random_position : Position) (m : Map) : Dog :=
  mkDog (next_dog_id a) user_name map_id_
        (if randomize_spawn_points_ a then random_position else GetDefaultDogPosition m)
        (mkVelocity 0 0) North [] (map_bag_capacity m) 0%Z.

Definition joined_player (a : Application) (user_name map_id_ token : string)
    : Player :=
  mkPlayer (next_player_id a) user_name (next_dog_id a) map_id_ token.

(** What identifies a dog for the session: id, owner name, map, capacity. *)
Definition dog_identity (d : Dog) : Z * string * string * nat :=
  (dog_id d, dog_name d, dog_map_id d, dog_bag_capacity d).

(** What a dog carries: bag and score. *)
Definition dog_holdings (d : Dog) : list BagItem * Z := (dog_bag d, dog_score d).

(** The session part of a game: players and the three indices. *)
Definition session (g : Game) :=
  (players g, token_to_player_index g, player_id_to_index g, dog_id_to_index g).

(** The fixed part of a map: everything but its loot. *)
Definition map_topology (m : Map) :=
  (map_id m, map_name m, map_roads m, map_offices m, map_dog_speed m,
   map_bag_capacity m).

(** From one version of the maps to the next, loot only leaves. *)
Definition loot_only_leaves (ms ms' : list Map) : Prop :=
  Forall2 (fun m m' => map_topology m' = map_topology m /\
                       map_loot_items m' `sublist_of` map_loot_items m) ms ms'.

Definition has_loot (m : Map) : bool :=
  match map_loot_items m with [] => false | _ :: _ => true end.

(** The value lying on a map, the value a dog holds or has cashed in, and
    the value in the game. *)
Definition sum_of {A} (f : A -> Z) (l : list A) : Z :=
  fold_right (fun a s => (f a + s)%Z) 0%Z l.

Definition loot_worth (m : Map) : Z := sum_of loot_value (map_loot_items m).

Definition dog_worth (d : Dog) : Z := (dog_score d + bag_value (dog_bag d))%Z.

Definition game_worth (g : Game) : Z :=
  (sum_of loot_worth (maps g) + sum_of dog_worth (dogs g))%Z.


End Invariants.

(** ** The session token ([GenerateToken], application.cpp lines 13-27) *)

Module Token.
Import Stdlib.Strings.Ascii.
Local Open Scope Z_scope.

(** The digit characters of [std::hex] output (no [std::uppercase]). *)
Definition hex_alphabet : list ascii := list_ascii_of_string "0123456789abcdef".

Definition hex_digit (d : Z) : ascii := nth (Z.to_nat d) hex_alphabet "0"%char.

(** [operator<<] of an unsigned integer under [std::hex]: the digits of
    [n], most significant first, without leading zeros, one digit for 0.
    [fuel] bounds the number of digits. *)
Fixpoint hex_digits (fuel : nat) (n : Z) (acc : list ascii) : list ascii :=
  match fuel with
  | O => acc
  | S fuel' =>
      let acc' := hex_digit (n mod 16) :: acc in
      if n / 16 =? 0 then acc' else hex_digits fuel' (n / 16) acc'
  end.

(** A [uint64_t] has at most 16 hexadecimal digits. *)
Definition to_hex (n : Z) : list ascii := hex_digits 16 n [].

(** [std::setw(w)] with [std::setfill(fill)] and the default right
    adjustment: the field is filled on the left up to the width [w]. *)
Definition setw (w : nat) (fill : ascii) (field : list ascii) : list ascii :=
  replicate (w - length field) fill ++ field.

(** [GenerateToken]; [part1] and [part2] are what the two generators gave. *)
Definition GenerateToken (part1 part2 : Z) : string :=
  string_of_list_ascii
    (setw 16 "0"%char (to_hex part1) ++ setw 16 "0"%char (to_hex part2)).

(** Reading a token back: the value of a digit, of a run of digits, and
    the two halves of a token. *)
Definition digit_value (c : ascii) : option Z :=
  match list_find (fun x => x = c) hex_alphabet with
  | Some (i, _) => Some (Z.of_nat i)
  | None => None
  end.

Definition hex_value (l : list ascii) : Z :=
  fold_left (fun v c => v * 16 + default 0 (digit_value c)) l 0.

Definition parse_token (t : string) : Z * Z :=
  let l := list_ascii_of_string t in (hex_value (take 16 l), hex_value (drop 16 l)).

(** The [fuel] least significant digits of [n], leading zeros included. *)
Fixpoint fixed_digits (fuel : nat) (n : Z) (acc : list ascii) : list ascii :=
  match fuel with
  | O => acc
  | S fuel' => fixed_digits fuel' (n / 16) (hex_digit (n mod 16) :: acc)
  end.

End Token.

(** ** The connection pool ([db::ConnectionPool], application.h lines 97-165) *)

Module Pool.
Section Pool.
Context {Conn : Type}.

(** A slot of [pool_] is a [shared_ptr], empty ([None]) once it has been
    moved from.  Every member function runs under [mutex_], so a call is
    one step. *)
Record ConnectionPool := mkConnectionPool {
  pool_ : list (option Conn);
  used_connections_ : nat }.

(** The constructor; [connections] are the results of the calls of
    [connection_factory]. *)
Definition new_pool (connections : list (option Conn)) : ConnectionPool :=
  mkConnectionPool connections 0.

(** [GetConnection]: [None] while the caller has to wait; otherwise the
    pointer the wrapper takes over, and the pool. *)
Definition GetConnection (p : ConnectionPool)
    : option (option Conn * ConnectionPool) :=
  if decide (used_connections_ p < length (pool_ p))%nat then
    match pool_ p !! used_connections_ p with
    | Some conn =>
        Some (conn, mkConnectionPool (<[used_connections_ p := None]> (pool_ p))
                                     (S (used_connections_ p)))
    | None => None
    end
  else None.

(** [ReturnConnection]: [None] when the assertion fails. *)
Definition ReturnConnection (conn : option Conn) (p : ConnectionPool)
    : option ConnectionPool :=
  match used_connections_ p with
  | O => None
  | S n => Some (mkConnectionPool (<[n := conn]> (pool_ p)) n)
  end.

(** [~ConnectionWrapper]. *)
Definition release (conn_ : option Conn) (p : ConnectionPool)
    : option ConnectionPool :=
  match conn_ with
  | Some c => ReturnConnection (Some c) p
  | None => Some p
  end.

(** What clients do with a pool: ask for a connection, or let go of the
    [k]-th wrapper they hold. *)
Inductive Op := Get | Release (k : nat).

(** The pool and the wrappers alive, newest first. *)
Definition State : Type := ConnectionPool * list (option Conn).

(** One call; a client that has to wait leaves the state as it is, and
    [None] is a failed assertion. *)
Definition step (st : State) (o : Op) : option State :=
  let '(p, held) := st in
  match o with
  | Get =>
      match GetConnection p with
      | Some (conn, p') => Some (p', conn :: held)
      | None => Some st
      end
  | Release k =>
      match held !! k with
      | Some conn =>
          match release conn p with
          | Some p' => Some (p', delete k held)
          | None => None
          end
      | None => Some st
      end
  end.

Fixpoint run (ops : list Op) (st : State) : option State :=
  match ops with
  | [] => Some st
  | o :: rest =>
      match step st o with
      | Some st' => run rest st'
      | None => None
      end
  end.

(** The connections a pool or a list of wrappers holds. *)
Definition live (l : list (option Conn)) : list Conn := omap (fun c => c) l.

(** The slots below [used_connections_] are empty, the others are not;
    every wrapper alive owns a connection. *)
Definition pool_ok (st : State) : Prop :=
  let '(p, held) := st in
  (used_connections_ p <= length (pool_ p))%nat /\
  used_connections_ p = length held /\
  take (used_connections_ p) (pool_ p) = replicate (used_connections_ p) None /\
  Forall is_Some (drop (used_connections_ p) (pool_ p)) /\
  Forall is_Some held.

End Pool.
Arguments ConnectionPool : clear implicits.
Arguments State : clear implicits.
End Pool.

(** ** The configuration loader (namespace [json_loader]) *)

Module JsonLoader.
Import Geometry Model.

(** [boost::json::value].  An object is the list of its members; a key
    occurs once.  A number written as an integer is an [int64] (or a
    [uint64]), any other number a [double]. *)
#[warnings="-register-all"]
Inductive value :=
| null
| boolean (b : bool)
| int64 (i : Z)
| uint64 (u : Z)
| double (d : R)
| string_ (s : string)
| array (a : list value)
| object (o : list (string * value)).

(** The checked accessors: [None] where they throw. *)
Definition as_object (v : value) : option (list (string * value)) :=
  match v with object o => Some o | _ => None end.

Definition as_array (v : value) : option (list value) :=
  match v with array a => Some a | _ => None end.

Definition as_int64 (v : value) : option Z :=
  match v with int64 i => Some i | _ => None end.

Definition as_double (v : value) : option R :=
  match v with double d => Some d | _ => None end.

(** [object::at], [None] where it throws, and [object::contains]. *)
Definition at_ (o : list (string * value)) (key : string) : option value :=
  match List.find (fun kv => bool_decide (fst kv = key)) o with
  | Some kv => Some (snd kv)
  | None => None
  end.

Definition contains (o : list (string * value)) (key : string) : bool :=
  match at_ o key with Some _ => true | None => false end.

(** [ParseRoad]; the coordinates are taken as they are read. *)
Definition ParseRoad (road_obj : list (string * value)) : option Road :=
  if contains road_obj "x0" && contains road_obj "x1" then
    x0 ← at_ road_obj "x0" ≫= as_int64;
    y0 ← at_ road_obj "y0" ≫= as_int64;
    x1 ← at_ road_obj "x1" ≫= as_int64;
    Some (mkRoad HORIZONTAL (mkPoint x0 y0) x1)
  else if contains road_obj "y0" && contains road_obj "y1" then
    x0 ← at_ road_obj "x0" ≫= as_int64;
    y0 ← at_ road_obj "y0" ≫= as_int64;
    y1 ← at_ road_obj "y1" ≫= as_int64;
    Some (mkRoad VERTICAL (mkPoint x0 y0) y1)
  else None.

Section LootTypes.

(** Two things [LoadMapLootTypes] leaves to its surroundings: the order in
    which the arguments [loot_id++] and [loot_id % 5 + 1] of the
    constructor call are evaluated, and the conversion of the [double]
    value to the value a [model::LootItem] holds ([model.h] is absent). *)
Variable type_sees_increment : bool.
Variable value_of_double : R -> Z.

(** The body of the inner loop, run for [i], [i+1], ...; [n] turns are
    left.  [loot_id] is an [int]; the model covers the runs in which it
    stays below [INT_MAX]. *)
Fixpoint add_items (n : nat) (i : Z) (loot_obj : list (string * value))
    (st : Map * Z) : option (Map * Z) :=
  match n with
  | O => Some st
  | S n' =>
      let '(map, loot_id) := st in
      let pos := mkPosition (10 + IZR i * 5) (10 + IZR loot_id * 3) in
      value ← (if contains loot_obj "value"
               then at_ loot_obj "value" ≫= as_double else Some 10);
      let type :=
        (Z.rem (if type_sees_increment then loot_id + 1 else loot_id) 5 + 1)%Z in
      let item := mkLootItem loot_id type (value_of_double value) pos in
      add_items n' (i + 1)%Z loot_obj (AddLootItem map item, (loot_id + 1)%Z)
  end.

(** The loop over [loot_types_array]. *)
Fixpoint load_loot_types (loot_types_array : list value) (st : Map * Z)
    : option (Map * Z) :=
  match loot_types_array with
  | [] => Some st
  | loot_type :: rest =>
      loot_obj ← as_object loot_type;
      st' ← add_items 3 0 loot_obj st;
      load_loot_types rest st'
  end.

(** [LoadMapLootTypes]; the map is changed in place, [None] where an
    exception leaves the function. *)
Definition LoadMapLootTypes (map_json : value) (map : Map) : option Map :=
  o ← as_object map_json;
  if negb (contains o "lootTypes") then Some map
  else
    loot_types_array ← at_ o "lootTypes" ≫= as_array;
    fst <$> load_loot_types loot_types_array (map, 0%Z).

End LootTypes.

(** The loot types a map description lists. *)
Definition loot_types (map_json : value) : list value :=
  default [] (as_object map_json ≫= fun o => at_ o "lootTypes" ≫= as_array).

(** Where [LoadMapLootTypes] puts the item of a given id. *)
Definition loaded_position (id : Z) : Position :=
  mkPosition (10 + 5 * IZR (id mod 3)) (10 + 3 * IZR id).

End JsonLoader.

(** ** A player who has been idle for a minute *)

Module Scenario.
Import Geometry Model App Contract.

(** Alice, alone on a map without offices and without loot, at rest since
    the clock read 0. *)
Definition meadow : Map :=
  mkMap "town" "Town" [mkRoad HORIZONTAL (mkPoint 0 0) 10] [] [] 1 3.

Definition idle_dog : Dog :=
  SetBagCapacity (new_dog 0 "Alice" "town" (mkPosition 0 0)) 3.

Definition idle_game : Game :=
  mkGame [meadow] [idle_dog] [Examples.alice]
         {["aaaa"%string := 0%nat]} {[0%Z := 0%nat]} {[0%Z := 0%nat]}.

Definition idle_alice : Application :=
  mkApplication idle_game false Chrono.sixty_seconds {[0%Z := mkPlayerMetadata 0 (Some 0%Z) false]}
                true 0 1 1.

(** One minute, and 61 seconds, in nanoseconds. *)
Definition a_minute : Z := 60000000000.

Definition a_bit_later : Z := 61000000000.

(** The application once Alice has been retired. *)
Definition retired_alice : Application :=
  mkApplication (mkGame [set_loot meadow (seed_items 0)] [] [] ∅ ∅ ∅) false
                Chrono.sixty_seconds
                {[0%Z := mkPlayerMetadata 0 (Some 0%Z) true]} true 5 1 1.

(** A dog on the spot of two loot items, in a game without players. *)
Definition twin_game : Game :=
  mkGame [Examples.town 1 1 Examples.twin_loot] [Examples.resting_dog] [] ∅ ∅ ∅.

(** A pool of two connections, the first of which is out. *)
Definition busy_pool : Pool.State nat :=
  (Pool.mkConnectionPool [None; Some 7%nat] 1, [Some 3%nat]).

(** A second map, without loot until the configuration loader stocks it
    from [town_json]. *)
Definition depot_shell : Map :=
  mkMap "depot" "Depot" [mkRoad HORIZONTAL (mkPoint 0 0) 10] [] [] 1 3.

(** A map description with two loot types, the first with a value. *)
Definition town_json : JsonLoader.value :=
  JsonLoader.object
    [("id"%string, JsonLoader.string_ "town");
     ("lootTypes"%string,
      JsonLoader.array
        [JsonLoader.object [("name"%string, JsonLoader.string_ "key");
                            ("value"%string, JsonLoader.double 30)];
         JsonLoader.object [("name"%string, JsonLoader.string_ "wallet")]])].

Definition depot : Map :=
  default depot_shell
    (JsonLoader.LoadMapLootTypes false (fun _ => 10%Z) town_json depot_shell).

End Scenario.

(** * Properties *)

Import Geometry Model App Contract.

(** ** Distances *)

(** Settles the comparisons of reals that [lra] can decide. *)
Ltac decide_real d :=
  first [ destruct d as [?|?]; [solve [lra]|]
        | destruct d as [?|?]; [|solve [lra]] ].

Ltac decide_reals :=
  repeat match goal with
         | |- context [Rlt_dec ?a ?b] => decide_real (Rlt_dec a b)
         | |- context [Rle_dec ?a ?b] => decide_real (Rle_dec a b)
         | |- context [Rgt_dec ?a ?b] => decide_real (Rgt_dec a b)
         | |- context [Rge_dec ?a ?b] => decide_real (Rge_dec a b)
         end.

Lemma hypot_nonneg a b : 0 <= hypot a b.
Proof. apply sqrt_pos. Qed.

Lemma hypot_sqr a b : hypot a b * hypot a b = a * a + b * b.
Proof. apply sqrt_sqrt. nra. Qed.

Lemma hypot_axis a : 0 <= a -> hypot a 0 = a.
Proof.
  intros Ha. unfold hypot.
  replace (a * a + 0 * 0) with (a * a) by ring. now apply sqrt_square.
Qed.

Lemma FindCollisionTime_short start_pos end_pos target_pos r :
  hypot (x end_pos - x start_pos) (y end_pos - y start_pos) < 1e-9 ->
  FindCollisionTime start_pos end_pos target_pos r
  = if Rle_dec (distance start_pos target_pos) r then Some 0 else None.
Proof.
  intros H. unfold FindCollisionTime.
  destruct (Rlt_dec _ _) as [_|Hn]; [reflexivity|contradiction].
Qed.

Lemma FindCollisionTime_at_rest p target_pos r :
  FindCollisionTime p p target_pos r
  = if Rle_dec (distance p target_pos) r then Some 0 else None.
Proof.
  apply FindCollisionTime_short.
  replace (x p - x p) with 0 by ring. replace (y p - y p) with 0 by ring.
  rewrite hypot_axis; lra.
Qed.

(** ** Listing the players of a map (claim C10) *)

Lemma filter_players_on_same_map player ps :
  List.filter (fun p => bool_decide (player_map_id p = player_map_id player)) ps
  = players_on_same_map player ps.
Proof.
  induction ps as [|p rest IH]; simpl; [reflexivity|].
  rewrite IH. destruct (String.eqb_spec (player_map_id p) (player_map_id player)).
  - now rewrite bool_decide_eq_true_2.
  - now rewrite bool_decide_eq_false_2.
Qed.

(** C10. [GetPlayers] and [GetGameState] return the same list for every
    token and every state: nothing when the token resolves to no player,
    otherwise the players on the map of the token's player, in the order
    of the players sequence. *)
Theorem GetPlayers_GetGameState_agree (a : Application) (auth_token : string) :
  GetPlayers a auth_token = GetGameState a auth_token /\
  GetPlayers a auth_token =
    match FindPlayerByToken a auth_token with
    | None => []
    | Some player => players_on_same_map player (players (game_ a))
    end.
Proof.
  split; [reflexivity|].
  unfold GetPlayers. destruct (FindPlayerByToken a auth_token) as [player|].
  - apply filter_players_on_same_map.
  - reflexivity.
Qed.

(** ** Retirement is idempotent (claim C9) *)

Lemma RetirePlayer_retired now id a it :
  player_metadata_ a !! id = Some it -> is_retired it = true ->
  RetirePlayer now id a = (a, None).
Proof. intros Hit Hr. unfold RetirePlayer. now rewrite Hit, Hr. Qed.

(** C9. Whatever the state, a second [RetirePlayer] for the same player id
    hands no record to the callback and leaves the whole application
    (indices, players, dogs, metadata) as the first call left it. *)
Theorem RetirePlayer_idempotent (now1 now2 : Z) (id : Z) (a : Application) :
  RetirePlayer now2 id (fst (RetirePlayer now1 id a))
  = (fst (RetirePlayer now1 id a), None).
Proof.
  unfold RetirePlayer at 2 3.
  destruct (player_metadata_ a !! id) as [it|] eqn:Hit; simpl.
  2: { unfold RetirePlayer. now rewrite Hit. }
  destruct (is_retired it) eqn:Hr; simpl.
  { now apply RetirePlayer_retired with it. }
  destruct (FindPlayer (game_ a) id) as [player|] eqn:Hp; simpl.
  2: { unfold RetirePlayer. now rewrite Hit, Hr, Hp. }
  destruct (FindDog (game_ a) (player_dog_id player)) as [[i dog]|] eqn:Hd; simpl.
  2: { unfold RetirePlayer. now rewrite Hit, Hr, Hp, Hd. }
  eapply RetirePlayer_retired; simpl.
  - apply lookup_insert_eq.
  - reflexivity.
Qed.

(** ** The session indices (claim C1) *)


Lemma lookup_snoc_inv {A} (l : list A) (a : A) i b :
  (l ++ [a]) !! i = Some b ->
  l !! i = Some b \/ (i = length l /\ b = a).
Proof.
  intros H. destruct (decide (i < length l)%nat) as [Hlt|Hge].
  - left. now rewrite lookup_app_l in H.
  - right. rewrite lookup_app_r in H by lia.
    destruct (i - length l)%nat as [|k] eqn:Hk; simpl in H; [|discriminate].
    injection H as <-. split; [lia|reflexivity].
Qed.

(** [JoinGame] keeps the indices consistent when the token and the two
    ids it issues are new. *)
Lemma JoinGame_keeps_indices_consistent {E : Externals}
    user_name map_id_ token position now a :
  indices_consistent (game_ a) ->
  token_to_player_index (game_ a) !! token = None ->
  player_id_to_index (game_ a) !! next_player_id a = None ->
  dog_id_to_index (game_ a) !! next_dog_id a = None ->
  indices_consistent (game_ (fst (JoinGame user_name map_id_ token position now a))).
Proof.
  intros [Hp Hd] Htok Hpid Hdid. unfold JoinGame.
  destruct (FindMap (game_ a) map_id_) as [[j m]|]; [|now split].
  case_bool_decide; [now split|]. simpl.
  rewrite !length_app. simpl.
  replace (length (players (game_ a)) + 1 - 1)%nat with (length (players (game_ a))) by lia.
  replace (length (dogs (game_ a)) + 1 - 1)%nat with (length (dogs (game_ a))) by lia.
  split.
  - intros i p Hi. apply lookup_snoc_inv in Hi. destruct Hi as [Hi|[-> ->]].
    + destruct (Hp i p Hi) as [H1 H2]. simpl. split.
      * rewrite lookup_insert_ne; [exact H1|]. intros Heq. congruence.
      * rewrite lookup_insert_ne; [exact H2|]. intros Heq. congruence.
    + simpl. split; apply lookup_insert_eq.
  - intros i d Hi. apply lookup_snoc_inv in Hi. destruct Hi as [Hi|[-> ->]].
    + pose proof (Hd i d Hi) as H1. simpl.
      rewrite lookup_insert_ne; [exact H1|]. intros Heq. congruence.
    + simpl. apply lookup_insert_eq.
Qed.

(** X6.  What [RetirePlayer] does get right: once it has found the player and
    the dog, their entries are gone from the three indices and no player
    of that id and no dog of that dog's id is left in the sequences. *)
Lemma RetirePlayer_removes_the_player now id a it player i dog :
  player_metadata_ a !! id = Some it -> is_retired it = false ->
  FindPlayer (game_ a) id = Some player ->
  FindDog (game_ a) (player_dog_id player) = Some (i, dog) ->
  let g' := game_ (fst (RetirePlayer now id a)) in
  token_to_player_index g' !! player_token player = None /\
  player_id_to_index g' !! id = None /\
  dog_id_to_index g' !! dog_id dog = None /\
  Forall (fun p => player_id p <> id) (players g') /\
  Forall (fun d => dog_id d <> dog_id dog) (dogs g').
Proof.
  intros Hit Hr Hp Hd. unfold RetirePlayer. rewrite Hit, Hr, Hp, Hd. simpl.
  repeat split; try apply lookup_delete_eq.
  - apply List.Forall_forall. intros p Hin. apply List.filter_In in Hin.
    destruct Hin as [_ Hin]. apply negb_true_iff, bool_decide_eq_false_1 in Hin.
    exact Hin.
  - apply List.Forall_forall. intros d Hin. apply List.filter_In in Hin.
    destruct Hin as [_ Hin]. apply negb_true_iff, bool_decide_eq_false_1 in Hin.
    exact Hin.
Qed.

Lemma three_players_consistent : indices_consistent (game_ Examples.three_players).
Proof.
  split.
  - intros [|[|[|i]]] p H; vm_compute in H; try discriminate;
      injection H as <-; split; reflexivity.
  - intros [|[|[|i]]] d H; vm_compute in H; try discriminate;
      injection H as <-; reflexivity.
Qed.

(** C1 fails on the code.  Alice, Bob and Carol have joined (positions 0,
    1, 2; the indices are consistent); Alice is retired.  [RetirePlayer]
    shifts Bob and Carol to positions 0 and 1 and leaves their index
    entries at 1 and 2: the indices are no longer consistent, Bob's token
    now resolves to Carol, and Carol's token to no player at all. *)
Theorem RetirePlayer_leaves_stale_indices :
  let a := fst (RetirePlayer 100 0 Examples.three_players) in
  players (game_ a) !! 0%nat = Some (mkPlayer 1 "Bob" 1 "town" "bbbb") /\
  token_to_player_index (game_ a) !! "bbbb"%string = Some 1%nat /\
  player_id_to_index (game_ a) !! 1%Z = Some 1%nat /\
  dog_id_to_index (game_ a) !! 1%Z = Some 1%nat /\
  FindPlayerByToken a "bbbb" = Some (mkPlayer 2 "Carol" 2 "town" "cccc") /\
  FindPlayerByToken a "cccc" = None /\
  ~ indices_consistent (game_ a).
Proof.
  repeat split; try (vm_compute; reflexivity).
  intros [Hp _].
  specialize (Hp 0%nat (mkPlayer 1 "Bob" 1 "town" "bbbb")).
  assert (H : players (game_ (fst (RetirePlayer 100 0 Examples.three_players))) !! 0%nat
              = Some (mkPlayer 1 "Bob" 1 "town" "bbbb")) by (vm_compute; reflexivity).
  destruct (Hp H) as [Ht _]. vm_compute in Ht. discriminate.
Qed.

(** ** Player actions (claim C7) *)

Lemma is_zero_true v : vx v = 0 -> vy v = 0 -> is_zero v = true.
Proof.
  intros Hx Hy. unfold is_zero.
  destruct (Req_dec_T (vx v) 0); [|contradiction].
  destruct (Req_dec_T (vy v) 0); [reflexivity|contradiction].
Qed.

Lemma is_zero_false v : vx v <> 0 \/ vy v <> 0 -> is_zero v = false.
Proof.
  intros H. unfold is_zero.
  destruct (Req_dec_T (vx v) 0); [|reflexivity].
  destruct (Req_dec_T (vy v) 0); [|reflexivity].
  destruct H; contradiction.
Qed.

Lemma FindDog_lookup g id i dog :
  FindDog g id = Some (i, dog) -> dogs g !! i = Some dog.
Proof.
  unfold FindDog. destruct (dog_id_to_index g !! id) as [k|]; [|discriminate].
  destruct (dogs g !! k) as [d|] eqn:Hk; [|discriminate].
  intros [= <- <-]. exact Hk.
Qed.

Lemma decode_move_None move speed dog :
  decode_move move speed dog = None <-> ~ known_move move.
Proof.
  unfold decode_move, known_move.
  repeat case_bool_decide; split; intros Hk; try discriminate; try tauto.
Qed.

(** [SetPlayerAction] with its lookups resolved. *)
Lemma SetPlayerAction_accepted player move now a i dog j m v d :
  FindDog (game_ a) (player_dog_id player) = Some (i, dog) ->
  FindMap (game_ a) (player_map_id player) = Some (j, m) ->
  decode_move move (map_dog_speed m) dog = Some (v, d) ->
  SetPlayerAction player move now a =
  (set_player_metadata
     (set_game a (set_dogs (game_ a)
        (<[i := SetDirection (SetVelocity dog v) d]> (dogs (game_ a)))))
     match player_metadata_ a !! player_id player with
     | Some it =>
         if is_retired it then player_metadata_ a
         else <[player_id player := idle_after it (negb (is_zero v)) now]>
                (player_metadata_ a)
     | None => player_metadata_ a
     end, true).
Proof.
  intros Hd Hm Hv. unfold SetPlayerAction, GetDogSpeedForMap.
  rewrite Hd, Hm, Hv. simpl. f_equal. f_equal.
  destruct (player_metadata_ a !! player_id player) as [it|] eqn:Hit; [|reflexivity].
  destruct (is_retired it); [reflexivity|].
  unfold idle_after. destruct (is_zero v); simpl; [|reflexivity].
  destruct (idle_start_time it) eqn:Hidle; [|reflexivity].
  symmetry. apply insert_id. exact Hit.
Qed.

Lemma SetPlayerAction_rejected player move now a i dog j m :
  FindDog (game_ a) (player_dog_id player) = Some (i, dog) ->
  FindMap (game_ a) (player_map_id player) = Some (j, m) ->
  decode_move move (map_dog_speed m) dog = None ->
  SetPlayerAction player move now a = (a, false).
Proof.
  intros Hd Hm Hv. unfold SetPlayerAction, GetDogSpeedForMap.
  now rewrite Hd, Hm, Hv.
Qed.

(** What [SetPlayerAction] does to the dog that the dog-id index gives for
    the player's dog id, and to the metadata of the player. *)
Lemma SetPlayerAction_resolved
    (player : Player) (move : string) (now : Z) (a : Application)
    (i : nat) (dog : Dog) (j : nat) (m : Map) :
  FindDog (game_ a) (player_dog_id player) = Some (i, dog) ->
  FindMap (game_ a) (player_map_id player) = Some (j, m) ->
  let r := SetPlayerAction player move now a in
  let speed := map_dog_speed m in
  let dog_after v d :=
    dogs (game_ (fst r)) = <[i := SetDirection (SetVelocity dog v) d]> (dogs (game_ a)) in
  let meta_after := player_metadata_ (fst r) !! player_id player in
  (snd r = true <-> known_move move) /\
  (snd r = false -> fst r = a) /\
  (move = "L"%string -> dog_after (mkVelocity (- speed) 0) West) /\
  (move = "R"%string -> dog_after (mkVelocity speed 0) East) /\
  (move = "U"%string -> dog_after (mkVelocity 0 (- speed)) North) /\
  (move = "D"%string -> dog_after (mkVelocity 0 speed) South) /\
  (move = EmptyString -> dog_after (mkVelocity 0 0) (dog_direction dog)) /\
  (forall it,
     player_metadata_ a !! player_id player = Some it -> is_retired it = false ->
     known_move move ->
     (move <> EmptyString -> speed <> 0 ->
        meta_after = Some (set_idle_start_time it None)) /\
     (move = EmptyString \/ speed = 0 ->
        meta_after = Some (idle_after it false now))).
Proof.
  intros Hd Hm r speed dog_after meta_after.
  assert (Hi : (i < length (dogs (game_ a)))%nat)
    by (eapply lookup_lt_Some, FindDog_lookup, Hd).
  destruct (decode_move move speed dog) as [[v d]|] eqn:Hv.
  - pose proof (SetPlayerAction_accepted player move now a i dog j m v d Hd Hm Hv) as Hs.
    assert (Hk : known_move move).
    { destruct (decide (known_move move)) as [|Hn]; [assumption|].
      apply decode_move_None with (speed := speed) (dog := dog) in Hn. congruence. }
    assert (Hdog : dogs (game_ (fst r))
                   = <[i := SetDirection (SetVelocity dog v) d]> (dogs (game_ a))).
    { subst r. rewrite Hs. reflexivity. }
    assert (Hmeta : forall it,
              player_metadata_ a !! player_id player = Some it -> is_retired it = false ->
              meta_after = Some (idle_after it (negb (is_zero v)) now)).
    { intros it Hit Hr. subst meta_after r. rewrite Hs. simpl. rewrite Hit, Hr.
      apply lookup_insert_eq. }
    subst dog_after. unfold decode_move in Hv.
    split; [subst r; rewrite Hs; simpl; tauto|].
    split; [subst r; rewrite Hs; simpl; discriminate|].
    do 5 (split; [try (intros ->; simpl in Hv; injection Hv as <- <-; exact Hdog)|]).
    intros it Hit Hr _. rewrite (Hmeta it Hit Hr). split.
    + intros Hne Hsp.
      repeat case_bool_decide; try contradiction; try discriminate; injection Hv as <- <-;
        rewrite is_zero_false; simpl; auto; lra.
    + intros Hz.
      repeat case_bool_decide; try discriminate; injection Hv as <- <-;
        (rewrite is_zero_true; [reflexivity| simpl; destruct Hz; try congruence; lra ..]).
  - pose proof (SetPlayerAction_rejected player move now a i dog j m Hd Hm Hv) as Hs.
    apply decode_move_None in Hv.
    unfold known_move in Hv.
    subst dog_after meta_after r. rewrite Hs. simpl.
    repeat split; try discriminate; try tauto; try (intros ->; tauto).
Qed.

(** ** The play time stored by the records sink (claim C8) *)

(** The cast cuts toward zero: for a value [±m·2^e] with a negative
    exponent the stored magnitude is the integer part of [m / 2^(-e)]. *)
Lemma truncate_toward_zero s m e :
  (e < 0)%Z ->
  (Z.abs (Db.truncate s m e) * 2 ^ (- e) <= Z.pos m
   < (Z.abs (Db.truncate s m e) + 1) * 2 ^ (- e))%Z.
Proof.
  intros He. unfold Db.truncate.
  destruct (Z.leb_spec 0 e) as [H|_]; [lia|].
  rewrite Z.shiftr_div_pow2 by lia.
  assert (Hp : (0 < 2 ^ (- e))%Z) by (apply Z.pow_pos_nonneg; lia).
  assert (Hq : (0 <= Z.pos m / 2 ^ (- e))%Z) by (apply Z.div_pos; lia).
  pose proof (Z.mul_div_le (Z.pos m) _ Hp) as H1.
  pose proof (Z.mul_succ_div_gt (Z.pos m) _ Hp) as H2.
  destruct s; rewrite ?Z.abs_opp, Z.abs_eq by lia; lia.
Qed.

(** C8 fails on the code.  For a play duration of 1001 ms [RetirePlayer]
    hands over the double [1001 / 1000.0]; its product with [1000.0] is a
    little below 1001, and the cast stores 1000 where rounding gives 1001.
    Likewise 2^-10 s (0.9765625 ms) is stored as 0 and rounds to 1. *)
Theorem AddRetiredPlayer_truncates :
  Db.AddRetiredPlayer [] "Alice" 0 (Db.seconds_of_milliseconds 1001)
    = Some [Db.mkRow "Alice" 0 1000] /\
  Db.rounded_play_time_ms (Db.seconds_of_milliseconds 1001) = Some 1001%Z /\
  Db.AddRetiredPlayer [] "Alice" 0 Db.short_play = Some [Db.mkRow "Alice" 0 0] /\
  Db.rounded_play_time_ms Db.short_play = Some 1%Z.
Proof. repeat split; vm_compute; reflexivity. Qed.

(** ** The loot generator (claim C6) *)

Lemma spawn_loop_5 m c :
  spawn_loop 5 0 (m, c) = (set_loot m (map_loot_items m ++ seed_items c), (c + 5)%Z).
Proof.
  simpl. unfold AddLootItem, set_loot; simpl.
  rewrite <- !app_assoc. simpl.
  unfold seed_items.
  f_equal; [|lia]. do 2 f_equal.
  repeat match goal with |- _ :: _ = _ :: _ => f_equal end.
  all: f_equal; try lia; f_equal; rewrite ?plus_IZR; lra.
Qed.

Lemma generate_for_maps_replenish ms c : generate_for_maps ms c = replenish ms c.
Proof.
  revert c. induction ms as [|m rest IH]; intros c; [reflexivity|].
  cbn [generate_for_maps replenish]. unfold generate_for_map. cbn [fst].
  destruct (map_loot_items m) as [|l ls] eqn:Hl.
  - rewrite spawn_loop_5, Hl, IH. reflexivity.
  - now rewrite IH.
Qed.

Lemma replenish_counter ms c :
  (c <= snd (replenish ms c))%Z.
Proof.
  revert c. induction ms as [|m rest IH]; intros c; simpl; [lia|].
  destruct (map_loot_items m).
  - specialize (IH (c + 5)%Z). destruct (replenish rest (c + 5)); simpl in *. lia.
  - specialize (IH c). destruct (replenish rest c); simpl in *. lia.
Qed.

Lemma replenish_maps ms c :
  Forall2 (replenished c (snd (replenish ms c))) ms (fst (replenish ms c)).
Proof.
  assert (G : forall ms c lo, (lo <= c)%Z ->
            Forall2 (replenished lo (snd (replenish ms c))) ms (fst (replenish ms c))).
  { clear. induction ms as [|m rest IH]; intros c lo Hlo; simpl; [constructor|].
    destruct (map_loot_items m) as [|l ls] eqn:Hl.
    - pose proof (replenish_counter rest (c + 5)) as Hc.
      specialize (IH (c + 5)%Z lo ltac:(lia)).
      destruct (replenish rest (c + 5)) as [rest' c']; simpl in *.
      constructor; [|exact IH].
      unfold replenished. rewrite Hl. exists c. split; [lia|reflexivity].
    - specialize (IH c lo Hlo).
      destruct (replenish rest c) as [rest' c']; simpl in *.
      constructor; [|exact IH].
      unfold replenished. now rewrite Hl. }
  apply G. lia.
Qed.

Lemma replenish_ids ms c :
  spawned_ids ms (fst (replenish ms c)) = seqZ c (snd (replenish ms c) - c).
Proof.
  revert c. induction ms as [|m rest IH]; intros c; simpl.
  - now rewrite Z.sub_diag.
  - destruct (map_loot_items m) as [|l ls] eqn:Hl.
    + pose proof (replenish_counter rest (c + 5)) as Hc.
      specialize (IH (c + 5)%Z).
      destruct (replenish rest (c + 5)) as [rest' c']; simpl in *.
      rewrite ?Hl, IH.
      replace (c' - c)%Z with (5 + (c' - (c + 5)))%Z by lia.
      rewrite seqZ_app by lia.
      assert (H5 : seqZ c 5 = [c; c + 1; c + 2; c + 3; c + 4]%Z)
        by (unfold seqZ; change (Z.to_nat 5) with 5%nat; cbn;
            repeat (apply f_equal2; [lia|]); reflexivity).
      rewrite H5. reflexivity.
    + specialize (IH c). destruct (replenish rest c) as [rest' c']; simpl in *.
      now rewrite ?Hl.
Qed.

Lemma RetirePlayer_world now id a :
  maps (game_ (fst (RetirePlayer now id a))) = maps (game_ a) /\
  next_loot_id (fst (RetirePlayer now id a)) = next_loot_id a.
Proof.
  unfold RetirePlayer.
  destruct (player_metadata_ a !! id) as [it|]; [|now split].
  destruct (is_retired it); [now split|].
  destruct (FindPlayer (game_ a) id) as [player|]; [|now split].
  destruct (FindDog (game_ a) (player_dog_id player)) as [[i dog]|]; now split.
Qed.

Lemma retire_fold_world rc ids st :
  maps (game_ (fst (fold_left (retire_step rc) ids st))) = maps (game_ (fst st)) /\
  next_loot_id (fst (fold_left (retire_step rc) ids st)) = next_loot_id (fst st).
Proof.
  revert st. induction ids as [|id rest IH]; intros st; simpl; [now split|].
  destruct (IH (retire_step rc st id)) as [-> ->].
  unfold retire_step.
  destruct (RetirePlayer_world (rc id) id (fst st)) as [Hm Hn].
  destruct (RetirePlayer (rc id) id (fst st)) as [a' e]; simpl in *. now split.
Qed.

Lemma retire_all_world rc ids a :
  maps (game_ (fst (retire_all rc ids a))) = maps (game_ a) /\
  next_loot_id (fst (retire_all rc ids a)) = next_loot_id a.
Proof. apply (retire_fold_world rc ids (a, [])). Qed.

Lemma CheckPlayerRetirement_world now rc a :
  maps (game_ (fst (CheckPlayerRetirement now rc a))) = maps (game_ a) /\
  next_loot_id (fst (CheckPlayerRetirement now rc a)) = next_loot_id a.
Proof.
  unfold CheckPlayerRetirement.
  destruct (retire_all_world rc
    (omap (fun e : Z * PlayerMetadata =>
             if snd (check_entry now a (fst e) (snd e)) then Some (fst e) else None)
          (map_to_list (player_metadata_ a)))
    (set_player_metadata a
       (map_imap (fun id metadata => Some (fst (check_entry now a id metadata)))
                 (player_metadata_ a)))) as [-> ->].
  now split.
Qed.

(** The maps and the counter after a tick are the specification's policy
    applied to the maps as motion and collisions left them. *)
Lemma Tick_replenish {E : Externals} delta now rc a :
  (maps (game_ (fst (Tick delta now rc a))), next_loot_id (fst (Tick delta now rc a)))
  = replenish (maps (UpdateGameState (game_ a) (IZR delta / 1000))) (next_loot_id a).
Proof.
  unfold Tick.
  destruct (CheckPlayerRetirement_world now rc
              (GenerateLootItems (set_game a (UpdateGameState (game_ a) (IZR delta / 1000)))))
    as [-> ->].
  unfold GenerateLootItems. simpl.
  rewrite generate_for_maps_replenish.
  now destruct (replenish _ _).
Qed.

Lemma JoinGame_counter {E : Externals} user_name map_id_ token position now a :
  next_loot_id (fst (JoinGame user_name map_id_ token position now a)) = next_loot_id a.
Proof.
  unfold JoinGame. destruct (FindMap _ _) as [[j m]|]; [|reflexivity].
  now case_bool_decide.
Qed.

Lemma SetPlayerAction_counter player move now a :
  next_loot_id (fst (SetPlayerAction player move now a)) = next_loot_id a.
Proof.
  unfold SetPlayerAction. destruct (FindDog _ _) as [[i dog]|]; [|reflexivity].
  destruct (FindMap _ _) as [[j m]|]; [|reflexivity].
  now destruct (decode_move _ _ _) as [[v d]|].
Qed.

Lemma Tick_issues {E : Externals} delta now rc a :
  (next_loot_id a <= next_loot_id (fst (Tick delta now rc a)))%Z /\
  spawned_ids (maps (UpdateGameState (game_ a) (IZR delta / 1000)))
              (maps (game_ (fst (Tick delta now rc a))))
  = seqZ (next_loot_id a) (next_loot_id (fst (Tick delta now rc a)) - next_loot_id a).
Proof.
  pose proof (Tick_replenish delta now rc a) as H.
  assert (Hm : maps (game_ (fst (Tick delta now rc a)))
               = fst (replenish (maps (UpdateGameState (game_ a) (IZR delta / 1000)))
                                (next_loot_id a))) by now rewrite <- H.
  assert (Hn : next_loot_id (fst (Tick delta now rc a))
               = snd (replenish (maps (UpdateGameState (game_ a) (IZR delta / 1000)))
                                (next_loot_id a))) by now rewrite <- H.
  rewrite Hm, Hn. split; [apply replenish_counter|apply replenish_ids].
Qed.

(** The ids issued along a run are the values the counter has taken, from
    0 on, in order. *)
Lemma issued_ids {E : Externals} ms a ids :
  issued ms a ids -> (0 <= next_loot_id a)%Z /\ ids = seqZ 0 (next_loot_id a).
Proof.
  induction 1 as [| a ids ? ? ? ? ? _ IH | a ids ? ? ? _ IH | a ids delta now rc _ IH].
  - split; [simpl; lia|reflexivity].
  - now rewrite JoinGame_counter.
  - now rewrite SetPlayerAction_counter.
  - destruct IH as [H0 ->]. destruct (Tick_issues delta now rc a) as [Hle ->].
    split; [lia|].
    rewrite <- seqZ_app by lia. f_equal. lia.
Qed.

(** C6, as the code has it.  In every tick, once motion and collisions are
    done, every map without loot receives exactly the five seed items
    (type 1, value 10, at (10,10), (15,10), (20,10), (25,10), (30,10),
    whatever the roads of the map are) and every other map is left as it
    is; the ids are consecutive values of the process-wide counter, which
    never decreases.  Along any run of joins, actions and ticks from a
    fresh application the ids the generator has issued are the numbers
    from 0 up to the counter, each once: no tick issues an id that an
    earlier tick has issued. *)
Theorem Tick_replenishes_empty_maps {E : Externals}
    (delta now : Z) (retire_clock : Z -> Z) (a : Application) :
  let before := maps (UpdateGameState (game_ a) (IZR delta / 1000)) in
  let a' := fst (Tick delta now retire_clock a) in
  let new_ids := spawned_ids before (maps (game_ a')) in
  Forall2 (replenished (next_loot_id a) (next_loot_id a')) before (maps (game_ a')) /\
  (next_loot_id a <= next_loot_id a')%Z /\
  new_ids = seqZ (next_loot_id a) (next_loot_id a' - next_loot_id a) /\
  forall ms ids, issued ms a ids ->
    ids = seqZ 0 (next_loot_id a) /\
    ids ++ new_ids = seqZ 0 (next_loot_id a') /\
    NoDup (ids ++ new_ids) /\
    issued ms a' (ids ++ new_ids).
Proof.
  intros before a' new_ids.
  pose proof (Tick_replenish delta now retire_clock a) as H.
  fold a' before in H.
  assert (Hm : maps (game_ a') = fst (replenish before (next_loot_id a))) by now rewrite <- H.
  assert (Hn : next_loot_id a' = snd (replenish before (next_loot_id a))) by now rewrite <- H.
  split; [rewrite Hm, Hn; apply replenish_maps|].
  split; [rewrite Hn; apply replenish_counter|].
  split; [apply Tick_issues|].
  intros ms ids Hrun.
  assert (Hrun' : issued ms a' (ids ++ new_ids)) by now constructor.
  destruct (issued_ids ms a ids Hrun) as [_ Hids].
  destruct (issued_ids ms a' _ Hrun') as [_ Hids'].
  split; [exact Hids|]. split; [exact Hids'|]. split; [|exact Hrun'].
  rewrite Hids'. apply NoDup_seqZ.
Qed.

(** A run in which the generator has issued ids. *)
Lemma issued_after_one_tick :
  issued (E := Examples.free_world) [Examples.town 1 3 []]
    (fst (Tick (E := Examples.free_world) 50 1000 (fun _ => 1000%Z)
            (initial_application [Examples.town 1 3 []] false Chrono.sixty_seconds true)))
    [0; 1; 2; 3; 4]%Z.
Proof.
  pose proof (issued_tick (E := Examples.free_world) [Examples.town 1 3 []] _ []
                50 1000 (fun _ => 1000%Z)
                (issued_initial [Examples.town 1 3 []] false Chrono.sixty_seconds true)) as H.
  destruct (Tick_issues (E := Examples.free_world) 50 1000 (fun _ => 1000%Z)
              (initial_application [Examples.town 1 3 []] false Chrono.sixty_seconds true))
    as [_ Hs].
  pose proof (Tick_replenish (E := Examples.free_world) 50 1000 (fun _ => 1000%Z)
                (initial_application [Examples.town 1 3 []] false Chrono.sixty_seconds true))
    as Hr.
  apply (f_equal snd) in Hr. simpl in Hr. rewrite Hr in Hs. rewrite Hs in H. exact H.
Qed.

Lemma depot_loaded :
  JsonLoader.LoadMapLootTypes false (fun _ => 10%Z) Scenario.town_json Scenario.depot_shell
  = Some Scenario.depot /\
  loot_id <$> map_loot_items Scenario.depot = [0; 1; 2; 3; 4; 5]%Z.
Proof. split; vm_compute; reflexivity. Qed.

(** C6 fails as stated, twice.  On a map whose first road runs from (0,0)
    to (10,0) the five items are put at y = 10, none of them on that road.
    And the ids are not unique: next to a map that the configuration
    loader has stocked with the items 0 to 5, the first tick puts the
    items 0 to 4 on the empty map, ids that are in use. *)
Lemma Tick_spawn_counterexample :
  let a := initial_application [Examples.town 1 3 []] false Chrono.sixty_seconds true in
  let a' := fst (Tick (E := Examples.free_world) 50 1000 (fun _ => 1000%Z) a) in
  let b := initial_application [Scenario.depot; Examples.town 1 3 []] false
             Chrono.sixty_seconds true in
  let b' := fst (Tick (E := Examples.free_world) 50 1000 (fun _ => 1000%Z) b) in
  maps (game_ a') = [Examples.town 1 3 (seed_items 0)] /\
  Forall (fun item =>
            ~ on_road (mkRoad HORIZONTAL (mkPoint 0 0) 10) (loot_position item))
         (seed_items 0) /\
  JsonLoader.LoadMapLootTypes false (fun _ => 10%Z) Scenario.town_json Scenario.depot_shell
  = Some Scenario.depot /\
  (fun m => loot_id <$> map_loot_items m) <$> maps (game_ b)
  = [[0; 1; 2; 3; 4; 5]; []]%Z /\
  (fun m => loot_id <$> map_loot_items m) <$> maps (game_ b')
  = [[0; 1; 2; 3; 4; 5]; [0; 1; 2; 3; 4]]%Z.
Proof.
  cbv zeta. split; [|split; [|split; [|split]]].
  - pose proof (Tick_replenish (E := Examples.free_world) 50 1000 (fun _ => 1000%Z)
                  (initial_application [Examples.town 1 3 []] false
                     Chrono.sixty_seconds true)) as H.
    apply (f_equal fst) in H. exact H.
  - unfold seed_items, on_road. repeat constructor; simpl; lra.
  - apply depot_loaded.
  - vm_compute. reflexivity.
  - pose proof (Tick_replenish (E := Examples.free_world) 50 1000 (fun _ => 1000%Z)
                  (initial_application [Scenario.depot; Examples.town 1 3 []] false
                     Chrono.sixty_seconds true)) as H.
    apply (f_equal fst) in H. simpl fst in H. rewrite H.
    vm_compute. reflexivity.
Qed.

(** ** Bags never exceed the capacity of the map (claim C5) *)

Lemma same_frame_refl ms : Forall2 same_frame ms ms.
Proof. induction ms; constructor; [now split|assumption]. Qed.

Lemma same_frame_trans ms1 ms2 ms3 :
  Forall2 same_frame ms1 ms2 -> Forall2 same_frame ms2 ms3 -> Forall2 same_frame ms1 ms3.
Proof.
  intros H. revert ms3. induction H as [|a b l k [H1 H2] _ IH]; intros ms3 H3.
  - inversion H3. constructor.
  - inversion H3 as [|? c ? k' [H4 H5] H6]; subst. constructor.
    + split; congruence.
    + now apply IH.
Qed.

Lemma same_frame_insert ms i m m' :
  ms !! i = Some m -> same_frame m m' -> Forall2 same_frame ms (<[i := m']> ms).
Proof.
  revert i. induction ms as [|a l IH]; intros [|i] Hi Hf; simpl in *; try discriminate.
  - injection Hi as ->. constructor; [assumption|apply same_frame_refl].
  - constructor; [now split|now apply IH].
Qed.

Lemma list_find_frame id ms ms' j m :
  Forall2 same_frame ms ms' ->
  list_find (fun m => map_id m = id) ms = Some (j, m) ->
  exists m', list_find (fun m => map_id m = id) ms' = Some (j, m') /\ same_frame m m'.
Proof.
  intros H. revert j m. induction H as [|a b l k [H1 H2] _ IH]; intros j m; simpl.
  - discriminate.
  - rewrite <- H1. case_decide.
    + intros [= <- <-]. exists b. split; [reflexivity|now split].
    + destruct (list_find _ l) as [[j0 m0]|] eqn:Hl; simpl; [|discriminate].
      intros [= <- <-]. destruct (IH j0 m0 eq_refl) as (m' & -> & Hf).
      exists m'. split; [reflexivity|assumption].
Qed.

Lemma dog_ok_frame ms ms' d :
  Forall2 same_frame ms ms' -> dog_ok ms d -> dog_ok ms' d.
Proof.
  intros Hf [Hb (j & m & Hfind & Hc)]. split; [assumption|].
  destruct (list_find_frame _ _ _ _ _ Hf Hfind) as (m' & Hfind' & _ & Hcap).
  exists j, m'. split; [assumption|congruence].
Qed.

Lemma add_scores l d :
  fold_left (fun d bag_item => AddScore d (value bag_item)) l d
  = AddScore d (bag_value l).
Proof.
  revert d. induction l as [|b l IH]; intros d; simpl.
  - destruct d; unfold AddScore; simpl. f_equal. lia.
  - rewrite IH. unfold AddScore; simpl. f_equal. lia.
Qed.

(** [apply_event] keeps the frame of the map and the bag bound of the dog. *)
Lemma apply_event_ok st ev :
  (length (dog_bag (snd st)) <= dog_bag_capacity (snd st))%nat ->
  same_frame (fst st) (fst (apply_event st ev)) /\
  dog_map_id (snd (apply_event st ev)) = dog_map_id (snd st) /\
  dog_bag_capacity (snd (apply_event st ev)) = dog_bag_capacity (snd st) /\
  (length (dog_bag (snd (apply_event st ev))) <= dog_bag_capacity (snd st))%nat.
Proof.
  destruct st as [m dog]. simpl. intros Hb. unfold apply_event.
  destruct (type ev).
  - unfold IsBagFull. destruct (Nat.leb_spec (dog_bag_capacity dog) (length (dog_bag dog))).
    + simpl. repeat split; assumption.
    + destruct (item_id ev) as [id|]; [|simpl; repeat split; assumption].
      destruct (FindLootItem m id) as [item|]; [|simpl; repeat split; assumption].
      simpl. repeat split. rewrite length_app. simpl. lia.
  - rewrite add_scores. simpl. repeat split; lia.
  - simpl. repeat split; assumption.
Qed.

Lemma same_frame_step m1 m2 m3 :
  same_frame m1 m2 -> same_frame m2 m3 -> same_frame m1 m3.
Proof. intros [? ?] [? ?]. split; congruence. Qed.

Lemma apply_events_ok evs st :
  (length (dog_bag (snd st)) <= dog_bag_capacity (snd st))%nat ->
  same_frame (fst st) (fst (fold_left apply_event evs st)) /\
  dog_map_id (snd (fold_left apply_event evs st)) = dog_map_id (snd st) /\
  dog_bag_capacity (snd (fold_left apply_event evs st)) = dog_bag_capacity (snd st) /\
  (length (dog_bag (snd (fold_left apply_event evs st))) <= dog_bag_capacity (snd st))%nat.
Proof.
  revert st. induction evs as [|ev evs IH]; intros st Hb; simpl.
  - repeat split; assumption.
  - destruct (apply_event_ok st ev Hb) as (Hf & Hm & Hc & Hl).
    destruct (IH (apply_event st ev)) as (Hf' & Hm' & Hc' & Hl');
      [rewrite Hc; exact Hl|].
    rewrite Hc in Hl'.
    split; [eapply same_frame_step; eassumption|].
    split; [congruence|]. split; [congruence|assumption].
Qed.

Lemma ProcessDogCollisions_ok {E : Externals} g dog s e :
  dog_ok (maps g) dog ->
  Forall2 same_frame (maps g) (maps (fst (ProcessDogCollisions g dog s e))) /\
  dog_ok (maps g) (snd (ProcessDogCollisions g dog s e)).
Proof.
  intros [Hb (j & m & Hfind & Hcap)]. unfold ProcessDogCollisions, FindMap.
  rewrite Hfind.
  destruct (apply_events_ok (applied_events m dog s e) (m, dog) Hb) as (Hf & Hm & Hc & Hl).
  destruct (fold_left apply_event _ (m, dog)) as [m' dog']; simpl in *.
  split.
  - apply same_frame_insert with m; [|assumption].
    now apply list_find_Some in Hfind.
  - split; [lia|]. exists j, m. rewrite Hm, Hc. split; assumption.
Qed.

Lemma MoveDog_ok {E : Externals} g dog dt ms :
  dog_ok ms dog -> dog_ok ms (MoveDog g dog dt).
Proof.
  intros H. unfold MoveDog.
  destruct (is_zero (dog_velocity dog)); [assumption|].
  destruct (FindMap g (dog_map_id dog)); [|assumption].
  destruct (collision_occurred _); exact H.
Qed.

Lemma update_dogs_ok {E : Externals} dt ds g :
  Forall (dog_ok (maps g)) ds ->
  Forall2 same_frame (maps g) (maps (fst (update_dogs dt g ds))) /\
  Forall (dog_ok (maps g)) (snd (update_dogs dt g ds)).
Proof.
  revert g. induction ds as [|dog rest IH]; intros g Hds; simpl.
  - split; [apply same_frame_refl|constructor].
  - inversion Hds as [|? ? Hd Hrest]; subst.
    pose proof (MoveDog_ok g dog dt _ Hd) as Hd1.
    destruct (ProcessDogCollisions_ok g (MoveDog g dog dt) (dog_position dog)
                (dog_position (MoveDog g dog dt)) Hd1) as [Hf Hd2].
    destruct (ProcessDogCollisions g _ _ _) as [g1 dog2]; simpl in *.
    destruct (IH g1) as [Hf' Hrest'].
    { eapply Forall_impl; [exact Hrest|]. intros d. now apply dog_ok_frame. }
    destruct (update_dogs dt g1 rest) as [g2 rest']; simpl in *.
    split.
    + eapply same_frame_trans; eassumption.
    + constructor; [assumption|].
      eapply Forall_impl; [exact Hrest'|]. intros d.
      apply dog_ok_frame. 
      clear -Hf. induction Hf as [|a b l k [H1 H2] _ IH]; constructor; [now split|assumption].
Qed.

Lemma UpdateGameState_ok {E : Externals} g dt :
  bags_ok g -> bags_ok (UpdateGameState g dt).
Proof.
  unfold bags_ok, UpdateGameState. intros H.
  destruct (update_dogs_ok dt (dogs g) g H) as [Hf Hd].
  destruct (update_dogs dt g (dogs g)) as [g' ds]; simpl in *.
  eapply Forall_impl; [exact Hd|]. intros d. now apply dog_ok_frame.
Qed.

Lemma replenish_frame ms c : Forall2 same_frame ms (fst (replenish ms c)).
Proof.
  revert c. induction ms as [|m rest IH]; intros c; simpl; [constructor|].
  destruct (map_loot_items m).
  - specialize (IH (c + 5)%Z). destruct (replenish rest (c + 5)); simpl in *.
    constructor; [now split|assumption].
  - specialize (IH c). destruct (replenish rest c); simpl in *.
    constructor; [now split|assumption].
Qed.

Lemma GenerateLootItems_ok a :
  bags_ok (game_ a) -> bags_ok (game_ (GenerateLootItems a)).
Proof.
  unfold bags_ok, GenerateLootItems. intros H.
  rewrite generate_for_maps_replenish.
  pose proof (replenish_frame (maps (game_ a)) (next_loot_id a)) as Hf.
  destruct (replenish _ _) as [ms c]; simpl in *.
  eapply Forall_impl; [exact H|]. intros d. now apply dog_ok_frame.
Qed.

Lemma RetirePlayer_ok now id a :
  bags_ok (game_ a) -> bags_ok (game_ (fst (RetirePlayer now id a))).
Proof.
  unfold bags_ok, RetirePlayer. intros H.
  destruct (player_metadata_ a !! id) as [it|]; [|assumption].
  destruct (is_retired it); [assumption|].
  destruct (FindPlayer (game_ a) id) as [player|]; [|assumption].
  destruct (FindDog (game_ a) (player_dog_id player)) as [[i dog]|]; [|assumption].
  simpl. apply List.Forall_forall. intros d Hd.
  apply List.filter_In in Hd. destruct Hd as [Hd _].
  rewrite List.Forall_forall in H. now apply H.
Qed.

Lemma retire_fold_ok rc ids st :
  bags_ok (game_ (fst st)) ->
  bags_ok (game_ (fst (fold_left (retire_step rc) ids st))).
Proof.
  revert st. induction ids as [|id rest IH]; intros st H; simpl; [assumption|].
  apply IH. unfold retire_step.
  pose proof (RetirePlayer_ok (rc id) id (fst st) H) as H'.
  now destruct (RetirePlayer (rc id) id (fst st)).
Qed.

Lemma CheckPlayerRetirement_ok now rc a :
  bags_ok (game_ a) -> bags_ok (game_ (fst (CheckPlayerRetirement now rc a))).
Proof. intros H. unfold CheckPlayerRetirement, retire_all. now apply retire_fold_ok. Qed.

Lemma Tick_ok {E : Externals} delta now rc a :
  bags_ok (game_ a) -> bags_ok (game_ (fst (Tick delta now rc a))).
Proof.
  intros H. unfold Tick.
  apply CheckPlayerRetirement_ok, GenerateLootItems_ok. simpl.
  now apply UpdateGameState_ok.
Qed.

Lemma JoinGame_ok {E : Externals} user map_id_ token pos now a :
  bags_ok (game_ a) -> bags_ok (game_ (fst (JoinGame user map_id_ token pos now a))).
Proof.
  unfold bags_ok, JoinGame. intros H.
  destruct (FindMap (game_ a) map_id_) as [[j m]|] eqn:Hm; [|assumption].
  case_bool_decide; [assumption|]. simpl.
  apply Forall_app. split; [assumption|].
  constructor; [|constructor].
  split; simpl; [lia|]. exists j, m. split; [exact Hm|reflexivity].
Qed.

Lemma SetPlayerAction_ok player move now a :
  bags_ok (game_ a) -> bags_ok (game_ (fst (SetPlayerAction player move now a))).
Proof.
  unfold bags_ok, SetPlayerAction. intros H.
  destruct (FindDog (game_ a) (player_dog_id player)) as [[i dog]|] eqn:Hd; [|assumption].
  destruct (FindMap (game_ a) (player_map_id player)) as [[j m]|]; [|assumption].
  destruct (decode_move _ _ _) as [[v d]|]; [|assumption].
  simpl. apply Forall_insert; [assumption|].
  apply FindDog_lookup in Hd.
  rewrite Forall_lookup in H. exact (H i dog Hd).
Qed.

(** C5. In every state the façade can reach by joins, actions and ticks,
    every dog has a map, carries the bag capacity of that map, and holds at
    most that many items. *)
Theorem bag_never_exceeds_capacity {E : Externals} (ms : list Map)
    (a : Application) :
  reachable ms a ->
  forall dog, dog ∈ dogs (game_ a) ->
  exists j m, FindMap (game_ a) (dog_map_id dog) = Some (j, m) /\
              dog_bag_capacity dog = map_bag_capacity m /\
              (length (dog_bag dog) <= map_bag_capacity m)%nat.
Proof.
  intros Hr.
  assert (H : bags_ok (game_ a)).
  { induction Hr.
    - constructor.
    - now apply JoinGame_ok.
    - now apply SetPlayerAction_ok.
    - now apply Tick_ok. }
  intros dog Hd. unfold bags_ok in H. rewrite Forall_forall in H.
  destruct (H dog Hd) as [Hb (j & m & Hf & Hc)].
  exists j, m. repeat split; [exact Hf|exact Hc|lia].
Qed.

Lemma bag_never_exceeds_capacity_witness :
  let a := fst (SetPlayerAction Examples.alice "R" 50 (Examples.alice_alone 1)) in
  exists j m, FindMap (game_ a) "town" = Some (j, m) /\
              3%nat = map_bag_capacity m /\ (0 <= map_bag_capacity m)%nat.
Proof.
  apply (bag_never_exceeds_capacity (E := Examples.free_world)
           [Examples.town 1 3 []]
           (fst (SetPlayerAction Examples.alice "R" 50 (Examples.alice_alone 1)))
           ltac:(repeat constructor)
           (SetDirection (SetVelocity
              (SetBagCapacity (new_dog 0 "Alice" "town" (mkPosition 0 0)) 3)
              (mkVelocity 1 0)) East)).
  vm_compute. left.
Defined.

(** ** [std::sort] (libstdc++): it returns, sorts, and keeps ties in order
       on at most 16 elements *)

Ltac divs :=
  repeat match goal with
  | |- context [(?a / 2)%nat] =>
      lazymatch goal with
      | _ : (a = 2 * (a / 2) + a mod 2)%nat |- _ => fail
      | _ => pose proof (Nat.div_mod_eq a 2);
             pose proof (Nat.mod_upper_bound a 2 ltac:(lia))
      end
  | _ : context [(?a / 2)%nat] |- _ =>
      lazymatch goal with
      | _ : (a = 2 * (a / 2) + a mod 2)%nat |- _ => fail
      | _ => pose proof (Nat.div_mod_eq a 2);
             pose proof (Nat.mod_upper_bound a 2 ltac:(lia))
      end
  | |- context [(?a mod 2)%nat] =>
      lazymatch goal with
      | _ : (a = 2 * (a / 2) + a mod 2)%nat |- _ => fail
      | _ => pose proof (Nat.div_mod_eq a 2);
             pose proof (Nat.mod_upper_bound a 2 ltac:(lia))
      end
  | _ : context [(?a mod 2)%nat] |- _ =>
      lazymatch goal with
      | _ : (a = 2 * (a / 2) + a mod 2)%nat |- _ => fail
      | _ => pose proof (Nat.div_mod_eq a 2);
             pose proof (Nat.mod_upper_bound a 2 ltac:(lia))
      end
  end.

Section StdSortProperties.
Import StdSort SortSpec.
Local Open Scope nat_scope.
Context {A : Type}.
Variable comp : A -> A -> bool.
Implicit Types v : list A.


Lemma sub_lookup lo hi v k :
  sub lo hi v !! k = if decide (k < hi - lo) then v !! (lo + k) else None.
Proof.
  unfold sub. destruct (decide (k < hi - lo)).
  - rewrite lookup_take_lt by assumption. apply lookup_drop.
  - apply lookup_take_ge. lia.
Qed.

Lemma elem_of_sub lo hi v x :
  x ∈ sub lo hi v <-> exists i, lo <= i < hi /\ v !! i = Some x.
Proof.
  rewrite list_elem_of_lookup. split.
  - intros (k & Hk). rewrite sub_lookup in Hk. destruct (decide (k < hi - lo)); [|discriminate].
    exists (lo + k). split; [lia|assumption].
  - intros (i & Hi & Hx). exists (i - lo). rewrite sub_lookup.
    rewrite decide_True by lia. now replace (lo + (i - lo)) with i by lia.
Qed.

Lemma rearranges_refl lo hi v : rearranges lo hi v v.
Proof. split; [reflexivity|now intros i _]. Qed.

Lemma rearranges_trans lo hi v1 v2 v3 :
  rearranges lo hi v1 v2 -> rearranges lo hi v2 v3 -> rearranges lo hi v1 v3.
Proof.
  intros [P1 A1] [P2 A2]. split; [now rewrite P1|].
  intros i Hi. now rewrite A2, A1.
Qed.

Lemma rearranges_widen lo hi lo' hi' v v' :
  lo' <= lo -> hi <= hi' -> rearranges lo hi v v' -> rearranges lo' hi' v v'.
Proof. intros H1 H2 [P Ag]. split; [assumption|]. intros i Hi. apply Ag. lia. Qed.

Lemma rearranges_length lo hi v v' : rearranges lo hi v v' -> length v' = length v.
Proof. intros [P _]. symmetry. now apply Permutation_length. Qed.

Lemma sub_agree lo hi a b v v' :
  agree_outside lo hi v v' -> b <= lo \/ hi <= a -> sub a b v' = sub a b v.
Proof.
  intros Ag H. apply list_eq. intros k. rewrite !sub_lookup.
  destruct (decide (k < b - a)); [|reflexivity]. apply Ag. lia.
Qed.

Lemma split_sub lo hi v :
  lo <= hi -> v = take lo v ++ sub lo hi v ++ drop hi v.
Proof.
  intros H. unfold sub. rewrite <- (take_drop lo v) at 1. f_equal.
  rewrite <- (take_drop (hi - lo) (drop lo v)) at 1. f_equal.
  rewrite drop_drop. f_equal. lia.
Qed.

Lemma rearranges_sub lo hi v v' :
  rearranges lo hi v v' -> lo <= hi -> sub lo hi v ≡ₚ sub lo hi v'.
Proof.
  intros [P Ag] H.
  assert (Ht : take lo v' = take lo v).
  { pose proof (sub_agree lo hi 0 lo v v' Ag ltac:(lia)) as Hs.
    unfold sub in Hs. now rewrite Nat.sub_0_r, !drop_0 in Hs. }
  assert (Hd : drop hi v' = drop hi v).
  { apply list_eq. intros k. rewrite !lookup_drop. apply Ag. lia. }
  rewrite (split_sub lo hi v H) in P at 1. rewrite (split_sub lo hi v' H) in P.
  rewrite Ht, Hd in P.
  apply Permutation_app_inv_l in P. now apply Permutation_app_inv_r in P.
Qed.

Lemma iter_swap_rearranges lo hi v a b :
  lo <= a < hi -> lo <= b < hi -> hi <= length v ->
  exists x y, v !! a = Some x /\ v !! b = Some y /\
    iter_swap v a b = Some (<[b := x]> (<[a := y]> v)) /\
    rearranges lo hi v (<[b := x]> (<[a := y]> v)).
Proof.
  intros Ha Hb Hl.
  destruct (lookup_lt_is_Some_2 v a ltac:(lia)) as [x Hx].
  destruct (lookup_lt_is_Some_2 v b ltac:(lia)) as [y Hy].
  exists x, y. split; [assumption|]. split; [assumption|]. split.
  - unfold iter_swap. now rewrite Hx, Hy.
  - split.
    + symmetry. now apply Permutation_insert_swap.
    + intros i Hi. rewrite !list_lookup_insert_ne by lia. reflexivity.
Qed.


Section Ordered.
Hypothesis comp_irrefl : forall x, comp x x = false.
Hypothesis comp_trans : forall x y z, comp x y = true -> comp y z = true -> comp x z = true.
Hypothesis comp_ntrans :
  forall x y z, comp x y = false -> comp y z = false -> comp x z = false.

Lemma notafter_refl x : (notafter comp) x x.
Proof. apply comp_irrefl. Qed.

Lemma notafter_trans x y z : (notafter comp) x y -> (notafter comp) y z -> (notafter comp) x z.
Proof. unfold notafter. intros H1 H2. now apply comp_ntrans with y. Qed.

Lemma before_notafter x y : comp x y = true -> (notafter comp) x y.
Proof.
  unfold notafter. intros H. destruct (comp y x) eqn:Hyx; [|reflexivity].
  pose proof (comp_trans x y x H Hyx) as H1. now rewrite comp_irrefl in H1.
Qed.

Lemma before_notafter_trans x y z : comp x y = true -> (notafter comp) y z -> comp x z = true.
Proof.
  unfold notafter. intros H1 H2. destruct (comp x z) eqn:Hxz; [reflexivity|].
  now rewrite (comp_ntrans x z y Hxz H2) in H1.
Qed.

Lemma notafter_before_trans x y z : (notafter comp) x y -> comp y z = true -> comp x z = true.
Proof.
  unfold notafter. intros H1 H2. destruct (comp x z) eqn:Hxz; [reflexivity|].
  now rewrite (comp_ntrans y x z H1 Hxz) in H2.
Qed.

Lemma notafter_total x y : (notafter comp) x y \/ (notafter comp) y x.
Proof.
  unfold notafter. destruct (comp y x) eqn:H; [right|now left]. now apply before_notafter.
Qed.

Lemma ins_perm x l : Permutation (x :: l) ((ins comp) x l).
Proof.
  induction l as [|y l IH]; simpl; [reflexivity|].
  destruct (comp x y); [reflexivity|]. rewrite perm_swap. now apply perm_skip.
Qed.

Lemma ins_length x l : length ((ins comp) x l) = S (length l).
Proof. symmetry. apply (Permutation_length (ins_perm x l)). Qed.

Lemma ins_sorted x l : StronglySorted (notafter comp) l -> StronglySorted (notafter comp) ((ins comp) x l).
Proof.
  induction 1 as [|y l Hl IH Hy]; simpl; [repeat constructor|].
  destruct (comp x y) eqn:Hxy.
  - constructor; [now constructor|]. constructor; [now apply before_notafter|].
    eapply Forall_impl; [exact Hy|]. intros z Hz. apply notafter_trans with y; [now apply before_notafter|assumption].
  - constructor; [assumption|].
    rewrite <- (ins_perm x l). constructor; assumption.
Qed.

Lemma fold_ins_perm l acc :
  Permutation (acc ++ l) (fold_left (fun acc x => (ins comp) x acc) l acc).
Proof.
  revert acc. induction l as [|x l IH]; intros acc; simpl.
  - now rewrite app_nil_r.
  - rewrite <- IH. rewrite <- ins_perm. simpl. symmetry. apply Permutation_middle.
Qed.

Lemma fold_ins_sorted l acc :
  StronglySorted (notafter comp) acc -> StronglySorted (notafter comp) (fold_left (fun acc x => (ins comp) x acc) l acc).
Proof.
  revert acc. induction l as [|x l IH]; intros acc H; simpl; [assumption|].
  now apply IH, ins_sorted.
Qed.

Lemma stable_sort_perm l : Permutation l ((stable_sort comp) l).
Proof. apply (fold_ins_perm l []). Qed.

Lemma stable_sort_sorted l : StronglySorted (notafter comp) ((stable_sort comp) l).
Proof. apply fold_ins_sorted. constructor. Qed.

Lemma stable_sort_snoc l x : (stable_sort comp) (l ++ [x]) = (ins comp) x ((stable_sort comp) l).
Proof. unfold stable_sort. now rewrite fold_left_app. Qed.

Lemma sorted_prefix (l1 l2 : list A) : StronglySorted (notafter comp) (l1 ++ l2) -> StronglySorted (notafter comp) l1.
Proof.
  induction l1 as [|x l1 IH]; simpl; intros H; [constructor|].
  inversion H as [|? ? H1 H2]; subst. constructor; [now apply IH|].
  now apply Forall_app in H2.
Qed.

(** ** [__unguarded_linear_insert] *)

Lemma ins_snoc_lt val l y : comp val y = true -> (ins comp) val (l ++ [y]) = (ins comp) val l ++ [y].
Proof.
  intros H. induction l as [|z l IH]; simpl; [now rewrite H|].
  destruct (comp val z); [reflexivity|]. now rewrite IH.
Qed.

Lemma ins_all_ge val l : Forall (fun z => comp val z = false) l -> (ins comp) val l = l ++ [val].
Proof.
  induction 1 as [|z l Hz _ IH]; simpl; [reflexivity|]. now rewrite Hz, IH.
Qed.

Lemma sorted_snoc_all_ge val l y :
  StronglySorted (notafter comp) (l ++ [y]) -> comp val y = false ->
  Forall (fun z => comp val z = false) (l ++ [y]).
Proof.
  intros Hs Hy. apply Forall_app. split; [|now repeat constructor].
  induction l as [|z l IH]; [constructor|].
  simpl in Hs. inversion Hs as [|? ? Hs' Hz]; subst. constructor; [|now apply IH].
  apply Forall_app in Hz. destruct Hz as [_ Hz]. inversion Hz; subst.
  destruct (comp val z) eqn:Hvz; [|reflexivity].
  assert (comp val y = true) by (eapply before_notafter_trans; eassumption). congruence.
Qed.

(** With [l2] already moved up, the loop puts [val] behind the last
    element of [l1] that [val] is not less than. *)
Lemma unguarded_linear_insert_loop_spec l1 (h : A) l2 rest val :
  StronglySorted (notafter comp) l1 ->
  (exists y, y ∈ l1 /\ comp val y = false) ->
  unguarded_linear_insert_loop comp (l1 ++ h :: l2 ++ rest) (length l1) val
  = Some ((ins comp) val l1 ++ l2 ++ rest).
Proof.
  revert h l2. induction l1 as [|y l1 IH] using rev_ind; intros h l2 Hs Hex.
  - destruct Hex as (y & Hy & _). inversion Hy.
  - rewrite length_app. simpl. rewrite Nat.add_1_r. simpl.
    rewrite <- List.app_assoc. simpl.
    rewrite (list_lookup_middle l1 _ y (length l1) eq_refl). simpl.
    destruct (comp val y) eqn:Hvy.
    + replace (<[S (length l1) := y]> (l1 ++ y :: h :: l2 ++ rest))
        with (l1 ++ y :: (y :: l2) ++ rest).
      2: { rewrite insert_app_r_alt by lia.
           replace (S (length l1) - length l1) with 1 by lia. reflexivity. }
      rewrite IH.
      * rewrite ins_snoc_lt by assumption. now rewrite <- List.app_assoc.
      * now apply sorted_prefix in Hs.
      * destruct Hex as (z & Hz & Hvz). exists z. split; [|assumption].
        apply elem_of_app in Hz. destruct Hz as [Hz|Hz]; [assumption|].
        apply list_elem_of_singleton in Hz. congruence.
    + rewrite ins_all_ge by now apply sorted_snoc_all_ge.
      f_equal. rewrite insert_app_r_alt by lia.
      replace (S (length l1) - length l1) with 1 by lia. simpl.
      now rewrite <- !List.app_assoc.
Qed.

Lemma unguarded_linear_insert_spec l1 x rest :
  StronglySorted (notafter comp) l1 ->
  (exists y, y ∈ l1 /\ (notafter comp) y x) ->
  unguarded_linear_insert comp (l1 ++ x :: rest) (length l1) = Some ((ins comp) x l1 ++ rest).
Proof.
  intros Hs Hex. unfold unguarded_linear_insert.
  rewrite (list_lookup_middle l1 _ x (length l1) eq_refl). simpl.
  apply (unguarded_linear_insert_loop_spec l1 x [] rest x Hs Hex).
Qed.

(** ** [__insertion_sort] from the front *)

Lemma insertion_sort_loop_spec n : forall l1 l2 rest,
  l1 <> [] -> length l2 = n ->
  StronglySorted (notafter comp) l1 ->
  insertion_sort_loop comp n (l1 ++ l2 ++ rest) 0 (length l1)
  = Some (fold_left (fun acc x => (ins comp) x acc) l2 l1 ++ rest).
Proof.
  induction n as [|n IH]; intros l1 l2 rest Hne Hlen Hs.
  - destruct l2; [reflexivity|discriminate].
  - destruct l2 as [|x l2]; [discriminate|]. injection Hlen as Hlen.
    assert (Hf : exists f l1', l1 = f :: l1').
    { destruct l1 as [|f l1']; [congruence|]. now exists f, l1'. }
    destruct Hf as (f & l1' & El1).
    cbn [insertion_sort_loop fold_left].
    change ((x :: l2) ++ rest) with (x :: l2 ++ rest).
    rewrite (list_lookup_middle l1 _ x (length l1) eq_refl).
    assert (H0 : (l1 ++ x :: l2 ++ rest) !! 0 = Some f) by now rewrite El1.
    rewrite H0. cbn [mbind option_bind].
    assert (Hstep : (if comp x f then Some (move_backward_put (l1 ++ x :: l2 ++ rest) 0 (length l1) x)
                     else unguarded_linear_insert comp (l1 ++ x :: l2 ++ rest) (length l1))
                    = Some ((ins comp) x l1 ++ l2 ++ rest)).
    { destruct (comp x f) eqn:Hxf.
      - f_equal. unfold move_backward_put. rewrite Nat.sub_0_r, take_0, drop_0.
        rewrite take_app_length. simpl.
        rewrite drop_app_ge by lia.
        replace (S (length l1) - length l1) with 1 by lia.
        rewrite El1. simpl. now rewrite Hxf.
      - apply unguarded_linear_insert_spec; [assumption|].
        exists f. split; [rewrite El1; left|exact Hxf]. }
    rewrite Hstep. cbn [mbind option_bind].
    replace (S (length l1)) with (length ((ins comp) x l1)) by apply ins_length.
    apply IH; [|assumption|now apply ins_sorted].
    intros Heq. apply (f_equal length) in Heq. rewrite ins_length in Heq. discriminate.
Qed.

Lemma stable_sort_cons x l :
  (stable_sort comp) (x :: l) = fold_left (fun acc y => (ins comp) y acc) l [x].
Proof. reflexivity. Qed.

Lemma fold_ins_app l1 l2 :
  fold_left (fun acc x => (ins comp) x acc) l2 ((stable_sort comp) l1) = (stable_sort comp) (l1 ++ l2).
Proof. unfold stable_sort. now rewrite fold_left_app. Qed.

Lemma insertion_sort_spec w rest :
  insertion_sort comp (w ++ rest) 0 (length w) = Some ((stable_sort comp) w ++ rest).
Proof.
  unfold insertion_sort. destruct w as [|x w]; [reflexivity|].
  rewrite decide_False by (simpl; lia).
  replace (length (x :: w) - (0 + 1)) with (length w) by (simpl; lia).
  change ((x :: w) ++ rest) with ([x] ++ w ++ rest).
  change (0 + 1) with (length [x]).
  rewrite (insertion_sort_loop_spec (length w) [x] w rest); [reflexivity|discriminate|reflexivity|].
  repeat constructor.
Qed.

(** ** [__unguarded_insertion_sort] behind a sorted front *)

Lemma unguarded_insertion_sort_spec n : forall l1 l2,
  length l2 = n ->
  (forall i x, l2 !! i = Some x -> exists y, y ∈ l1 ++ take i l2 /\ (notafter comp) y x) ->
  unguarded_insertion_sort comp n ((stable_sort comp) l1 ++ l2) (length l1)
  = Some ((stable_sort comp) (l1 ++ l2)).
Proof.
  induction n as [|n IH]; intros l1 l2 Hlen Hg.
  - destruct l2; [|discriminate]. simpl. now rewrite !app_nil_r.
  - destruct l2 as [|x l2]; [discriminate|]. injection Hlen as Hlen.
    cbn [unguarded_insertion_sort].
    replace (length l1) with (length ((stable_sort comp) l1)) at 1
      by (symmetry; apply Permutation_length, stable_sort_perm).
    rewrite unguarded_linear_insert_spec.
    + cbn [mbind option_bind]. rewrite <- stable_sort_snoc.
      replace (S (length l1)) with (length (l1 ++ [x])) by (rewrite length_app; simpl; lia).
      rewrite IH; [now rewrite <- List.app_assoc|assumption|].
      intros i z Hz. destruct (Hg (S i) z Hz) as (y & Hy & Hle).
      exists y. split; [|assumption]. simpl in Hy. now rewrite <- List.app_assoc.
    + apply stable_sort_sorted.
    + destruct (Hg 0 x eq_refl) as (y & Hy & Hle). exists y. split; [|assumption].
      simpl in Hy. rewrite app_nil_r in Hy.
      apply list_elem_of_In. apply (Permutation_in _ (stable_sort_perm l1)). now apply list_elem_of_In.
Qed.

Lemma final_insertion_sort_spec v :
  (guarded comp) 16 v ->
  final_insertion_sort comp v 0 (length v) = Some ((stable_sort comp) v).
Proof.
  intros Hg. unfold final_insertion_sort.
  destruct (decide (16 < length v - 0)) as [Hlt|Hle].
  - rewrite <- (take_drop 16 v) at 1.
    replace (0 + 16) with (length (take 16 v)) by (rewrite length_take; lia).
    rewrite insertion_sort_spec. cbn [mbind option_bind].
    rewrite (unguarded_insertion_sort_spec _ (take 16 v) (drop 16 v)).
    + now rewrite take_drop.
    + rewrite length_drop, length_take. lia.
    + intros i x Hx. rewrite lookup_drop in Hx.
      destruct (Hg (16 + i) x ltac:(lia) Hx) as (j & y & Hj & Hy & Hle).
      exists y. split; [|assumption].
      replace (take 16 v ++ take i (drop 16 v)) with (take (16 + i) v).
      * apply list_elem_of_lookup. exists j. rewrite lookup_take_lt by lia. assumption.
      * symmetry. apply take_take_drop.
  - replace (length v) with (length v) by reflexivity.
    pose proof (insertion_sort_spec v []) as H. rewrite !app_nil_r in H. exact H.
Qed.

(** ** [__unguarded_partition] *)

Lemma scan_up_spec (v : list A) pivot p u : forall fuel first,
  v !! pivot = Some p ->
  first <= u -> (exists x, v !! u = Some x /\ comp x p = false) ->
  u - first < fuel ->
  exists f1, scan_up comp fuel v first pivot = Some f1 /\ first <= f1 <= u /\
    (forall i x, first <= i < f1 -> v !! i = Some x -> comp x p = true) /\
    (exists x, v !! f1 = Some x /\ comp x p = false).
Proof.
  induction fuel as [|fuel IH]; intros first Hp Hu Hex Hf; [lia|].
  cbn [scan_up]. rewrite Hp.
  assert (Hlt : first < length v).
  { destruct Hex as (x & Hx & _). apply lookup_lt_Some in Hx. lia. }
  destruct (lookup_lt_is_Some_2 v first Hlt) as [x Hx]. rewrite Hx.
  cbn [mbind option_bind]. destruct (comp x p) eqn:Hc.
  - assert (first <> u).
    { intros ->. destruct Hex as (x' & Hx' & Hc'). congruence. }
    destruct (IH (S first) Hp ltac:(lia) Hex ltac:(lia)) as (f1 & E & Hr & Hall & Hst).
    exists f1. split; [assumption|]. split; [lia|]. split; [|assumption].
    intros i y Hi Hy. destruct (decide (i = first)) as [->|]; [congruence|].
    apply (Hall i y); [lia|assumption].
  - exists first. split; [reflexivity|]. split; [lia|]. split; [intros; lia|].
    now exists x.
Qed.

Lemma scan_down_spec (v : list A) pivot p d last :
  v !! pivot = Some p ->
  d <= last -> last < length v -> (exists x, v !! d = Some x /\ comp p x = false) ->
  exists l1, scan_down comp v last pivot = Some l1 /\ d <= l1 <= last /\
    (forall i x, l1 < i <= last -> v !! i = Some x -> comp p x = true) /\
    (exists x, v !! l1 = Some x /\ comp p x = false).
Proof.
  induction last as [|last IH]; intros Hp Hd Hlt Hex.
  - assert (d = 0) as -> by lia. destruct Hex as (x & Hx & Hc).
    cbn [scan_down]. rewrite Hx, Hp. cbn [mbind option_bind]. rewrite Hc.
    exists 0. split; [reflexivity|]. split; [lia|]. split; [intros; lia|]. now exists x.
  - cbn [scan_down]. rewrite Hp.
    destruct (lookup_lt_is_Some_2 v (S last) Hlt) as [x Hx]. rewrite Hx.
    cbn [mbind option_bind]. destruct (comp p x) eqn:Hc.
    + assert (d <> S last).
      { intros ->. destruct Hex as (x' & Hx' & Hc'). congruence. }
      destruct (IH Hp ltac:(lia) ltac:(lia) Hex) as (l1 & E & Hr & Hall & Hst).
      exists l1. split; [assumption|]. split; [lia|]. split; [|assumption].
      intros i y Hi Hy. destruct (decide (i = S last)) as [->|]; [congruence|].
      apply (Hall i y); [lia|assumption].
    + exists (S last). split; [reflexivity|]. split; [lia|]. split; [intros; lia|].
      now exists x.
Qed.

(** The loop of [__unguarded_partition] on the positions [lo], ...,
    [hi - 1], with the pivot in front of them. *)
Lemma unguarded_partition_spec lo hi pivot p : forall fuel (v : list A) first last,
  pivot < lo -> lo <= first -> last <= hi -> hi <= length v ->
  pivot < last ->
  v !! pivot = Some p ->
  (exists u x, first <= u < hi /\ v !! u = Some x /\ comp x p = false) ->
  (forall i x, lo <= i < first -> v !! i = Some x -> comp p x = false) ->
  (forall i x, last <= i < hi -> v !! i = Some x -> comp x p = false) ->
  hi - first < fuel ->
  exists v' cut, unguarded_partition comp fuel v first last pivot = Some (v', cut) /\
    lo <= cut < hi /\ rearranges lo hi v v' /\
    (forall i x, lo <= i < cut -> v' !! i = Some x -> comp p x = false) /\
    (forall i x, cut <= i < hi -> v' !! i = Some x -> comp x p = false).
Proof.
  induction fuel as [|fuel IH]; intros v first last Hpl Hlf Hlh Hhl Hpv Hp HU HL HR Hf; [lia|].
  cbn [unguarded_partition].
  destruct HU as (u & xu & Hu & Hxu & Hcu).
  destruct (scan_up_spec v pivot p u (length v) first Hp ltac:(lia)
              (ex_intro _ xu (conj Hxu Hcu)) ltac:(lia))
    as (f1 & E1 & Hf1 & Hup & (xf & Hxf & Hcf)).
  rewrite E1. cbn [mbind option_bind].
  destruct last as [|last0]; [lia|].
  destruct (scan_down_spec v pivot p pivot last0 Hp ltac:(lia) ltac:(lia)
              (ex_intro _ p (conj Hp (comp_irrefl p))))
    as (l1 & E2 & Hl1 & Hdown & (xl & Hxl & Hcl)).
  rewrite E2. cbn [mbind option_bind].
  destruct (decide (f1 < l1)) as [Hlt|Hge].
  - destruct (iter_swap_rearranges lo hi v f1 l1 ltac:(lia) ltac:(lia) Hhl)
      as (x & y & Hx & Hy & Es & Hre).
    rewrite Es. cbn [mbind option_bind].
    assert (x = xf) as -> by congruence. assert (y = xl) as -> by congruence.
    set (v1 := <[l1 := xf]> (<[f1 := xl]> v)) in *.
    assert (Hlen1 : length v1 = length v) by (unfold v1; now rewrite !length_insert).
    assert (Hv1l : v1 !! l1 = Some xf).
    { unfold v1. apply list_lookup_insert_eq. rewrite length_insert. lia. }
    assert (Hv1f : v1 !! f1 = Some xl).
    { unfold v1. rewrite list_lookup_insert_ne by lia.
      apply list_lookup_insert_eq. lia. }
    assert (Hv1o : forall i, i <> f1 -> i <> l1 -> v1 !! i = v !! i).
    { intros i H1 H2. unfold v1. now rewrite !list_lookup_insert_ne by lia. }
    destruct (IH v1 (S f1) l1) as (v' & cut & E & Hcut & Hre' & HL' & HR');
      try lia.
    + rewrite Hv1o by lia. assumption.
    + exists l1, xf. split; [lia|]. split; assumption.
    + intros i z Hi Hz. destruct (decide (i = f1)) as [->|Hne].
      * congruence.
      * rewrite Hv1o in Hz by lia.
        destruct (decide (i < first)); [now apply (HL i z); [lia|]|].
        apply before_notafter. apply (Hup i z); [lia|assumption].
    + intros i z Hi Hz. destruct (decide (i = l1)) as [->|Hne].
      * congruence.
      * rewrite Hv1o in Hz by lia.
        destruct (decide (S last0 <= i)); [now apply (HR i z); [lia|]|].
        apply before_notafter. apply (Hdown i z); [lia|assumption].
    + exists v', cut. split; [assumption|]. split; [lia|].
      split; [now apply rearranges_trans with v1|]. split; assumption.
  - exists v, f1. split; [reflexivity|]. split; [lia|]. split; [apply rearranges_refl|].
    split.
    + intros i z Hi Hz. destruct (decide (i < first)); [now apply (HL i z); [lia|]|].
      apply before_notafter. apply (Hup i z); [lia|assumption].
    + intros i z Hi Hz.
      destruct (decide (i = f1)) as [->|Hne]; [congruence|].
      destruct (decide (S last0 <= i)); [now apply (HR i z); [lia|]|].
      apply before_notafter. apply (Hdown i z); [lia|assumption].
Qed.


Lemma comp_asym x y : comp x y = true -> comp y x = false.
Proof. apply before_notafter. Qed.

Lemma move_median_to_first_spec (v : list A) result a b c hi :
  result < a -> a < b -> b < c -> c < hi -> hi <= length v ->
  exists v1 p, move_median_to_first comp v result a b c = Some v1 /\
    rearranges result hi v v1 /\ v1 !! result = Some p /\
    exists u x, a <= u < hi /\ v1 !! u = Some x /\ comp x p = false.
Proof.
  intros H1 H2 H3 H4 H5. unfold move_median_to_first.
  destruct (lookup_lt_is_Some_2 v a ltac:(lia)) as [xa Ha].
  destruct (lookup_lt_is_Some_2 v b ltac:(lia)) as [xb Hb].
  destruct (lookup_lt_is_Some_2 v c ltac:(lia)) as [xc Hc].
  rewrite Ha, Hb, Hc. cbn [mbind option_bind].
  assert (Hsw : forall m u xm xu, v !! m = Some xm -> v !! u = Some xu ->
            result < m < hi -> a <= u < hi -> u <> m -> comp xu xm = false ->
            exists v1 p, iter_swap v result m = Some v1 /\
              rearranges result hi v v1 /\ v1 !! result = Some p /\
              exists u x, a <= u < hi /\ v1 !! u = Some x /\ comp x p = false).
  { intros m u xm xu Hm Hu Hmr Hur Hne Hcmp.
    destruct (iter_swap_rearranges result hi v result m ltac:(lia) ltac:(lia) H5)
      as (x & y & Hx & Hy & Es & Hre).
    assert (y = xm) as -> by congruence.
    eexists _, xm. split; [exact Es|]. split; [exact Hre|]. split.
    - rewrite list_lookup_insert_ne by lia. apply list_lookup_insert_eq.
      apply lookup_lt_Some in Hx. assumption.
    - exists u, xu. split; [lia|]. split; [|assumption].
      rewrite !list_lookup_insert_ne by lia. assumption. }
  destruct (comp xa xb) eqn:Hab; [destruct (comp xb xc) eqn:Hbc;
    [|destruct (comp xa xc) eqn:Hac]|destruct (comp xa xc) eqn:Hac;
    [|destruct (comp xb xc) eqn:Hbc]].
  - apply (Hsw b c xb xc); try assumption; try lia. now apply comp_asym.
  - apply (Hsw c b xc xb); try assumption; lia.
  - apply (Hsw a b xa xb); try assumption; try lia. now apply comp_asym.
  - apply (Hsw a c xa xc); try assumption; try lia. now apply comp_asym.
  - apply (Hsw c a xc xa); try assumption; lia.
  - apply (Hsw b a xb xa); try assumption; lia.
Qed.

(** One partitioning step of introsort: the range splits into a front
    and a back part, both non-empty... every element of the front not
    after any element of the back. *)
Lemma unguarded_partition_pivot_spec (v : list A) first last :
  16 < last - first -> last <= length v ->
  exists v' cut, unguarded_partition_pivot comp v first last = Some (v', cut) /\
    first < cut < last /\ rearranges first last v v' /\
    (forall x y, x ∈ sub first cut v' -> y ∈ sub cut last v' -> (notafter comp) x y).
Proof.
  intros Hsz Hlen. unfold unguarded_partition_pivot.
  assert (Hdiv : 8 <= (last - first) / 2 /\ 2 * ((last - first) / 2) <= last - first).
  { split; [apply Nat.div_le_lower_bound; lia|apply Nat.Div0.mul_div_le]. }
  destruct (move_median_to_first_spec v first (first + 1) (first + (last - first) / 2)
              (last - 1) last) as (v1 & p & E1 & Hre1 & Hp & HU); try lia.
  rewrite E1. cbn [mbind option_bind].
  pose proof (rearranges_length _ _ _ _ Hre1) as Hlen1.
  destruct (unguarded_partition_spec (first + 1) last first p (length v) v1 (first + 1) last)
    as (v' & cut & E & Hcut & Hre & HL & HR); try lia; try assumption.
  exists v', cut. split; [assumption|]. split; [lia|]. split.
  - apply rearranges_trans with v1; [assumption|].
    apply rearranges_widen with (first + 1) last; [lia|lia|assumption].
  - intros x y Hx Hy. apply elem_of_sub in Hx, Hy.
    destruct Hx as (i & Hi & Hx), Hy as (j & Hj & Hy).
    assert (Hpy : comp y p = false) by (apply (HR j y); [lia|assumption]).
    destruct (decide (i = first)) as [->|Hne].
    + destruct Hre as [_ Ag]. rewrite Ag in Hx by lia.
      assert (x = p) as -> by congruence. exact Hpy.
    + unfold notafter. apply comp_ntrans with p; [assumption|].
      apply (HL i x); [lia|assumption].
Qed.

(** ** The heap of [__partial_sort] *)

Lemma desc_le p h : desc p h -> p <= h.
Proof. induction 1; [lia|]. divs. lia. Qed.

Lemma desc_parent p h : desc p h -> h <> p -> 1 <= h /\ desc p ((h - 1) / 2).
Proof. intros H Hne. inversion H; subst; [congruence|now split]. Qed.

Lemma hp_mono first len p q v : p <= q -> (hp comp) first len p v -> (hp comp) first len q v.
Proof. intros Hpq H i x y H1 H2 H3. apply H; lia. Qed.

Lemma hole_move (v : list A) (w : A -> list A) a b c :
  (forall x, <[a := x]> v ≡ₚ w x) -> v !! b = Some c -> a <> b -> a < length v ->
  forall x, <[b := x]> (<[a := c]> v) ≡ₚ w x.
Proof.
  intros Hw Hb Hne Ha x. rewrite <- (Hw x).
  rewrite <- (list_insert_insert_eq v a c x).
  apply Permutation_insert_swap.
  - apply list_lookup_insert_eq. assumption.
  - rewrite list_lookup_insert_ne by assumption. assumption.
Qed.

Lemma hole_down first len p (v : list A) h c xc :
  first + len <= length v -> p <= h -> c < len -> 1 <= c -> (c - 1) / 2 = h ->
  v !! (first + c) = Some xc ->
  (forall i x, 1 <= i -> i < len -> (i - 1) / 2 = h -> v !! (first + i) = Some x -> (notafter comp) x xc) ->
  (hp comp) first len (p + 1) v -> (h <> p -> (hp comp) first len p v) ->
  (hp comp) first len p (<[first + h := xc]> v).
Proof.
  intros Hlen Hph Hc Hc1 Hpc Hxc Hmax H1 H2 i x y Hi1 Hi2 Hi3 Hx Hy.
  apply list_lookup_insert_Some in Hx, Hy.
  destruct Hx as [(Ex & <- & _)|(Nx & Hx)], Hy as [(Ey & <- & _)|(Ny & Hy)].
  - apply notafter_refl.
  - assert (i = h) as -> by lia. assert (Hne : h <> p) by (divs; lia).
    destruct (lookup_lt_is_Some_2 v (first + h) ltac:(divs; lia)) as [xh Hxh].
    apply notafter_trans with xh.
    + apply (H2 Hne c xc xh); try assumption; try lia. now rewrite Hpc.
    + apply (H2 Hne h xh y); try assumption; lia.
  - apply (Hmax i x); try assumption; lia.
  - destruct (decide (h = p)) as [->|Hne].
    + apply (H1 i x y); try assumption; lia.
    + apply (H2 Hne i x y); assumption.
Qed.

Lemma adjust_heap_down_spec first len p (v0 : list A) : forall fuel (v : list A) h,
  first + len <= length v ->
  h < len -> len <= fuel + h ->
  desc p h ->
  (hp comp) first len (p + 1) v -> (h <> p -> (hp comp) first len p v) ->
  agree_outside first (first + len) v0 v ->
  (forall x, <[first + h := x]> v ≡ₚ <[first + p := x]> v0) ->
  exists v' h', adjust_heap_down comp fuel v first h len h = Some (v', h', h') /\
    h' < len /\ (len - 1) / 2 <= h' /\ desc p h' /\
    length v' = length v /\ (hp comp) first len (p + 1) v' /\ (h' <> p -> (hp comp) first len p v') /\
    agree_outside first (first + len) v0 v' /\
    (forall x, <[first + h' := x]> v' ≡ₚ <[first + p := x]> v0).
Proof.
  induction fuel as [|fuel IH]; intros v h Hlen Hh Hf Hd H1 H2 Ag Hperm; [lia|].
  cbn [adjust_heap_down].
  destruct (decide (h < (len - 1) / 2)) as [Hlt|Hge].
  - assert (Hr : 2 * (h + 1) < len) by (divs; lia).
    destruct (lookup_lt_is_Some_2 v (first + 2 * (h + 1)) ltac:(lia)) as [r Er].
    destruct (lookup_lt_is_Some_2 v (first + (2 * (h + 1) - 1)) ltac:(lia)) as [l El].
    rewrite Er, El. cbn [mbind option_bind].
    set (c := if comp r l then 2 * (h + 1) - 1 else 2 * (h + 1)).
    assert (Hc : c = 2 * h + 1 \/ c = 2 * h + 2) by (unfold c; destruct (comp r l); lia).
    destruct (lookup_lt_is_Some_2 v (first + c) ltac:(lia)) as [xc Ec].
    rewrite Ec. cbn [mbind option_bind].
    pose proof (desc_le _ _ Hd) as Hph.
    assert (Hmax : forall i x, 1 <= i -> i < len -> (i - 1) / 2 = h ->
              v !! (first + i) = Some x -> (notafter comp) x xc).
    { intros i x Hi1 Hi2 Hi3 Hx.
      assert (Hi : i = 2 * (h + 1) - 1 \/ i = 2 * (h + 1)) by (divs; lia).
      unfold c in Ec. destruct (comp r l) eqn:Hrl.
      - assert (xc = l) as -> by congruence.
        destruct Hi as [->| ->].
        + assert (x = l) as -> by congruence. apply notafter_refl.
        + assert (x = r) as -> by congruence. now apply before_notafter.
      - assert (xc = r) as -> by congruence.
        destruct Hi as [->| ->].
        + assert (x = l) as -> by congruence. exact Hrl.
        + assert (x = r) as -> by congruence. apply notafter_refl. }
    assert (Hhp : (hp comp) first len p (<[first + h := xc]> v)).
    { apply hole_down with c; try assumption; try lia. divs; lia. }
    destruct (IH (<[first + h := xc]> v) c) as (v' & h' & E & R);
      try (rewrite ?length_insert; lia).
    + apply desc_child; [lia|]. replace ((c - 1) / 2) with h by (divs; lia). assumption.
    + apply hp_mono with p; [lia|assumption].
    + intros _. assumption.
    + intros i Hi. rewrite list_lookup_insert_ne by lia. now apply Ag.
    + apply hole_move; try assumption; lia.
    + exists v', h'. split; [exact E|]. rewrite length_insert in R. exact R.
  - exists v, h. split; [reflexivity|]. repeat split; try assumption; lia.
Qed.

Lemma hole_up first len p (v : list A) h pv :
  first + len <= length v -> 1 <= h -> h < len -> p <= (h - 1) / 2 ->
  v !! (first + (h - 1) / 2) = Some pv ->
  (hp comp) first len p v ->
  (hp comp) first len p (<[first + h := pv]> v).
Proof.
  intros Hlen Hh1 Hh2 Hph Hpv H i x y Hi1 Hi2 Hi3 Hx Hy.
  apply list_lookup_insert_Some in Hx, Hy.
  destruct Hx as [(Ex & <- & _)|(Nx & Hx)], Hy as [(Ey & <- & _)|(Ny & Hy)].
  - apply notafter_refl.
  - assert (i = h) as -> by lia. assert (y = pv) as -> by congruence. apply notafter_refl.
  - destruct (lookup_lt_is_Some_2 v (first + h) ltac:(lia)) as [xh Hxh].
    apply notafter_trans with xh.
    + apply (H i x xh); try assumption. now replace ((i - 1) / 2) with h by lia.
    + apply (H h xh pv); assumption.
  - apply (H i x y); assumption.
Qed.

Lemma hole_fill first len p (v : list A) h value :
  (hp comp) first len p v ->
  (h = p \/ exists pv, v !! (first + (h - 1) / 2) = Some pv /\ comp pv value = false) ->
  (forall i x, 1 <= i -> i < len -> (i - 1) / 2 = h -> v !! (first + i) = Some x -> (notafter comp) x value) ->
  (hp comp) first len p (<[first + h := value]> v).
Proof.
  intros H Hup Hch i x y Hi1 Hi2 Hi3 Hx Hy.
  apply list_lookup_insert_Some in Hx, Hy.
  destruct Hx as [(Ex & <- & _)|(Nx & Hx)], Hy as [(Ey & <- & _)|(Ny & Hy)].
  - apply notafter_refl.
  - assert (i = h) as -> by lia.
    destruct Hup as [->|(pv & Hpv & Hc)]; [divs; lia|].
    assert (y = pv) as -> by congruence. exact Hc.
  - apply (Hch i x); try assumption. lia.
  - apply (H i x y); assumption.
Qed.

Lemma push_heap_spec first len p (v0 : list A) (w : A -> list A) value :
  forall fuel (v : list A) h,
  first + len <= length v -> h < len -> h < fuel -> desc p h ->
  (hp comp) first len p v ->
  (forall i x, 1 <= i -> i < len -> (i - 1) / 2 = h -> v !! (first + i) = Some x -> (notafter comp) x value) ->
  agree_outside first (first + len) v0 v ->
  (forall x, <[first + h := x]> v ≡ₚ w x) ->
  exists v', push_heap comp fuel v first h p value = Some v' /\
    (hp comp) first len p v' /\ agree_outside first (first + len) v0 v' /\ v' ≡ₚ w value.
Proof.
  induction fuel as [|fuel IH]; intros v h Hlen Hh Hf Hd H Hch Ag Hperm; [lia|].
  cbn [push_heap].
  assert (Hag : forall x, agree_outside first (first + len) v0 (<[first + h := x]> v)).
  { intros x i Hi. rewrite list_lookup_insert_ne by lia. now apply Ag. }
  destruct (decide (p < h)) as [Hlt|Hge].
  - destruct (desc_parent p h Hd ltac:(lia)) as [Hh1 Hdp].
    pose proof (desc_le _ _ Hdp) as Hpp.
    destruct (lookup_lt_is_Some_2 v (first + (h - 1) / 2) ltac:(divs; lia)) as [pv Hpv].
    rewrite Hpv. cbn [mbind option_bind].
    destruct (comp pv value) eqn:Hc.
    + destruct (IH (<[first + h := pv]> v) ((h - 1) / 2)) as (v' & E & R);
        try (rewrite ?length_insert; divs; lia); try assumption.
      * now apply hole_up.
      * intros i x Hi1 Hi2 Hi3 Hx.
        apply list_lookup_insert_Some in Hx.
        destruct Hx as [(Ex & <- & _)|(Nx & Hx)]; [now apply before_notafter|].
        apply notafter_trans with pv; [|now apply before_notafter].
        apply (H i x pv); try assumption; try lia. now rewrite Hi3.
      * apply Hag.
      * apply hole_move; try assumption; divs; lia.
      * exists v'. split; [exact E|exact R].
    + exists (<[first + h := value]> v). split; [reflexivity|]. split; [|split].
      * apply hole_fill; try assumption. right. now exists pv.
      * apply Hag.
      * apply Hperm.
  - exists (<[first + h := value]> v). split; [reflexivity|]. split; [|split].
    + apply hole_fill; try assumption. left. pose proof (desc_le _ _ Hd). lia.
    + apply Hag.
    + apply Hperm.
Qed.

(** [__adjust_heap]: the value sinks in from node [p]. *)
Lemma adjust_heap_spec first len p (v0 : list A) value :
  first + len <= length v0 -> p < len -> (hp comp) first len (p + 1) v0 ->
  exists v', adjust_heap comp v0 first p len value = Some v' /\
    (hp comp) first len p v' /\ agree_outside first (first + len) v0 v' /\
    v' ≡ₚ <[first + p := value]> v0.
Proof.
  intros Hlen Hp H. unfold adjust_heap.
  destruct (adjust_heap_down_spec first len p v0 len v0 p) as
    (v1 & h1 & E1 & Hh1 & Hleaf & Hd1 & Hlen1 & H1 & H1' & Ag1 & Hperm1);
    try assumption; try lia; try constructor; try easy.
  rewrite E1. cbn [mbind option_bind].
  destruct (decide (len mod 2 = 0 /\ h1 = (len - 2) / 2)) as [[Hev Hh]|Hne].
  - assert (Hc : 2 * (h1 + 1) - 1 = len - 1 /\ 2 <= len + 0) by (divs; lia).
    destruct Hc as [Hc Hl2].
    destruct (lookup_lt_is_Some_2 v1 (first + (2 * (h1 + 1) - 1)) ltac:(lia)) as [c Ec].
    rewrite Ec. cbn [mbind option_bind].
    pose proof (desc_le _ _ Hd1) as Hph.
    apply (push_heap_spec first len p v0 (fun x => <[first + p := x]> v0) value);
      try (rewrite ?length_insert; lia).
    + apply desc_child; [lia|]. replace (((2 * (h1 + 1) - 1 - 1) / 2)) with h1 by (divs; lia).
      assumption.
    + apply hole_down with (2 * (h1 + 1) - 1); try assumption; try lia.
      * divs; lia.
      * intros i x Hi1 Hi2 Hi3 Hx. assert (i = 2 * (h1 + 1) - 1) as -> by (divs; lia).
        assert (x = c) as -> by congruence. apply notafter_refl.
    + intros i x Hi1 Hi2 Hi3 Hx. divs; lia.
    + intros i Hi. rewrite list_lookup_insert_ne by lia. now apply Ag1.
    + apply hole_move; try assumption; lia.
  - apply (push_heap_spec first len p v0 (fun x => <[first + p := x]> v0) value);
      try assumption; try lia.
    + destruct (decide (h1 = p)) as [->|Hnp]; [|now apply H1'].
      intros i x y Hi1 Hi2 Hi3. destruct (decide ((i - 1) / 2 = p)) as [Hip|Hip].
      * divs; lia.
      * apply H1; lia.
    + intros i x Hi1 Hi2 Hi3 Hx. divs; lia.
Qed.

Lemma make_heap_loop_spec first len : forall k (v : list A),
  first + len <= length v -> k < len -> (hp comp) first len (k + 1) v ->
  exists v', make_heap_loop comp v first len k = Some v' /\
    (hp comp) first len 0 v' /\ rearranges first (first + len) v v'.
Proof.
  induction k as [|k IH]; intros v Hlen Hk H; cbn [make_heap_loop];
    match goal with |- context [v !! ?i] =>
      destruct (lookup_lt_is_Some_2 v i ltac:(lia)) as [value Hv] end; rewrite Hv;
    cbn [mbind option_bind];
    destruct (adjust_heap_spec first len _ v value Hlen Hk H)
      as (v1 & E & H1 & Ag & P); rewrite E; cbn [mbind option_bind];
    rewrite (list_insert_id _ _ _ Hv) in P.
  - exists v1. split; [reflexivity|]. split; [assumption|]. split; [now symmetry|assumption].
  - destruct (IH v1) as (v' & E' & H' & R').
    + rewrite (Permutation_length P). assumption.
    + lia.
    + now replace (k + 1) with (S k) by lia.
    + exists v'. split; [assumption|]. split; [assumption|].
      apply rearranges_trans with v1; [|assumption]. split; [now symmetry|assumption].
Qed.

Lemma make_heap_spec (v : list A) first last :
  first <= last -> last <= length v ->
  exists v', make_heap comp v first last = Some v' /\
    (hp comp) first (last - first) 0 v' /\ rearranges first last v v'.
Proof.
  intros H1 H2. unfold make_heap. destruct (decide (last - first < 2)) as [Hs|Hs].
  - exists v. split; [reflexivity|]. split; [|apply rearranges_refl].
    intros i x y Hi1 Hi2. lia.
  - destruct (make_heap_loop_spec first (last - first) ((last - first - 2) / 2) v)
      as (v' & E & H & R); try lia.
    + divs; lia.
    + intros i x y Hi1 Hi2 Hi3. divs; lia.
    + exists v'. split; [assumption|]. split; [assumption|].
      now replace (first + (last - first)) with last in R by lia.
Qed.

Lemma heap_max first n (v : list A) t :
  (hp comp) first n 0 v -> first + n <= length v -> v !! first = Some t ->
  forall j x, j < n -> v !! (first + j) = Some x -> (notafter comp) x t.
Proof.
  intros H Hlen Ht j. induction j as [j IH] using lt_wf_ind. intros x Hj Hx.
  destruct (decide (j = 0)) as [->|Hne].
  - rewrite Nat.add_0_r in Hx. assert (x = t) as -> by congruence. apply notafter_refl.
  - destruct (lookup_lt_is_Some_2 v (first + (j - 1) / 2) ltac:(divs; lia)) as [y Hy].
    apply notafter_trans with y.
    + apply (H j x y); try assumption; lia.
    + apply (IH ((j - 1) / 2)); try assumption; divs; lia.
Qed.

Lemma sort_heap_spec first L : forall n (v : list A),
  n <= L -> first + L <= length v ->
  (hp comp) first n 0 v ->
  (forall i x y, n <= i -> S i < L ->
     v !! (first + i) = Some x -> v !! (first + S i) = Some y -> (notafter comp) x y) ->
  (forall i x y, i < n -> n < L ->
     v !! (first + i) = Some x -> v !! (first + n) = Some y -> (notafter comp) x y) ->
  exists v', sort_heap comp v first n = Some v' /\
    rearranges first (first + n) v v' /\
    (forall i x y, S i < L ->
       v' !! (first + i) = Some x -> v' !! (first + S i) = Some y -> (notafter comp) x y).
Proof.
  induction n as [|n IH]; intros v Hn Hlen H Htail Hbound.
  - exists v. split; [reflexivity|]. split; [apply rearranges_refl|].
    intros i x y Hi. apply Htail; lia.
  - cbn [sort_heap]. destruct (decide (1 < S n)) as [Hn2|Hn1].
    + unfold pop_heap.
      destruct (lookup_lt_is_Some_2 v (first + n) ltac:(lia)) as [value Hv].
      destruct (lookup_lt_is_Some_2 v first ltac:(lia)) as [top Ht].
      rewrite Hv, Ht. cbn [mbind option_bind].
      replace (first + n - first) with n by lia.
      set (va := <[first + n := top]> v).
      assert (Hlena : length va = length v) by apply length_insert.
      destruct (adjust_heap_spec first n 0 va value) as (v1 & E & H1 & Ag & P);
        try lia.
      { intros i x y Hi1 Hi2 Hi3 Hx Hy. unfold va in Hx, Hy.
        rewrite list_lookup_insert_ne in Hx, Hy by (divs; lia).
        apply (H i x y); try assumption; lia. }
      rewrite E. cbn [mbind option_bind].
      assert (Hre : rearranges first (first + S n) v v1).
      { split.
        - rewrite P. rewrite Nat.add_0_r. unfold va. symmetry.
          now apply Permutation_insert_swap.
        - intros i Hi. rewrite Ag by lia. unfold va.
          now rewrite list_lookup_insert_ne by lia. }
      assert (Hv1n : v1 !! (first + n) = Some top).
      { rewrite Ag by lia. unfold va. apply list_lookup_insert_eq. lia. }
      assert (Hv1o : forall i, n < i -> v1 !! (first + i) = v !! (first + i)).
      { intros i Hi. rewrite Ag by lia. unfold va.
        now rewrite list_lookup_insert_ne by lia. }
      destruct (IH v1) as (v' & E' & R' & S'); try lia.
      * rewrite (rearranges_length _ _ _ _ Hre). lia.
      * assumption.
      * intros i x y Hi1 Hi2 Hx Hy. destruct (decide (i = n)) as [->|Hne].
        -- assert (x = top) as -> by congruence.
           rewrite Hv1o in Hy by lia.
           apply (Hbound 0 top y); try lia; [now rewrite Nat.add_0_r|assumption].
        -- rewrite Hv1o in Hx, Hy by lia. apply (Htail i x y); try assumption; lia.
      * intros i x y Hi1 Hi2 Hx Hy. assert (y = top) as -> by congruence.
        assert (Hin : x ∈ sub first (first + S n) v1).
        { apply elem_of_sub. exists (first + i). split; [lia|assumption]. }
        rewrite <- (rearranges_sub _ _ _ _ Hre ltac:(lia)) in Hin.
        apply elem_of_sub in Hin. destruct Hin as (j & Hj & Hxj).
        apply (heap_max first (S n) v top H ltac:(lia) Ht (j - first)); [lia|].
        now replace (first + (j - first)) with j by lia.
      * exists v'. split; [assumption|]. split; [|assumption].
        apply rearranges_trans with v1; [assumption|].
        apply rearranges_widen with first (first + n); [lia|lia|assumption].
    + exists v. split; [reflexivity|]. split; [apply rearranges_refl|].
      intros i x y Hi Hx Hy. destruct (decide (i = 0)) as [->|Hne].
      * apply (Hbound 0 x y); try assumption; try lia.
        now replace (S n) with 1 by lia.
      * apply (Htail i x y); try assumption; lia.
Qed.

(** [__partial_sort] over a whole range is heap sort: the range comes
    out in ascending order. *)
Lemma partial_sort_spec (v : list A) first last :
  first <= last -> last <= length v ->
  exists v', partial_sort comp v first last = Some v' /\
    rearranges first last v v' /\
    (forall i x y, first <= i -> S i < last ->
       v' !! i = Some x -> v' !! S i = Some y -> (notafter comp) x y).
Proof.
  intros H1 H2. unfold partial_sort.
  destruct (make_heap_spec v first last H1 H2) as (v1 & E1 & Hh & R1).
  rewrite E1. cbn [mbind option_bind].
  destruct (sort_heap_spec first (last - first) (last - first) v1) as (v' & E & R & S');
    try lia; try assumption.
  - rewrite (rearranges_length _ _ _ _ R1). lia.
  - exists v'. split; [assumption|]. split.
    + apply rearranges_trans with v1; [assumption|].
      now replace (first + (last - first)) with last in R by lia.
    + intros i x y Hi1 Hi2 Hx Hy. apply (S' (i - first) x y); [lia| |].
      * now replace (first + (i - first)) with i by lia.
      * now replace (first + S (i - first)) with (S i) by lia.
Qed.

(** ** [__introsort_loop] and [std::sort] *)

Lemma introsort_loop_spec : forall depth (v : list A) first last,
  first <= last -> last <= length v ->
  exists v', introsort_loop comp depth v first last = Some v' /\
    rearranges first last v v' /\ (block_guarded comp) first last v'.
Proof.
  induction depth as [|depth IH]; intros v first last H1 H2; cbn [introsort_loop];
    (destruct (decide (16 < last - first)) as [Hbig|Hsmall];
     [|exists v; split; [reflexivity|]; split; [apply rearranges_refl|];
       intros i x Hi1 Hi2; lia]).
  - destruct (partial_sort_spec v first last H1 H2) as (v' & E & R & S').
    exists v'. split; [assumption|]. split; [assumption|].
    intros i x Hi1 Hi2 Hx.
    destruct (lookup_lt_is_Some_2 v' (i - 1)
                ltac:(apply lookup_lt_Some in Hx; lia)) as [y Hy].
    exists (i - 1), y. split; [lia|]. split; [assumption|].
    apply (S' (i - 1) y x); try assumption; try lia.
    now replace (S (i - 1)) with i by lia.
  - destruct (unguarded_partition_pivot_spec v first last Hbig H2)
      as (v1 & cut & E1 & Hcut & R1 & Hcross).
    rewrite E1. cbn [mbind option_bind].
    pose proof (rearranges_length _ _ _ _ R1) as L1.
    destruct (IH v1 cut last ltac:(lia) ltac:(lia)) as (v2 & E2 & R2 & _).
    rewrite E2. cbn [mbind option_bind].
    pose proof (rearranges_length _ _ _ _ R2) as L2.
    destruct (IH v2 first cut ltac:(lia) ltac:(lia)) as (v3 & E3 & R3 & G3).
    exists v3. split; [assumption|]. split.
    + apply rearranges_trans with v1; [assumption|].
      apply rearranges_trans with v2.
      * apply rearranges_widen with cut last; [lia|lia|assumption].
      * apply rearranges_widen with first cut; [lia|lia|assumption].
    + intros i x Hi1 Hi2 Hx. destruct (decide (i < cut)) as [Hlt|Hge].
      * apply (G3 i x); assumption.
      * destruct (lookup_lt_is_Some_2 v3 first
                    ltac:(apply lookup_lt_Some in Hx; lia)) as [y Hy].
        exists first, y. split; [lia|]. split; [assumption|].
        apply Hcross.
        -- rewrite <- (sub_agree cut last first cut v1 v2 (proj2 R2) ltac:(lia)).
           rewrite (rearranges_sub _ _ _ _ R3 ltac:(lia)).
           apply elem_of_sub. exists first. split; [lia|assumption].
        -- rewrite (rearranges_sub _ _ _ _ R2 ltac:(lia)).
           rewrite <- (sub_agree first cut cut last v2 v3 (proj2 R3) ltac:(lia)).
           apply elem_of_sub. exists i. split; [lia|assumption].
Qed.

(** [std::sort] always returns: it is the stable insertion sort of some
    rearrangement of its input, and of the input itself when that has at
    most 16 elements. *)
Lemma sort_spec (v : list A) :
  exists v1, sort comp v = Some ((stable_sort comp) v1) /\ v ≡ₚ v1 /\
    (length v <= 16 -> v1 = v).
Proof.
  unfold sort. destruct v as [|x v'] eqn:Ev;
    [exists []; split; [reflexivity|split; [reflexivity|intros; reflexivity]]|].
  rewrite <- Ev. clear Ev.
  destruct (introsort_loop_spec (lg (length v) * 2) v 0 (length v) ltac:(lia) ltac:(lia))
    as (v1 & E & R & G).
  rewrite E. cbn [mbind option_bind].
  exists v1. rewrite <- (rearranges_length _ _ _ _ R). split; [|split].
  - apply final_insertion_sort_spec. intros i y Hi Hy.
    assert (Hi' : i < length v).
    { apply lookup_lt_Some in Hy. now rewrite (rearranges_length _ _ _ _ R) in Hy. }
    destruct (G i y ltac:(lia) Hi' Hy) as (j & z & Hj & Hz & Hle).
    exists j, z. split; [lia|]. split; assumption.
  - apply R.
  - intros Hs. pose proof (rearranges_length _ _ _ _ R) as HL.
    destruct (lg (length v) * 2); cbn [introsort_loop] in E;
      rewrite decide_False in E by lia; congruence.
Qed.


End Ordered.

Section Extensionality.
Variable comp' : A -> A -> bool.
Variable U : A -> Prop.
Hypothesis agree : forall x y, U x -> U y -> comp x y = comp' x y.

Lemma same_run_bind {B C : Type} (P : B -> Prop) (Q : C -> Prop)
    (m m' : option B) (k k' : B -> option C) :
  same_run P m m' -> (forall r, P r -> same_run Q (k r) (k' r)) ->
  same_run Q (m ≫= k) (m' ≫= k').
Proof.
  intros [<- Hm] Hk. destruct m as [r|]; [|split; [reflexivity|discriminate]].
  apply Hk, Hm. reflexivity.
Qed.

Lemma same_run_lookup (v : list A) i :
  Forall U v -> same_run U (v !! i) (v !! i).
Proof.
  intros Hv. split; [reflexivity|]. intros r Hr. exact (Forall_lookup_1 _ _ _ _ Hv Hr).
Qed.

Lemma same_run_Some {B : Type} (P : B -> Prop) (r : B) : P r -> same_run P (Some r) (Some r).
Proof. intros H. split; [reflexivity|]. intros r' [= <-]. exact H. Qed.

Lemma same_run_None {B : Type} (P : B -> Prop) : same_run P (@None B) None.
Proof. split; [reflexivity|discriminate]. Qed.

Lemma same_run_weaken {B : Type} (P Q : B -> Prop) m m' :
  (forall r, P r -> Q r) -> same_run P m m' -> same_run Q m m'.
Proof. intros H [E Hm]. split; [assumption|]. intros r Hr. apply H, Hm, Hr. Qed.

Ltac run_lookup Hv :=
  apply (same_run_bind U); [apply same_run_lookup; exact Hv|]; intros ? ?.

Ltac run_if :=
  match goal with
  | |- same_run _ (if comp ?x ?y then _ else _) (if comp' ?x ?y then _ else _) =>
      rewrite <- (agree x y) by assumption; destruct (comp x y)
  | |- same_run _ (if decide ?P then _ else _) (if decide ?P then _ else _) =>
      destruct (decide P)
  end.

Lemma iter_swap_ext (v : list A) a b :
  Forall U v -> same_run (Forall U) (iter_swap v a b) (iter_swap v a b).
Proof.
  intros Hv. unfold iter_swap. run_lookup Hv. run_lookup Hv.
  apply same_run_Some. now repeat apply Forall_insert.
Qed.

Lemma move_median_to_first_ext (v : list A) result a b c :
  Forall U v ->
  same_run (Forall U) (move_median_to_first comp v result a b c)
    (move_median_to_first comp' v result a b c).
Proof.
  intros Hv. unfold move_median_to_first. do 3 run_lookup Hv.
  repeat run_if; now apply iter_swap_ext.
Qed.

Lemma scan_up_ext (v : list A) pivot : forall fuel first,
  Forall U v ->
  same_run (fun _ => True) (scan_up comp fuel v first pivot) (scan_up comp' fuel v first pivot).
Proof.
  induction fuel as [|fuel IH]; intros first Hv; cbn [scan_up]; [apply same_run_None|].
  do 2 run_lookup Hv. run_if; [now apply IH|now apply same_run_Some].
Qed.

Lemma scan_down_ext (v : list A) pivot last :
  Forall U v ->
  same_run (fun _ => True) (scan_down comp v last pivot) (scan_down comp' v last pivot).
Proof.
  intros Hv. induction last as [|last IH]; cbn [scan_down]; do 2 run_lookup Hv; run_if;
    try (now apply same_run_Some); [apply same_run_None|exact IH].
Qed.

Lemma unguarded_partition_ext pivot : forall fuel (v : list A) first last,
  Forall U v ->
  same_run (fun r => Forall U (fst r)) (unguarded_partition comp fuel v first last pivot)
    (unguarded_partition comp' fuel v first last pivot).
Proof.
  induction fuel as [|fuel IH]; intros v first last Hv; cbn [unguarded_partition];
    [apply same_run_None|].
  apply (same_run_bind (fun _ => True)); [now apply scan_up_ext|]. intros first1 _.
  destruct last as [|last0]; [apply same_run_None|].
  apply (same_run_bind (fun _ => True)); [now apply scan_down_ext|]. intros last1 _.
  run_if; [|now apply same_run_Some].
  apply (same_run_bind (Forall U)); [now apply iter_swap_ext|]. intros v1 Hv1.
  now apply IH.
Qed.

Lemma unguarded_partition_pivot_ext (v : list A) first last :
  Forall U v ->
  same_run (fun r => Forall U (fst r)) (unguarded_partition_pivot comp v first last)
    (unguarded_partition_pivot comp' v first last).
Proof.
  intros Hv. unfold unguarded_partition_pivot.
  apply (same_run_bind (Forall U)); [now apply move_median_to_first_ext|]. intros v1 Hv1.
  now apply unguarded_partition_ext.
Qed.

Lemma push_heap_ext first top value : forall fuel (v : list A) hole,
  Forall U v -> U value ->
  same_run (Forall U) (push_heap comp fuel v first hole top value)
    (push_heap comp' fuel v first hole top value).
Proof.
  induction fuel as [|fuel IH]; intros v hole Hv Hval; cbn [push_heap];
    [apply same_run_None|].
  run_if; [|apply same_run_Some; now apply Forall_insert].
  run_lookup Hv. run_if.
  - apply IH; [now apply Forall_insert|assumption].
  - apply same_run_Some. now apply Forall_insert.
Qed.

Lemma adjust_heap_down_ext first len : forall fuel (v : list A) hole sc,
  Forall U v ->
  same_run (fun r => Forall U (fst (fst r))) (adjust_heap_down comp fuel v first hole len sc)
    (adjust_heap_down comp' fuel v first hole len sc).
Proof.
  induction fuel as [|fuel IH]; intros v hole sc Hv; cbn [adjust_heap_down];
    [apply same_run_None|].
  run_if; [|now apply same_run_Some].
  do 2 run_lookup Hv. rewrite <- (agree r r0) by assumption.
  run_lookup Hv. apply IH. now apply Forall_insert.
Qed.

Lemma adjust_heap_ext (v : list A) first hole len value :
  Forall U v -> U value ->
  same_run (Forall U) (adjust_heap comp v first hole len value)
    (adjust_heap comp' v first hole len value).
Proof.
  intros Hv Hval. unfold adjust_heap.
  apply (same_run_bind (fun r => Forall U (fst (fst r)))); [now apply adjust_heap_down_ext|].
  intros [[v1 h1] sc] Hv1. simpl in Hv1.
  apply (same_run_bind (fun r => Forall U (fst r))).
  - run_if; [|now apply same_run_Some]. run_lookup Hv1.
    apply same_run_Some. now apply Forall_insert.
  - intros [v2 h2] Hv2. now apply push_heap_ext.
Qed.

Lemma pop_heap_ext (v : list A) first last result :
  Forall U v ->
  same_run (Forall U) (pop_heap comp v first last result) (pop_heap comp' v first last result).
Proof.
  intros Hv. unfold pop_heap. do 2 run_lookup Hv.
  apply adjust_heap_ext; [now apply Forall_insert|assumption].
Qed.

Lemma make_heap_loop_ext first len : forall k (v : list A),
  Forall U v ->
  same_run (Forall U) (make_heap_loop comp v first len k) (make_heap_loop comp' v first len k).
Proof.
  induction k as [|k IH]; intros v Hv; cbn [make_heap_loop]; run_lookup Hv;
    (apply (same_run_bind (Forall U)); [now apply adjust_heap_ext|]); intros v1 Hv1.
  - now apply same_run_Some.
  - now apply IH.
Qed.

Lemma make_heap_ext (v : list A) first last :
  Forall U v ->
  same_run (Forall U) (make_heap comp v first last) (make_heap comp' v first last).
Proof.
  intros Hv. unfold make_heap. run_if; [now apply same_run_Some|now apply make_heap_loop_ext].
Qed.

Lemma sort_heap_ext first : forall n (v : list A),
  Forall U v ->
  same_run (Forall U) (sort_heap comp v first n) (sort_heap comp' v first n).
Proof.
  induction n as [|n IH]; intros v Hv; cbn [sort_heap]; [now apply same_run_Some|].
  run_if; [|now apply same_run_Some].
  apply (same_run_bind (Forall U)); [now apply pop_heap_ext|]. intros v1 Hv1. now apply IH.
Qed.

Lemma partial_sort_ext (v : list A) first last :
  Forall U v ->
  same_run (Forall U) (partial_sort comp v first last) (partial_sort comp' v first last).
Proof.
  intros Hv. unfold partial_sort.
  apply (same_run_bind (Forall U)); [now apply make_heap_ext|]. intros v1 Hv1.
  now apply sort_heap_ext.
Qed.

Lemma introsort_loop_ext : forall depth (v : list A) first last,
  Forall U v ->
  same_run (Forall U) (introsort_loop comp depth v first last)
    (introsort_loop comp' depth v first last).
Proof.
  induction depth as [|depth IH]; intros v first last Hv; cbn [introsort_loop];
    (run_if; [|now apply same_run_Some]).
  - now apply partial_sort_ext.
  - apply (same_run_bind (fun r => Forall U (fst r)));
      [now apply unguarded_partition_pivot_ext|].
    intros [v1 cut] Hv1. simpl in Hv1.
    apply (same_run_bind (Forall U)); [now apply IH|]. intros v2 Hv2. now apply IH.
Qed.

Lemma unguarded_linear_insert_loop_ext val : forall k (v : list A),
  Forall U v -> U val ->
  same_run (Forall U) (unguarded_linear_insert_loop comp v k val)
    (unguarded_linear_insert_loop comp' v k val).
Proof.
  induction k as [|next IH]; intros v Hv Hval; cbn [unguarded_linear_insert_loop];
    [apply same_run_None|].
  run_lookup Hv. run_if.
  - apply IH; [now apply Forall_insert|assumption].
  - apply same_run_Some. now apply Forall_insert.
Qed.

Lemma unguarded_linear_insert_ext (v : list A) last :
  Forall U v ->
  same_run (Forall U) (unguarded_linear_insert comp v last)
    (unguarded_linear_insert comp' v last).
Proof.
  intros Hv. unfold unguarded_linear_insert. run_lookup Hv.
  now apply unguarded_linear_insert_loop_ext.
Qed.

Lemma move_backward_put_S (v : list A) first i val :
  Forall U v -> U val -> Forall U (move_backward_put v first i val).
Proof.
  intros Hv Hval. unfold move_backward_put.
  apply Forall_app. split; [now apply Forall_take|].
  constructor; [assumption|]. apply Forall_app. split.
  - now apply Forall_take, Forall_drop.
  - now apply Forall_drop.
Qed.

Lemma insertion_sort_loop_ext first : forall n (v : list A) i,
  Forall U v ->
  same_run (Forall U) (insertion_sort_loop comp n v first i)
    (insertion_sort_loop comp' n v first i).
Proof.
  induction n as [|n IH]; intros v i Hv; cbn [insertion_sort_loop];
    [now apply same_run_Some|].
  do 2 run_lookup Hv.
  apply (same_run_bind (Forall U)); [|intros v1 Hv1; now apply IH].
  run_if.
  - apply same_run_Some. now apply move_backward_put_S.
  - now apply unguarded_linear_insert_ext.
Qed.

Lemma insertion_sort_ext (v : list A) first last :
  Forall U v ->
  same_run (Forall U) (insertion_sort comp v first last) (insertion_sort comp' v first last).
Proof.
  intros Hv. unfold insertion_sort.
  run_if; [now apply same_run_Some|now apply insertion_sort_loop_ext].
Qed.

Lemma unguarded_insertion_sort_ext : forall n (v : list A) i,
  Forall U v ->
  same_run (Forall U) (unguarded_insertion_sort comp n v i)
    (unguarded_insertion_sort comp' n v i).
Proof.
  induction n as [|n IH]; intros v i Hv; cbn [unguarded_insertion_sort];
    [now apply same_run_Some|].
  apply (same_run_bind (Forall U)); [now apply unguarded_linear_insert_ext|].
  intros v1 Hv1. now apply IH.
Qed.

Lemma final_insertion_sort_ext (v : list A) first last :
  Forall U v ->
  same_run (Forall U) (final_insertion_sort comp v first last)
    (final_insertion_sort comp' v first last).
Proof.
  intros Hv. unfold final_insertion_sort. run_if; [|now apply insertion_sort_ext].
  apply (same_run_bind (Forall U)); [now apply insertion_sort_ext|].
  intros v1 Hv1. now apply unguarded_insertion_sort_ext.
Qed.

(** The outcome of [std::sort] depends on the comparison only through
    its values on the elements of the input. *)
Lemma sort_ext (v : list A) :
  Forall U v -> sort comp v = sort comp' v.
Proof.
  intros Hv. assert (H : same_run (Forall U) (sort comp v) (sort comp' v)); [|apply H].
  unfold sort. destruct v as [|x v'] eqn:Ev; [now apply same_run_Some|].
  rewrite <- Ev in *. clear Ev.
  apply (same_run_bind (Forall U)); [now apply introsort_loop_ext|].
  intros v1 Hv1. now apply final_insertion_sort_ext.
Qed.

End Extensionality.

End StdSortProperties.

(** ** The comparator of [ProcessDogCollisions] and the sorted events *)

Lemma by_timestamp_irrefl x : by_timestamp x x = false.
Proof. unfold by_timestamp. destruct (Rlt_dec _ _); [lra|reflexivity]. Qed.

Lemma by_timestamp_trans x y z :
  by_timestamp x y = true -> by_timestamp y z = true -> by_timestamp x z = true.
Proof.
  unfold by_timestamp. repeat destruct (Rlt_dec _ _); try discriminate; try reflexivity; lra.
Qed.

Lemma by_timestamp_ntrans x y z :
  by_timestamp x y = false -> by_timestamp y z = false -> by_timestamp x z = false.
Proof.
  unfold by_timestamp. repeat destruct (Rlt_dec _ _); try discriminate; try reflexivity; lra.
Qed.

Lemma std_sort_spec l :
  exists l1, StdSort.sort by_timestamp l = Some (SortSpec.stable_sort by_timestamp l1) /\
             l ≡ₚ l1 /\ ((length l <= 16)%nat -> l1 = l).
Proof.
  apply sort_spec;
    [apply by_timestamp_irrefl|apply by_timestamp_trans|apply by_timestamp_ntrans].
Qed.

Lemma std_sort_returns l : StdSort.sort by_timestamp l = Some (std_sort l).
Proof.
  unfold std_sort. destruct (std_sort_spec l) as (l1 & -> & _). reflexivity.
Qed.

Lemma std_sort_permutation l : Permutation l (std_sort l).
Proof.
  unfold std_sort. destruct (std_sort_spec l) as (l1 & -> & Hp & _).
  rewrite Hp. apply stable_sort_perm.
Qed.

Lemma std_sort_ascending l : ascending (std_sort l).
Proof.
  unfold std_sort. destruct (std_sort_spec l) as (l1 & -> & _).
  pose proof (stable_sort_sorted by_timestamp by_timestamp_irrefl by_timestamp_trans
                by_timestamp_ntrans l1) as Hs.
  unfold ascending. induction Hs as [|a k _ IH Ha]; constructor; [assumption|].
  eapply List.Forall_impl; [|exact Ha]. intros b Hb.
  unfold SortSpec.notafter, by_timestamp in Hb. destruct (Rlt_dec _ _); [discriminate|lra].
Qed.

Lemma std_sort_small l :
  (length l <= 16)%nat -> std_sort l = SortSpec.stable_sort by_timestamp l.
Proof.
  intros Hl. unfold std_sort. destruct (std_sort_spec l) as (l1 & -> & _ & H).
  now rewrite (H Hl).
Qed.

Lemma at_time_before t x y :
  at_time t x = true -> by_timestamp x y = true -> at_time t y = false.
Proof.
  unfold at_time, by_timestamp.
  destruct (Req_dec_T (timestamp x) t); [|discriminate].
  destruct (Rlt_dec _ _); [|discriminate].
  destruct (Req_dec_T (timestamp y) t); [lra|reflexivity].
Qed.

(** Insertion puts an event behind the events of its timestamp. *)
Lemma ins_keeps_ties t x l :
  StronglySorted (SortSpec.notafter by_timestamp) l ->
  List.filter (at_time t) (SortSpec.ins by_timestamp x l)
  = List.filter (at_time t) l ++ List.filter (at_time t) [x].
Proof.
  induction 1 as [|y l Hl IH Hy]; [reflexivity|]. cbn [SortSpec.ins].
  destruct (by_timestamp x y) eqn:Hxy.
  - cbn [List.filter app]. destruct (at_time t x) eqn:Hx; [|now rewrite app_nil_r].
    rewrite (at_time_before t x y Hx Hxy).
    assert (Hnone : List.filter (at_time t) l = []).
    { clear IH Hl. induction Hy as [|z l Hz _ IH]; [reflexivity|]. cbn [List.filter].
      rewrite (at_time_before t x z Hx); [exact IH|].
      unfold SortSpec.notafter, by_timestamp in Hz. unfold by_timestamp in *.
      destruct (Rlt_dec (timestamp x) (timestamp y)); [|discriminate].
      destruct (Rlt_dec (timestamp z) (timestamp y)); [discriminate|].
      destruct (Rlt_dec (timestamp x) (timestamp z)); [reflexivity|lra]. }
    now rewrite Hnone.
  - cbn [List.filter]. rewrite IH. now destruct (at_time t y).
Qed.

Lemma stable_sort_keeps_ties t l :
  List.filter (at_time t) (SortSpec.stable_sort by_timestamp l) = List.filter (at_time t) l.
Proof.
  induction l as [|x l IH] using rev_ind; [reflexivity|].
  rewrite stable_sort_snoc, ins_keeps_ties, IH, List.filter_app; [reflexivity|].
  apply stable_sort_sorted;
    [apply by_timestamp_irrefl|apply by_timestamp_trans|apply by_timestamp_ntrans].
Qed.

(** libstdc++'s [std::sort] on seventeen elements that all tie. *)
Lemma sort_seventeen_ties {A : Type} (x0 x1 x2 x3 x4 x5 x6 x7 x8 x9 x10 x11 x12 x13 x14 x15 x16 : A) :
  StdSort.sort (fun _ _ => false)
    [x0; x1; x2; x3; x4; x5; x6; x7; x8; x9; x10; x11; x12; x13; x14; x15; x16]
  = Some [x8; x16; x15; x14; x13; x12; x11; x10; x9; x0; x7; x6; x5; x4; x3; x2; x1].
Proof. vm_compute. reflexivity. Qed.

(** ** The order in which collision events are applied (claim C2) *)

Lemma loot_events_in_map_order m dog s e :
  omap item_id (loot_events m dog s e) `sublist_of` (loot_id <$> map_loot_items m).
Proof.
  unfold loot_events. induction (map_loot_items m) as [|loot rest IH]; simpl.
  - constructor.
  - destruct (FindCollisionTime s e (loot_position loot) 0.3); simpl.
    + now apply sublist_skip.
    + now apply sublist_cons.
Qed.

Lemma ProcessDogCollisions_run g dog s e i m :
  FindMap g (dog_map_id dog) = Some (i, m) ->
  ProcessDogCollisions g dog s e
  = (set_maps g (<[i := fst (fold_left apply_event (applied_events m dog s e) (m, dog))]>
                   (maps g)),
     snd (fold_left apply_event (applied_events m dog s e) (m, dog))).
Proof.
  intros Hm. unfold ProcessDogCollisions. rewrite Hm.
  now destruct (fold_left apply_event _ (m, dog)).
Qed.

(** C2, as the code has it.  The events of a dog are gathered loot items
    first, in map order, then offices in map order.  [std::sort] returns on
    them, and the events are applied in the order it leaves: a
    rearrangement of the gathered events in which timestamps never
    decrease.  When at most 16 events are gathered, the events of any one
    timestamp are applied in the order in which they were gathered. *)
Theorem events_applied_in_ascending_order
    (m : Map) (dog : Dog) (start_pos end_pos : Position) :
  let gathered := gather_events m dog start_pos end_pos in
  let applied := applied_events m dog start_pos end_pos in
  gathered = loot_events m dog start_pos end_pos
             ++ office_events m dog start_pos end_pos /\
  omap item_id (loot_events m dog start_pos end_pos)
    `sublist_of` (loot_id <$> map_loot_items m) /\
  StdSort.sort by_timestamp gathered = Some applied /\
  Permutation gathered applied /\
  ascending applied /\
  ((length gathered <= 16)%nat ->
   forall t, List.filter (at_time t) applied = List.filter (at_time t) gathered) /\
  forall g i, FindMap g (dog_map_id dog) = Some (i, m) ->
    ProcessDogCollisions g dog start_pos end_pos
    = (set_maps g (<[i := fst (fold_left apply_event applied (m, dog))]> (maps g)),
       snd (fold_left apply_event applied (m, dog))).
Proof.
  intros gathered applied. split; [reflexivity|].
  split; [apply loot_events_in_map_order|].
  split; [apply std_sort_returns|].
  split; [apply std_sort_permutation|].
  split; [apply std_sort_ascending|].
  split.
  - intros Hl t. unfold applied, applied_events. fold gathered.
    rewrite (std_sort_small gathered Hl). apply stable_sort_keeps_ties.
  - intros g i Hm. now apply ProcessDogCollisions_run.
Qed.

Lemma FindCollisionTime_on_the_spot p r : 0 <= r -> FindCollisionTime p p p r = Some 0.
Proof.
  intros Hr. rewrite FindCollisionTime_at_rest. unfold distance.
  replace (x p - x p) with 0 by ring. replace (y p - y p) with 0 by ring.
  rewrite hypot_axis by lra. destruct (Rle_dec 0 r); [reflexivity|lra].
Qed.

Lemma omap_on_the_spot (dog : Dog) p (items : list LootItem) :
  Forall (fun l => loot_position l = p) items ->
  omap (fun loot =>
          match FindCollisionTime p p (loot_position loot) 0.3 with
          | Some t => Some (mkCollisionEvent ITEM_PICKUP t (dog_id dog)
                              (Some (loot_id loot)) (Some (loot_type loot)))
          | None => None
          end) items
  = map (fun l => mkCollisionEvent ITEM_PICKUP 0 (dog_id dog)
                    (Some (loot_id l)) (Some (loot_type l))) items.
Proof.
  induction 1 as [|l k Hl _ IH]; [reflexivity|].
  cbn [omap list_omap map]. rewrite Hl, FindCollisionTime_on_the_spot by lra.
  f_equal. exact IH.
Qed.

(** A dog that rests on the spot of every loot item gathers a pickup at
    time 0 for each of them, in map order. *)
Lemma loot_events_on_the_spot m dog p :
  Forall (fun l => loot_position l = p) (map_loot_items m) ->
  loot_events m dog p p
  = map (fun l => mkCollisionEvent ITEM_PICKUP 0 (dog_id dog)
                    (Some (loot_id l)) (Some (loot_type l)))
        (map_loot_items m).
Proof. apply omap_on_the_spot. Qed.

Lemma town_office_out_of_reach speed capacity loot dog :
  office_events (Examples.town speed capacity loot) dog (mkPosition 0 0) (mkPosition 0 0)
  = [].
Proof.
  unfold office_events. simpl. rewrite FindCollisionTime_at_rest. unfold distance. simpl.
  replace (8 - 0) with 8 by ring. replace (0 - 0) with 0 by ring.
  rewrite hypot_axis by lra. decide_reals. reflexivity.
Qed.

Lemma loot_heap_gathered :
  gather_events (Examples.town 1 3 Examples.loot_heap) Examples.greedy_dog
                (mkPosition 0 0) (mkPosition 0 0)
  = map (fun i => Examples.pickup (Z.of_nat i) 1) (seq 0 17).
Proof.
  unfold gather_events.
  rewrite loot_events_on_the_spot, town_office_out_of_reach.
  - reflexivity.
  - unfold Examples.loot_heap. simpl. repeat constructor.
Qed.

(** C2 fails as stated: seventeen pickups of equal timestamp are not
    applied in the order in which they were gathered; the ninth goes
    first, and a dog with room for three items ends up with the items 8, 16
    and 15 instead of 0, 1 and 2. *)
Lemma seventeen_ties_counterexample :
  let m := Examples.town 1 3 Examples.loot_heap in
  let gathered :=
    gather_events m Examples.greedy_dog (mkPosition 0 0) (mkPosition 0 0) in
  let applied :=
    applied_events m Examples.greedy_dog
                   (mkPosition 0 0) (mkPosition 0 0) in
  gathered = map (fun i => Examples.pickup (Z.of_nat i) 1) (seq 0 17) /\
  applied = map (fun i => Examples.pickup (Z.of_nat i) 1)
              [8; 16; 15; 14; 13; 12; 11; 10; 9; 0; 7; 6; 5; 4; 3; 2; 1]%nat /\
  dog_bag (snd (ProcessDogCollisions (initial_game [m])
                  Examples.greedy_dog (mkPosition 0 0) (mkPosition 0 0)))
  = [mkBagItem 8 1 10; mkBagItem 16 1 10; mkBagItem 15 1 10].
Proof.
  cbv zeta.
  assert (Happ : applied_events
                   (Examples.town 1 3 Examples.loot_heap) Examples.greedy_dog
                   (mkPosition 0 0) (mkPosition 0 0)
                 = map (fun i => Examples.pickup (Z.of_nat i) 1)
                     [8; 16; 15; 14; 13; 12; 11; 10; 9; 0; 7; 6; 5; 4; 3; 2; 1]%nat).
  { unfold applied_events. rewrite loot_heap_gathered. unfold std_sort.
    rewrite (sort_ext by_timestamp (fun _ _ => false) (fun ev => timestamp ev = 0)).
    - cbn [map seq]. rewrite sort_seventeen_ties. reflexivity.
    - intros x y Hx Hy. unfold by_timestamp. rewrite Hx, Hy.
      destruct (Rlt_dec 0 0); [lra|reflexivity].
    - cbn [map seq]. repeat constructor. }
  split; [apply loot_heap_gathered|]. split; [exact Happ|].
  rewrite (ProcessDogCollisions_run _ _ _ _ 0%nat (Examples.town 1 3 Examples.loot_heap))
    by reflexivity.
  rewrite Happ. vm_compute. reflexivity.
Qed.

(** ** Pickups and office returns (claim C4) *)

Lemma bag_value_app l1 l2 : bag_value (l1 ++ l2) = (bag_value l1 + bag_value l2)%Z.
Proof. induction l1 as [|b l IH]; simpl; [reflexivity|]. rewrite IH. lia. Qed.

Lemma FindLootItem_id m id item : FindLootItem m id = Some item -> loot_id item = id.
Proof.
  unfold FindLootItem. intros H. apply List.find_some in H. destruct H as [_ H].
  now apply bool_decide_eq_true_1 in H.
Qed.

Lemma FindLootItem_removed m id : FindLootItem (RemoveLootItem m id) id = None.
Proof.
  unfold FindLootItem, RemoveLootItem. simpl.
  induction (map_loot_items m) as [|l rest IH]; simpl; [reflexivity|].
  case_bool_decide; simpl; [assumption|].
  now rewrite bool_decide_eq_false_2.
Qed.

Lemma FindLootItem_other m id id' :
  id <> id' -> FindLootItem (RemoveLootItem m id) id' = FindLootItem m id'.
Proof.
  intros Hne. unfold FindLootItem, RemoveLootItem. simpl.
  induction (map_loot_items m) as [|l rest IH]; simpl; [reflexivity|].
  case_bool_decide as H1; simpl.
  - rewrite bool_decide_eq_false_2 by congruence. assumption.
  - now rewrite IH.
Qed.

Lemma ledger_balance evs st l :
  let st' := fold_left apply_event evs st in
  let l' := ledger evs st l in
  (dog_score (snd st') - bag_value (returned l')
   = dog_score (snd st) - bag_value (returned l))%Z /\
  (forall bag0, bag0 ++ picked l = returned l ++ dog_bag (snd st) ->
                bag0 ++ picked l' = returned l' ++ dog_bag (snd st')).
Proof.
  revert st l. induction evs as [|ev rest IH]; intros [m dog] l; cbn [fold_left ledger].
  - split; [reflexivity|auto].
  - destruct (IH (apply_event (m, dog) ev) (record_event (m, dog) ev l)) as [Hs Hb].
    cbv zeta. rewrite Hs. clear Hs.
    assert (Hstep :
      (dog_score (snd (apply_event (m, dog) ev))
         - bag_value (returned (record_event (m, dog) ev l))
       = dog_score dog - bag_value (returned l))%Z /\
      (forall bag0, bag0 ++ picked l = returned l ++ dog_bag dog ->
         bag0 ++ picked (record_event (m, dog) ev l)
         = returned (record_event (m, dog) ev l)
           ++ dog_bag (snd (apply_event (m, dog) ev)))).
    { unfold apply_event, record_event. simpl.
      destruct (type ev).
      - destruct (IsBagFull dog); [split; [reflexivity|auto]|].
        destruct (item_id ev) as [id|]; [|split; [reflexivity|auto]].
        destruct (FindLootItem m id) as [item|]; [|split; [reflexivity|auto]].
        simpl. split; [reflexivity|].
        intros bag0 H. rewrite !List.app_assoc. now rewrite H.
      - rewrite add_scores. simpl. rewrite bag_value_app. split; [lia|].
        intros bag0 H. rewrite app_nil_r. exact H.
      - split; [reflexivity|auto]. }
    destruct Hstep as [Hs1 Hb1]. split; [exact Hs1|].
    intros bag0 H. apply Hb. now apply Hb1.
Qed.

Lemma FindLootItem_present m id :
  id ∈ (loot_id <$> map_loot_items m) -> exists item, FindLootItem m id = Some item.
Proof.
  unfold FindLootItem. induction (map_loot_items m) as [|l rest IH]; simpl; intros H.
  - inversion H.
  - case_bool_decide as Hl; [eauto|].
    apply IH. inversion H; subst; [contradiction|assumption].
Qed.

Lemma apply_event_keeps_other st ev id :
  id ∉ omap item_id [ev] ->
  FindLootItem (fst (apply_event st ev)) id = FindLootItem (fst st) id.
Proof.
  destruct st as [m dog]. unfold apply_event. simpl. intros Hid.
  destruct (type ev); try reflexivity.
  destruct (IsBagFull dog); [reflexivity|].
  destruct (item_id ev) as [id1|]; [|reflexivity].
  destruct (FindLootItem m id1) as [item|] eqn:Hf; [|reflexivity].
  simpl. apply FindLootItem_other. rewrite (FindLootItem_id _ _ _ Hf).
  intros ->. apply Hid. simpl. left.
Qed.

Lemma apply_events_keep_other evs st id :
  id ∉ omap item_id evs ->
  FindLootItem (fst (fold_left apply_event evs st)) id = FindLootItem (fst st) id.
Proof.
  revert st. induction evs as [|ev rest IH]; intros st Hid; simpl; [reflexivity|].
  change (ev :: rest) with ([ev] ++ rest) in Hid.
  rewrite omap_app in Hid. apply not_elem_of_app in Hid. destruct Hid as [H1 H2].
  rewrite IH by assumption. now apply apply_event_keeps_other.
Qed.

Lemma gathered_ids m dog s e :
  omap item_id (gather_events m dog s e) `sublist_of` (loot_id <$> map_loot_items m).
Proof.
  unfold gather_events. rewrite omap_app.
  replace (omap item_id (office_events m dog s e)) with (@nil Z).
  - rewrite app_nil_r. apply loot_events_in_map_order.
  - unfold office_events. induction (map_offices m) as [|o rest IH]; simpl; [reflexivity|].
    destruct (FindCollisionTime _ _ _ _); simpl; assumption.
Qed.

Lemma pickups_carry_an_id m dog s e :
  Forall (fun ev => type ev = ITEM_PICKUP -> is_Some (item_id ev)) (gather_events m dog s e).
Proof.
  unfold gather_events. apply Forall_app. split.
  - unfold loot_events. induction (map_loot_items m) as [|l rest IH]; simpl; [constructor|].
    destruct (FindCollisionTime _ _ _ _); [|assumption].
    constructor; [|assumption]. simpl. eauto.
  - unfold office_events. induction (map_offices m) as [|o rest IH]; simpl; [constructor|].
    destruct (FindCollisionTime _ _ _ _); [|assumption].
    constructor; [|assumption]. simpl. discriminate.
Qed.

(** With loot ids that are unique on the map, a pickup finds its item on
    the map when its turn comes. *)
Lemma pickup_finds_its_item m dog s e evs1 ev evs2 :
  NoDup (loot_id <$> map_loot_items m) ->
  applied_events m dog s e = evs1 ++ ev :: evs2 ->
  type ev = ITEM_PICKUP ->
  exists id item,
    item_id ev = Some id /\
    FindLootItem (fst (fold_left apply_event evs1 (m, dog))) id = Some item /\
    FindLootItem m id = Some item.
Proof.
  intros Hnd Happ Hty.
  pose proof (std_sort_permutation (gather_events m dog s e)) as Hperm.
  fold (applied_events m dog s e) in Hperm. rewrite Happ in Hperm.
  pose proof (pickups_carry_an_id m dog s e) as Hids.
  rewrite Hperm in Hids. apply Forall_app in Hids. destruct Hids as [_ Hids].
  apply Forall_cons in Hids. destruct Hids as [Hev _].
  destruct (Hev Hty) as [id Hid].
  pose proof (gathered_ids m dog s e) as Hsub.
  assert (Hp : omap item_id (gather_events m dog s e)
               ≡ₚ omap item_id evs1 ++ id :: omap item_id evs2).
  { rewrite Hperm, omap_app. simpl. now rewrite Hid. }
  assert (Hnd' : NoDup (omap item_id evs1 ++ id :: omap item_id evs2)).
  { rewrite <- Hp. eapply sublist_NoDup; eassumption. }
  assert (Hin : id ∈ (loot_id <$> map_loot_items m)).
  { eapply elem_of_sublist; [|exact Hsub]. rewrite Hp.
    apply elem_of_app. right. left. }
  destruct (FindLootItem_present m id Hin) as [item Hitem].
  exists id, item. split; [assumption|]. split; [|assumption].
  rewrite apply_events_keep_other; [exact Hitem|].
  apply NoDup_app in Hnd'. destruct Hnd' as (_ & Hdisj & _).
  intros Hin1. apply (Hdisj id Hin1). left.
Qed.

Lemma apply_event_pickup m dog ev id item :
  type ev = ITEM_PICKUP -> item_id ev = Some id -> IsBagFull dog = false ->
  FindLootItem m id = Some item ->
  apply_event (m, dog) ev = (RemoveLootItem m id, AddToBag dog item).
Proof.
  intros Hty Hid Hfull Hfind. unfold apply_event.
  rewrite Hty, Hfull, Hid, Hfind. now rewrite (FindLootItem_id _ _ _ Hfind).
Qed.

Lemma apply_event_gone m dog ev id :
  type ev = ITEM_PICKUP -> item_id ev = Some id -> FindLootItem m id = None ->
  apply_event (m, dog) ev = (m, dog).
Proof.
  intros Hty Hid Hfind. unfold apply_event. rewrite Hty, Hid, Hfind.
  now destruct (IsBagFull dog).
Qed.

Lemma apply_event_map_id st ev : map_id (fst (apply_event st ev)) = map_id (fst st).
Proof.
  destruct st as [m dog]. unfold apply_event. destruct (type ev); try reflexivity.
  destruct (IsBagFull dog); [reflexivity|].
  destruct (item_id ev) as [id|]; [|reflexivity].
  now destruct (FindLootItem m id).
Qed.

Lemma apply_events_map_id evs st :
  map_id (fst (fold_left apply_event evs st)) = map_id (fst st).
Proof.
  revert st. induction evs as [|ev rest IH]; intros st; simpl; [reflexivity|].
  now rewrite IH, apply_event_map_id.
Qed.

Lemma list_find_insert_same_id id ms i m m' :
  list_find (fun m => map_id m = id) ms = Some (i, m) -> map_id m' = map_id m ->
  list_find (fun m => map_id m = id) (<[i := m']> ms) = Some (i, m').
Proof.
  revert i. induction ms as [|a l IH]; intros i; simpl; [discriminate|].
  case_decide as Ha.
  - intros [= <- <-] Hid. simpl. now rewrite decide_True by congruence.
  - destruct (list_find _ l) as [[j0 m0]|] eqn:Hl; simpl; [|discriminate].
    intros [= <- <-] Hid. simpl. rewrite decide_False by assumption.
    now rewrite (IH j0 eq_refl Hid).
Qed.

Lemma filter_filter_loot (f g : LootItem -> bool) l :
  List.filter f (List.filter g l) = List.filter (fun x => g x && f x) l.
Proof.
  induction l as [|x l IH]; simpl; [reflexivity|].
  destruct (g x); simpl; [destruct (f x)|]; now rewrite IH.
Qed.

(** Over a run of events the loot that leaves the map is the loot the
    books record as picked up, and every item picked up was on the map. *)
Lemma ledger_loot evs : forall st l,
  exists got,
    picked (ledger evs st l) = picked l ++ got /\
    map_loot_items (fst (fold_left apply_event evs st))
    = List.filter (fun item => negb (bool_decide (loot_id item ∈ (bag_item_id <$> got))))
                  (map_loot_items (fst st)) /\
    Forall (fun b => exists item, item ∈ map_loot_items (fst st) /\
                       b = mkBagItem (loot_id item) (loot_type item) (loot_value item))
           got.
Proof.
  induction evs as [|ev rest IH]; intros [m dog] l; cbn [fold_left ledger].
  - exists []. split; [now rewrite app_nil_r|]. split; [|constructor].
    simpl. induction (map_loot_items m) as [|x k IHk]; [reflexivity|].
    simpl. now rewrite <- IHk.
  - destruct (IH (apply_event (m, dog) ev) (record_event (m, dog) ev l))
      as (got & Hp & Hm & Hall).
    assert (Hsame : apply_event (m, dog) ev = (fst (apply_event (m, dog) ev),
                                               snd (apply_event (m, dog) ev)))
      by now destruct (apply_event (m, dog) ev).
    assert (Hcase :
      (fst (apply_event (m, dog) ev) = m /\ record_event (m, dog) ev l = l) \/
      (exists item, item ∈ map_loot_items m /\
         fst (apply_event (m, dog) ev) = RemoveLootItem m (loot_id item) /\
         record_event (m, dog) ev l
         = mkLedger (picked l ++ [mkBagItem (loot_id item) (loot_type item)
                                            (loot_value item)]) (returned l)) \/
      (fst (apply_event (m, dog) ev) = m /\
       picked (record_event (m, dog) ev l) = picked l)).
    { unfold apply_event, record_event. simpl. destruct (type ev).
      - destruct (IsBagFull dog); [now left|].
        destruct (item_id ev) as [id|]; [|now left].
        destruct (FindLootItem m id) as [item|] eqn:Hf; [|now left].
        right. left. exists item. split; [|split; reflexivity].
        unfold FindLootItem in Hf. apply List.find_some in Hf.
        apply list_elem_of_In. apply Hf.
      - right. right. split; reflexivity.
      - now left. }
    destruct Hcase as [[Hm1 Hl1]|[(item & Hin & Hm1 & Hl1)|[Hm1 Hl1]]].
    + exists got. rewrite Hl1 in Hp |- *. rewrite Hm1 in Hm, Hall.
      split; [exact Hp|]. split; [exact Hm|exact Hall].
    + exists (mkBagItem (loot_id item) (loot_type item) (loot_value item) :: got).
      rewrite Hl1 in Hp |- *. simpl in Hp. rewrite <- List.app_assoc in Hp. simpl in Hp.
      split; [exact Hp|]. split.
      * rewrite Hm, Hm1. unfold RemoveLootItem. simpl. rewrite filter_filter_loot.
        apply List.filter_ext. intros x. simpl.
        destruct (bool_decide (loot_id x = loot_id item)) eqn:Hx.
        -- apply bool_decide_eq_true_1 in Hx. simpl.
           symmetry. apply negb_false_iff, bool_decide_eq_true_2. rewrite Hx. left.
        -- apply bool_decide_eq_false_1 in Hx. simpl. f_equal.
           apply bool_decide_ext. rewrite elem_of_cons. tauto.
      * constructor; [now exists item|].
        eapply List.Forall_impl; [|exact Hall]. intros b (it & Hit & Hb).
        exists it. split; [|assumption]. rewrite Hm1 in Hit. unfold RemoveLootItem in Hit.
        simpl in Hit. apply list_elem_of_In in Hit. apply List.filter_In in Hit.
        apply list_elem_of_In. apply Hit.
    + exists got. rewrite Hl1 in Hp. rewrite Hm1 in Hm, Hall.
      split; [exact Hp|]. split; [exact Hm|exact Hall].
Qed.

(** C4.  A pickup applied to a dog whose bag is not full appends the item,
    with its id, type and value, to the bag, leaves the score alone and
    removes the item from the map at once, so that a later pickup of the
    same id does nothing; a pickup applied to a dog whose bag is full does
    nothing; an office return adds the values of the bag to the score and
    empties the bag.  On a map with unique loot ids every pickup of a tick
    finds its item when its turn comes.  [ProcessDogCollisions] applies
    every event it gathered, once, and writes the map back into the game:
    the loot that is gone from the map of the game is the loot the dog
    picked up, all of it taken from that map; the score grows by the
    summed values of the items handed in, and the items held before or
    picked up are exactly those handed in followed by those still in the
    bag. *)
Theorem collision_events_move_loot_and_score
    (m : Map) (dog : Dog) :
  (forall ev id item,
     type ev = ITEM_PICKUP -> item_id ev = Some id ->
     IsBagFull dog = false -> FindLootItem m id = Some item ->
     let st' := apply_event (m, dog) ev in
     dog_bag (snd st')
       = dog_bag dog ++ [mkBagItem id (loot_type item) (loot_value item)] /\
     dog_score (snd st') = dog_score dog /\
     map_loot_items (fst st')
       = List.filter (fun l => negb (bool_decide (loot_id l = id))) (map_loot_items m) /\
     FindLootItem (fst st') id = None /\
     forall ev' dog', type ev' = ITEM_PICKUP -> item_id ev' = Some id ->
                      apply_event (fst st', dog') ev' = (fst st', dog')) /\
  (forall ev, type ev = ITEM_PICKUP -> IsBagFull dog = true ->
              apply_event (m, dog) ev = (m, dog)) /\
  (forall ev, type ev = OFFICE_RETURN ->
              apply_event (m, dog) ev
              = (m, ClearBag (AddScore dog (bag_value (dog_bag dog))))) /\
  (forall start_pos end_pos evs1 ev evs2,
     NoDup (loot_id <$> map_loot_items m) ->
     applied_events m dog start_pos end_pos = evs1 ++ ev :: evs2 ->
     type ev = ITEM_PICKUP ->
     exists id item,
       item_id ev = Some id /\
       FindLootItem (fst (fold_left apply_event evs1 (m, dog))) id = Some item) /\
  (forall g start_pos end_pos i,
     FindMap g (dog_map_id dog) = Some (i, m) ->
     let gathered := gather_events m dog start_pos end_pos in
     let applied := applied_events m dog start_pos end_pos in
     let r := ProcessDogCollisions g dog start_pos end_pos in
     let m' := fst (fold_left apply_event applied (m, dog)) in
     let dog' := snd r in
     let l := ledger applied (m, dog) (mkLedger [] []) in
     Permutation gathered applied /\
     fst r = set_maps g (<[i := m']> (maps g)) /\
     FindMap (fst r) (dog_map_id dog) = Some (i, m') /\
     dog' = snd (fold_left apply_event applied (m, dog)) /\
     map_loot_items m'
       = List.filter (fun item => negb (bool_decide
                                   (loot_id item ∈ (bag_item_id <$> picked l))))
                     (map_loot_items m) /\
     Forall (fun b => exists item, item ∈ map_loot_items m /\
                        b = mkBagItem (loot_id item) (loot_type item) (loot_value item))
            (picked l) /\
     dog_score dog' = (dog_score dog + bag_value (returned l))%Z /\
     dog_bag dog ++ picked l = returned l ++ dog_bag dog').
Proof.
  split; [|split; [|split; [|split]]].
  - intros ev id item Hty Hid Hfull Hfind st'. subst st'.
    rewrite (apply_event_pickup m dog ev id item Hty Hid Hfull Hfind). simpl.
    rewrite (FindLootItem_id _ _ _ Hfind).
    repeat split; [apply FindLootItem_removed|].
    intros ev' dog' Hty' Hid'.
    apply apply_event_gone with id; [assumption..|apply FindLootItem_removed].
  - intros ev Hty Hfull. unfold apply_event. now rewrite Hty, Hfull.
  - intros ev Hty. unfold apply_event. now rewrite Hty, add_scores.
  - intros s e evs1 ev evs2 Hnd Happ Hty.
    destruct (pickup_finds_its_item m dog s e evs1 ev evs2 Hnd Happ Hty)
      as (id & item & Hid & Hfind & _).
    eauto.
  - intros g s e i Hm gathered applied r m' dog' l.
    assert (Hr : r = (set_maps g (<[i := m']> (maps g)),
                      snd (fold_left apply_event applied (m, dog)))).
    { subst r m' applied. now apply (ProcessDogCollisions_run g dog s e i m). }
    assert (Hd : dog' = snd (fold_left apply_event applied (m, dog)))
      by (subst dog'; now rewrite Hr).
    destruct (ledger_balance applied (m, dog) (mkLedger [] [])) as [Hs Hb].
    destruct (ledger_loot applied (m, dog) (mkLedger [] [])) as (got & Hp & Hloot & Hall).
    simpl in Hs, Hb, Hp, Hloot, Hall. fold l in Hs, Hb, Hp. rewrite <- Hd in Hs, Hb.
    fold m' in Hloot. subst got.
    split; [apply std_sort_permutation|].
    split; [now rewrite Hr|].
    split.
    { rewrite Hr. unfold FindMap. simpl.
      apply (list_find_insert_same_id _ _ i m m'); [exact Hm|].
      unfold m'. apply (apply_events_map_id applied (m, dog)). }
    split; [exact Hd|]. split; [exact Hloot|]. split; [exact Hall|].
    split; [lia|]. apply Hb. now rewrite app_nil_r.
Qed.

Lemma collision_events_move_loot_and_score_witness :
  let m := Examples.town 1 1 Examples.twin_loot in
  let g := initial_game [m] in
  let applied :=
    applied_events m Examples.resting_dog
                   (mkPosition 0 0) (mkPosition 0 0) in
  fst (ProcessDogCollisions g Examples.resting_dog
         (mkPosition 0 0) (mkPosition 0 0))
  = set_maps g (<[0%nat := fst (fold_left apply_event applied (m, Examples.resting_dog))]>
                  (maps g)).
Proof.
  cbv zeta.
  destruct (collision_events_move_loot_and_score
              (Examples.town 1 1 Examples.twin_loot) Examples.resting_dog)
    as (_ & _ & _ & _ & Hrun).
  destruct (Hrun (initial_game [Examples.town 1 1 Examples.twin_loot])
              (mkPosition 0 0) (mkPosition 0 0) 0%nat eq_refl) as (_ & Hfst & _).
  exact Hfst.
Defined.

(** ** The time of a collision (claim C3) *)

Section CollisionTime.
Import Floats Geometry64.
Local Open Scope float_scope.




(** When the target projects beyond the end of the path the code takes the
    distance to the end point where the distance to the line is due: here
    the path ends 1 from the target, within the radius 1.25, and nothing
    is returned. *)
Lemma FindCollisionTime_misses_contact_at_end {libm : LibM} :
  let s := mkPosition 0 0 in
  let e := mkPosition 1 0 in
  let tg := mkPosition 2 0 in
  (path_length s e <=? projection s e tg) = true /\
  (start_distance e tg <=? 1.25) = true /\
  FindCollisionTime s e tg 1.25 = None.
Proof. repeat split; vm_compute; reflexivity. Qed.

(** A dog that moves for 8 towards a target 3 ahead enters the circle of
    radius 2 after 1, an eighth of the way. *)
Lemma FindCollisionTime_enters {libm : LibM} :
  FindCollisionTime (mkPosition 0 0) (mkPosition 8 0) (mkPosition 3 0) 2
  = Some 0.125.
Proof. vm_compute. reflexivity. Qed.




End CollisionTime.

(** ** Loot ids stay unique on a map *)

Lemma RemoveLootItem_unique m id :
  NoDup (loot_id <$> map_loot_items m) ->
  NoDup (loot_id <$> map_loot_items (RemoveLootItem m id)).
Proof.
  unfold RemoveLootItem. simpl.
  induction (map_loot_items m) as [|l rest IH]; simpl; intros H; [constructor|].
  apply NoDup_cons in H. destruct H as [Hnin Hnd].
  destruct (negb (bool_decide (loot_id l = id))); simpl; [|now apply IH].
  apply NoDup_cons. split; [|now apply IH].
  intros Hin. apply Hnin.
  apply list_elem_of_fmap in Hin. destruct Hin as (l' & -> & Hin).
  apply list_elem_of_fmap. exists l'. split; [reflexivity|].
  apply list_elem_of_In in Hin. apply List.filter_In in Hin.
  apply list_elem_of_In. tauto.
Qed.

Lemma apply_event_unique st ev :
  NoDup (loot_id <$> map_loot_items (fst st)) ->
  NoDup (loot_id <$> map_loot_items (fst (apply_event st ev))).
Proof.
  destruct st as [m dog]. unfold apply_event. simpl. intros H.
  destruct (type ev); try assumption.
  destruct (IsBagFull dog); [assumption|].
  destruct (item_id ev) as [id|]; [|assumption].
  destruct (FindLootItem m id) as [item|]; [|assumption].
  now apply RemoveLootItem_unique.
Qed.

Lemma apply_events_unique evs st :
  NoDup (loot_id <$> map_loot_items (fst st)) ->
  NoDup (loot_id <$> map_loot_items (fst (fold_left apply_event evs st))).
Proof.
  revert st. induction evs as [|ev rest IH]; intros st H; simpl; [assumption|].
  now apply IH, apply_event_unique.
Qed.

Lemma ProcessDogCollisions_unique {E : Externals} g dog s e :
  loot_ids_unique (maps g) ->
  loot_ids_unique (maps (fst (ProcessDogCollisions g dog s e))).
Proof.
  unfold loot_ids_unique, ProcessDogCollisions, FindMap. intros H.
  destruct (list_find _ (maps g)) as [[i m]|] eqn:Hfind; [|assumption].
  apply list_find_Some in Hfind. destruct Hfind as (Hi & _ & _).
  pose proof (apply_events_unique (applied_events m dog s e) (m, dog)) as Hu.
  destruct (fold_left apply_event _ (m, dog)) as [m' dog']; simpl in *.
  apply Forall_insert; [assumption|]. apply Hu.
  rewrite Forall_lookup in H. exact (H i m Hi).
Qed.

Lemma update_dogs_unique {E : Externals} dt ds g :
  loot_ids_unique (maps g) -> loot_ids_unique (maps (fst (update_dogs dt g ds))).
Proof.
  revert g. induction ds as [|dog rest IH]; intros g H; simpl; [assumption|].
  pose proof (ProcessDogCollisions_unique g (MoveDog g dog dt) (dog_position dog)
                (dog_position (MoveDog g dog dt)) H) as H1.
  destruct (ProcessDogCollisions g _ _ _) as [g1 dog2]; simpl in *.
  specialize (IH g1 H1). now destruct (update_dogs dt g1 rest).
Qed.

Lemma seed_items_unique c : NoDup (loot_id <$> seed_items c).
Proof.
  unfold seed_items. simpl.
  repeat (apply NoDup_cons; split;
          [rewrite ?elem_of_cons, elem_of_nil; lia|]).
  constructor.
Qed.

Lemma replenish_unique ms c :
  loot_ids_unique ms -> loot_ids_unique (fst (replenish ms c)).
Proof.
  unfold loot_ids_unique. revert c.
  induction ms as [|m rest IH]; intros c H; simpl; [constructor|].
  apply Forall_cons in H. destruct H as [Hm Hrest].
  destruct (map_loot_items m) eqn:Hl.
  - specialize (IH (c + 5)%Z Hrest). destruct (replenish rest (c + 5)); simpl in *.
    constructor; [apply seed_items_unique|assumption].
  - specialize (IH c Hrest). destruct (replenish rest c); simpl in *.
    constructor; [now rewrite Hl|assumption].
Qed.

Lemma Tick_keeps_loot_ids_unique {E : Externals} delta now rc a :
  loot_ids_unique (maps (game_ a)) ->
  loot_ids_unique (maps (game_ (fst (Tick delta now rc a)))).
Proof.
  intros H.
  pose proof (Tick_replenish delta now rc a) as Ht.
  apply (f_equal fst) in Ht. simpl in Ht. rewrite Ht.
  apply replenish_unique. unfold UpdateGameState.
  pose proof (update_dogs_unique (IZR delta / 1000) (dogs (game_ a)) (game_ a) H) as Hu.
  now destruct (update_dogs _ _ _).
Qed.

Lemma JoinGame_keeps_maps {E : Externals} user_name map_id_ token position now a :
  maps (game_ (fst (JoinGame user_name map_id_ token position now a))) = maps (game_ a)
  /\ next_loot_id (fst (JoinGame user_name map_id_ token position now a)) = next_loot_id a.
Proof.
  unfold JoinGame. destruct (FindMap (game_ a) map_id_) as [[j m]|]; [|now split].
  case_bool_decide; now split.
Qed.

Lemma SetPlayerAction_keeps_maps player move now a :
  maps (game_ (fst (SetPlayerAction player move now a))) = maps (game_ a)
  /\ next_loot_id (fst (SetPlayerAction player move now a)) = next_loot_id a.
Proof.
  unfold SetPlayerAction.
  destruct (FindDog (game_ a) (player_dog_id player)) as [[i dog]|]; [|now split].
  destruct (FindMap (game_ a) (player_map_id player)) as [[j m]|]; [|now split].
  destruct (decode_move _ _ _) as [[v d]|]; now split.
Qed.

(** X11.  Loot ids stay unique on every map in all the states reached, by
    joins, actions and ticks, from maps on which they are. *)
Lemma reachable_loot_ids_unique {E : Externals} ms a :
  loot_ids_unique ms -> reachable ms a -> loot_ids_unique (maps (game_ a)).
Proof.
  intros H Hr. induction Hr.
  - exact H.
  - now rewrite (proj1 (JoinGame_keeps_maps _ _ _ _ _ _)).
  - now rewrite (proj1 (SetPlayerAction_keeps_maps _ _ _ _)).
  - now apply Tick_keeps_loot_ids_unique.
Qed.

(** * Further properties of the code *)

Import Invariants Scenario.

(** ** Joining, and the session registry *)

Lemma registry_ok_initial ms : registry_ok (initial_game ms).
Proof.
  repeat split; simpl; intros; try discriminate.
  all: rewrite lookup_empty in *; discriminate.
Qed.

(** What a successful [JoinGame] returns. *)
Lemma JoinGame_success {E : Externals} user_name map_id_ token position now a j m :
  FindMap (game_ a) map_id_ = Some (j, m) -> user_name <> EmptyString ->
  JoinGame user_name map_id_ token position now a =
  (mkApplication
     (mkGame (maps (game_ a))
        (dogs (game_ a) ++ [joined_dog a user_name map_id_ position m])
        (players (game_ a) ++ [joined_player a user_name map_id_ token])
        (<[token := length (players (game_ a))]> (token_to_player_index (game_ a)))
        (<[next_player_id a := length (players (game_ a))]> (player_id_to_index (game_ a)))
        (<[next_dog_id a := length (dogs (game_ a))]> (dog_id_to_index (game_ a))))
     (randomize_spawn_points_ a) (dog_retirement_time_seconds_ a)
     (<[next_player_id a := mkPlayerMetadata now None false]> (player_metadata_ a))
     (retirement_callback_ a) (next_loot_id a)
     (uint32_succ (next_dog_id a)) (uint32_succ (next_player_id a)),
   Some (token, next_player_id a)).
Proof.
  intros Hm Hn. unfold JoinGame. rewrite Hm.
  rewrite bool_decide_eq_false_2 by assumption.
  rewrite !length_app. simpl.
  replace (length (players (game_ a)) + 1 - 1)%nat with (length (players (game_ a))) by lia.
  replace (length (dogs (game_ a)) + 1 - 1)%nat with (length (dogs (game_ a))) by lia.
  reflexivity.
Qed.

(** X1.  [JoinGame] fails exactly when the map is unknown or the name is
    empty, and then it changes nothing.  When it succeeds it returns the
    token it was given with the player id drawn from the counter, adds one
    dog and one player, advances both counters modulo 2^32, and files a
    fresh metadata entry (joined now, not idle, not retired) under the new
    player id. *)
Theorem JoinGame_outcome {E : Externals} (user_name map_id_ token : string)
    (position : Position) (now : Z) (a : Application) :
  let r := JoinGame user_name map_id_ token position now a in
  (snd r = None <-> FindMap (game_ a) map_id_ = None \/ user_name = EmptyString) /\
  (snd r = None -> fst r = a) /\
  (snd r <> None ->
     snd r = Some (token, next_player_id a) /\
     length (players (game_ (fst r))) = S (length (players (game_ a))) /\
     length (dogs (game_ (fst r))) = S (length (dogs (game_ a))) /\
     next_player_id (fst r) = ((next_player_id a + 1) mod 2 ^ 32)%Z /\
     next_dog_id (fst r) = ((next_dog_id a + 1) mod 2 ^ 32)%Z /\
     player_metadata_ (fst r) !! next_player_id a
       = Some (mkPlayerMetadata now None false)).
Proof.
  intros r. subst r.
  destruct (FindMap (game_ a) map_id_) as [[j m]|] eqn:Hm.
  - destruct (decide (user_name = EmptyString)) as [->|Hn].
    + unfold JoinGame. rewrite Hm. simpl. repeat split; auto; congruence.
    + rewrite (JoinGame_success _ _ _ _ _ _ j m Hm Hn). simpl.
      split; [split; [discriminate|intros [?|?]; congruence]|].
      split; [discriminate|]. intros _.
      rewrite !length_app. simpl. repeat split; try lia.
      apply lookup_insert_eq.
  - unfold JoinGame. rewrite Hm. simpl. repeat split; auto; congruence.
Qed.

(** X2.  After a successful join the new player is found by the token and
    by the player id, the new dog by the dog id, at the last position of the
    dogs, and the player is listed among the players of its map. *)
Theorem JoinGame_then_lookup {E : Externals} (user_name map_id_ token : string)
    (position : Position) (now : Z) (a : Application) (j : nat) (m : Map) :
  FindMap (game_ a) map_id_ = Some (j, m) -> user_name <> EmptyString ->
  let a' := fst (JoinGame user_name map_id_ token position now a) in
  FindPlayerByToken a' token = Some (joined_player a user_name map_id_ token) /\
  FindPlayer (game_ a') (next_player_id a)
    = Some (joined_player a user_name map_id_ token) /\
  FindDog (game_ a') (next_dog_id a)
    = Some (length (dogs (game_ a)), joined_dog a user_name map_id_ position m) /\
  joined_player a user_name map_id_ token ∈ GetPlayers a' token.
Proof.
  intros Hm Hn a'. subst a'. rewrite (JoinGame_success _ _ _ _ _ _ j m Hm Hn).
  unfold FindPlayerByToken, FindPlayer, FindDog, GetPlayers, FindPlayerByToken. simpl.
  rewrite !lookup_insert_eq.
  rewrite !list_lookup_middle by reflexivity.
  repeat split.
  apply list_elem_of_In, List.filter_In. split.
  - apply List.in_or_app. right. left. reflexivity.
  - simpl. now apply bool_decide_eq_true_2.
Qed.

Lemma JoinGame_then_lookup_witness :
  let a := initial_application [Scenario.meadow] false Chrono.sixty_seconds true in
  let a' := fst (JoinGame (E := Examples.free_world) "Alice" "town" "aaaa"
                   (mkPosition 0 0) 0 a) in
  FindPlayerByToken a' "aaaa" = Some (joined_player a "Alice" "town" "aaaa") /\
  FindPlayer (game_ a') (next_player_id a)
    = Some (joined_player a "Alice" "town" "aaaa") /\
  FindDog (game_ a') (next_dog_id a)
    = Some (length (dogs (game_ a)),
            joined_dog (E := Examples.free_world) a "Alice" "town"
                       (mkPosition 0 0) Scenario.meadow) /\
  joined_player a "Alice" "town" "aaaa" ∈ GetPlayers a' "aaaa".
Proof.
  apply (JoinGame_then_lookup (E := Examples.free_world) "Alice" "town" "aaaa"
           (mkPosition 0 0) 0 (initial_application [Scenario.meadow] false Chrono.sixty_seconds true)
           0 Scenario.meadow).
  - reflexivity.
  - discriminate.
Defined.

(** Appending a player and its dog under a new token and new ids keeps the
    registry. *)
Lemma registry_ok_snoc g d p :
  registry_ok g -> dog_id d = player_dog_id p ->
  token_to_player_index g !! player_token p = None ->
  player_id_to_index g !! player_id p = None ->
  dog_id_to_index g !! dog_id d = None ->
  registry_ok
    (mkGame (maps g) (dogs g ++ [d]) (players g ++ [p])
       (<[player_token p := length (players g)]> (token_to_player_index g))
       (<[player_id p := length (players g)]> (player_id_to_index g))
       (<[dog_id d := length (dogs g)]> (dog_id_to_index g))).
Proof.
  intros (Hlen & Hp & Ht & Hk & Hd) Hdp Htok Hpid Hdid.
  unfold registry_ok. simpl. split; [rewrite !length_app; simpl; lia|].
  split; [|split; [|split]].
  - intros i q Hi. apply lookup_snoc_inv in Hi. destruct Hi as [Hi|[-> ->]].
    + destruct (Hp i q Hi) as (H1 & H2 & dq & H3 & H4 & H5).
      split; [rewrite lookup_insert_ne; [exact H1|congruence]|].
      split; [rewrite lookup_insert_ne; [exact H2|congruence]|].
      exists dq.
      split; [rewrite lookup_app_l; [exact H3|]; eapply lookup_lt_Some; eassumption|].
      split; [exact H4|]. rewrite lookup_insert_ne; [exact H5|congruence].
    + rewrite !lookup_insert_eq. split; [reflexivity|]. split; [reflexivity|].
      exists d. rewrite <- Hlen. rewrite list_lookup_middle by reflexivity.
      rewrite lookup_insert_eq. auto.
  - intros t i Hi. destruct (decide (player_token p = t)) as [<-|Hne].
    + rewrite lookup_insert_eq in Hi. injection Hi as <-.
      exists p. rewrite list_lookup_middle by reflexivity. auto.
    + rewrite lookup_insert_ne in Hi by assumption.
      destruct (Ht t i Hi) as (q & H1 & H2). exists q. split; [|assumption].
      rewrite lookup_app_l; [exact H1|]. eapply lookup_lt_Some; eassumption.
  - intros k i Hi. destruct (decide (player_id p = k)) as [<-|Hne].
    + rewrite lookup_insert_eq in Hi. injection Hi as <-.
      exists p. rewrite list_lookup_middle by reflexivity. auto.
    + rewrite lookup_insert_ne in Hi by assumption.
      destruct (Hk k i Hi) as (q & H1 & H2). exists q. split; [|assumption].
      rewrite lookup_app_l; [exact H1|]. eapply lookup_lt_Some; eassumption.
  - intros k i Hi. destruct (decide (dog_id d = k)) as [<-|Hne].
    + rewrite lookup_insert_eq in Hi. injection Hi as <-.
      exists d. rewrite list_lookup_middle by reflexivity. auto.
    + rewrite lookup_insert_ne in Hi by assumption.
      destruct (Hd k i Hi) as (q & H1 & H2). exists q. split; [|assumption].
      rewrite lookup_app_l; [exact H1|]. eapply lookup_lt_Some; eassumption.
Qed.

Lemma idle_game_registry : registry_ok Scenario.idle_game.
Proof.
  exact (registry_ok_snoc (initial_game [Scenario.meadow]) Scenario.idle_dog
           Examples.alice (registry_ok_initial _) eq_refl eq_refl eq_refl eq_refl).
Qed.

(** X3.  [JoinGame] keeps the session registry in order (players, dogs and
    the three indices agree, read either way) whenever the token and the
    two ids it is about to issue are not yet in the indices. *)
Theorem JoinGame_keeps_registry {E : Externals} (user_name map_id_ token : string)
    (position : Position) (now : Z) (a : Application) :
  registry_ok (game_ a) ->
  token_to_player_index (game_ a) !! token = None ->
  player_id_to_index (game_ a) !! next_player_id a = None ->
  dog_id_to_index (game_ a) !! next_dog_id a = None ->
  registry_ok (game_ (fst (JoinGame user_name map_id_ token position now a))).
Proof.
  intros Hok Htok Hpid Hdid.
  destruct (FindMap (game_ a) map_id_) as [[j m]|] eqn:Hm.
  2: { unfold JoinGame. now rewrite Hm. }
  destruct (decide (user_name = EmptyString)) as [->|Hn].
  { unfold JoinGame. now rewrite Hm. }
  rewrite (JoinGame_success _ _ _ _ _ _ j m Hm Hn).
  exact (registry_ok_snoc (game_ a) (joined_dog a user_name map_id_ position m)
           (joined_player a user_name map_id_ token) Hok eq_refl Htok Hpid Hdid).
Qed.

Lemma JoinGame_keeps_registry_witness :
  registry_ok (game_ (fst (JoinGame (E := Examples.free_world) "Bob" "town" "bbbb"
                             (mkPosition 0 0) 20 Scenario.idle_alice))).
Proof.
  apply (JoinGame_keeps_registry (E := Examples.free_world) "Bob" "town" "bbbb"
           (mkPosition 0 0) 20 Scenario.idle_alice).
  - exact idle_game_registry.
  - reflexivity.
  - reflexivity.
  - reflexivity.
Defined.

(** X4.  While the registry is in order, [FindPlayerByToken] returns a
    player exactly when that player is in the game and the token is its
    own: no token resolves to another player, and every player is reached
    by its token. *)
Theorem FindPlayerByToken_owner (a : Application) (auth_token : string) (p : Player) :
  registry_ok (game_ a) ->
  (FindPlayerByToken a auth_token = Some p <->
   p ∈ players (game_ a) /\ player_token p = auth_token).
Proof.
  intros (_ & Hp & Ht & _ & _). unfold FindPlayerByToken. split.
  - destruct (token_to_player_index (game_ a) !! auth_token) as [i|] eqn:Hi; [|discriminate].
    intros Hl. destruct (Ht _ _ Hi) as (p' & Hp' & Htok).
    assert (p' = p) by congruence. subst p'. split; [|assumption].
    eapply list_elem_of_lookup_2; eassumption.
  - intros [Hin <-]. apply list_elem_of_lookup in Hin. destruct Hin as [i Hi].
    destruct (Hp i p Hi) as (-> & _). exact Hi.
Qed.

Lemma FindPlayerByToken_owner_witness :
  FindPlayerByToken Scenario.idle_alice "aaaa" = Some Examples.alice <->
  Examples.alice ∈ players (game_ Scenario.idle_alice) /\
  player_token Examples.alice = "aaaa"%string.
Proof.
  apply (FindPlayerByToken_owner Scenario.idle_alice "aaaa" Examples.alice).
  exact idle_game_registry.
Defined.

Lemma filter_only_last {A} (f : A -> bool) (l : list A) i x :
  l !! i = Some x -> S i = length l -> f x = false ->
  (forall j y, l !! j = Some y -> j <> i -> f y = true) ->
  List.filter f l = take i l.
Proof.
  revert i. induction l as [|y l IH]; intros [|i] Hi Hlen Hx Hall; simpl in *;
    try discriminate.
  - injection Hi as ->. rewrite Hx. destruct l; [reflexivity|discriminate].
  - rewrite (Hall 0%nat y eq_refl) by lia. f_equal.
    apply IH; [assumption|lia|assumption|].
    intros j z Hj Hne. apply (Hall (S j) z Hj). lia.
Qed.

(** X5.  Retiring the player who joined last is the case [RetirePlayer]
    handles in full: the registry stays in order, and players and dogs lose
    exactly their last element. *)
Theorem RetirePlayer_last_keeps_registry (now id : Z) (a : Application)
    (it : PlayerMetadata) (i : nat) :
  registry_ok (game_ a) ->
  player_metadata_ a !! id = Some it -> is_retired it = false ->
  player_id_to_index (game_ a) !! id = Some i ->
  S i = length (players (game_ a)) ->
  let g' := game_ (fst (RetirePlayer now id a)) in
  registry_ok g' /\
  players g' = take i (players (game_ a)) /\
  dogs g' = take i (dogs (game_ a)).
Proof.
  intros Hok Hit Hr Hidx Hlast.
  pose proof Hok as (Hlen & Hp & Ht & Hk & Hd).
  destruct (Hk id i Hidx) as (p & Hpi & Hpid).
  destruct (Hp i p Hpi) as (Htok & _ & d & Hdi & Hdid & Hdidx).
  assert (HFp : FindPlayer (game_ a) id = Some p)
    by (unfold FindPlayer; now rewrite Hidx).
  assert (HFd : FindDog (game_ a) (player_dog_id p) = Some (i, d))
    by (unfold FindDog; now rewrite <- Hdid, Hdidx, Hdi).
  assert (Hplayers :
    List.filter (fun q => negb (bool_decide (player_id q = id))) (players (game_ a))
    = take i (players (game_ a))).
  { apply filter_only_last with p; [assumption..| |].
    - now rewrite bool_decide_eq_true_2.
    - intros j q Hj Hne. rewrite bool_decide_eq_false_2; [reflexivity|].
      intros Hq. destruct (Hp j q Hj) as (_ & Hjq & _). congruence. }
  assert (Hdogs :
    List.filter (fun q => negb (bool_decide (dog_id q = dog_id d))) (dogs (game_ a))
    = take i (dogs (game_ a))).
  { apply filter_only_last with d; [assumption|lia| |].
    - now rewrite bool_decide_eq_true_2.
    - intros j q Hj Hne. rewrite bool_decide_eq_false_2; [reflexivity|].
      intros Hq.
      assert (Hjl : (j < length (players (game_ a)))%nat)
        by (rewrite <- Hlen; eapply lookup_lt_Some; eassumption).
      destruct (lookup_lt_is_Some_2 _ _ Hjl) as [pj Hpj].
      destruct (Hp j pj Hpj) as (_ & _ & dj & Hdj & _ & Hdjx).
      assert (dj = q) by congruence. subst dj. congruence. }
  cbv zeta. unfold RetirePlayer. rewrite Hit, Hr, HFp, HFd. simpl.
  rewrite Hplayers, Hdogs. split; [|split; reflexivity].
  unfold registry_ok. simpl.
  split; [rewrite !length_take; lia|].
  assert (Hlt : forall {A} (l : list A) j (y : A),
            take i l !! j = Some y -> l !! j = Some y /\ (j < i)%nat).
  { intros A l j y Hj. apply lookup_take_Some in Hj. tauto. }
  split; [|split; [|split]].
  - intros j q Hj. apply Hlt in Hj. destruct Hj as [Hj Hji].
    destruct (Hp j q Hj) as (H1 & H2 & dj & H3 & H4 & H5).
    split; [rewrite lookup_delete_ne; [exact H1|]; intros Heq; rewrite Heq in Htok;
            rewrite Htok in H1; injection H1; lia|].
    split; [rewrite lookup_delete_ne; [exact H2|]; intros Heq; rewrite <- Heq in H2;
            rewrite Hidx in H2; injection H2; lia|].
    exists dj. split; [rewrite lookup_take_lt by assumption; exact H3|].
    split; [exact H4|].
    rewrite lookup_delete_ne; [exact H5|]. intros Heq. rewrite Heq in Hdidx.
    rewrite Hdidx in H5. injection H5. lia.
  - intros t j Hj. destruct (decide (player_token p = t)) as [<-|Hne].
    + rewrite lookup_delete_eq in Hj. discriminate.
    + rewrite lookup_delete_ne in Hj by assumption.
      destruct (Ht t j Hj) as (q & H1 & H2). exists q. split; [|assumption].
      rewrite lookup_take_lt; [exact H1|].
      assert (j <> i) by (intros ->; congruence).
      apply lookup_lt_Some in H1. lia.
  - intros k j Hj. destruct (decide (id = k)) as [<-|Hne].
    + rewrite lookup_delete_eq in Hj. discriminate.
    + rewrite lookup_delete_ne in Hj by assumption.
      destruct (Hk k j Hj) as (q & H1 & H2). exists q. split; [|assumption].
      rewrite lookup_take_lt; [exact H1|].
      assert (j <> i) by (intros ->; congruence).
      apply lookup_lt_Some in H1. lia.
  - intros k j Hj. destruct (decide (dog_id d = k)) as [<-|Hne].
    + rewrite lookup_delete_eq in Hj. discriminate.
    + rewrite lookup_delete_ne in Hj by assumption.
      destruct (Hd k j Hj) as (q & H1 & H2). exists q. split; [|assumption].
      rewrite lookup_take_lt; [exact H1|].
      assert (j <> i) by (intros ->; congruence).
      apply lookup_lt_Some in H1. lia.
Qed.

Lemma RetirePlayer_last_keeps_registry_witness :
  let g' := game_ (fst (RetirePlayer Scenario.a_bit_later 0 Scenario.idle_alice)) in
  registry_ok g' /\
  players g' = take 0 (players (game_ Scenario.idle_alice)) /\
  dogs g' = take 0 (dogs (game_ Scenario.idle_alice)).
Proof.
  apply (RetirePlayer_last_keeps_registry Scenario.a_bit_later 0 Scenario.idle_alice
           (mkPlayerMetadata 0 (Some 0%Z) false) 0).
  - exact idle_game_registry.
  - reflexivity.
  - reflexivity.
  - reflexivity.
  - reflexivity.
Defined.

Lemma RetirePlayer_removes_the_player_witness :
  let g' := game_ (fst (RetirePlayer Scenario.a_bit_later 0 Scenario.idle_alice)) in
  token_to_player_index g' !! player_token Examples.alice = None /\
  player_id_to_index g' !! 0%Z = None /\
  dog_id_to_index g' !! dog_id Scenario.idle_dog = None /\
  Forall (fun p => player_id p <> 0%Z) (players g') /\
  Forall (fun d => dog_id d <> dog_id Scenario.idle_dog) (dogs g').
Proof.
  apply (RetirePlayer_removes_the_player Scenario.a_bit_later 0 Scenario.idle_alice
           (mkPlayerMetadata 0 (Some 0%Z) false) Examples.alice 0 Scenario.idle_dog).
  - reflexivity.
  - reflexivity.
  - reflexivity.
  - reflexivity.
Defined.

(** ** What an action and a state update leave alone *)

(** ** Steering a dog (claim C7) *)

(** While the registry is in order, the dog-id index leads from a player
    of the game to its own dog, which sits where the player sits. *)
Lemma registry_own_dog g k player :
  registry_ok g -> players g !! k = Some player ->
  exists dog, dogs g !! k = Some dog /\ dog_id dog = player_dog_id player /\
              FindDog g (player_dog_id player) = Some (k, dog).
Proof.
  intros (_ & Hp & _) Hk. destruct (Hp k player Hk) as (_ & _ & d & Hd & Hid & Hix).
  exists d. split; [assumption|]. split; [assumption|].
  unfold FindDog. now rewrite <- Hid, Hix, Hd.
Qed.

(** C7, as the code has it.  In a state whose registry is in order, for a
    player of the game whose map is found, [SetPlayerAction] succeeds
    exactly for the moves L, R, U, D and the empty string, and changes
    nothing otherwise; L, R, U, D set the velocity of the player's own dog
    to the map's dog speed in that direction and the facing with it, and
    leave every other dog alone; the empty string sets the velocity to zero
    and keeps the facing.  For a player whose metadata is live, an accepted
    move that leaves the dog with a non-zero velocity (a movement command
    on a map whose dog speed is not zero) clears the idle-start time; an
    accepted move that leaves it at rest (the stop command, or any command
    when the dog speed is zero) keeps the idle-start time if there is one
    and sets it to [now] otherwise. *)
Theorem SetPlayerAction_moves_and_idles
    (player : Player) (move : string) (now : Z) (a : Application)
    (k j : nat) (m : Map) :
  registry_ok (game_ a) ->
  players (game_ a) !! k = Some player ->
  FindMap (game_ a) (player_map_id player) = Some (j, m) ->
  exists dog,
    dogs (game_ a) !! k = Some dog /\ dog_id dog = player_dog_id player /\
    let r := SetPlayerAction player move now a in
    let speed := map_dog_speed m in
    let dog_after v d :=
      dogs (game_ (fst r)) = <[k := SetDirection (SetVelocity dog v) d]> (dogs (game_ a)) in
    let meta_after := player_metadata_ (fst r) !! player_id player in
    (snd r = true <-> known_move move) /\
    (snd r = false -> fst r = a) /\
    (move = "L"%string -> dog_after (mkVelocity (- speed) 0) West) /\
    (move = "R"%string -> dog_after (mkVelocity speed 0) East) /\
    (move = "U"%string -> dog_after (mkVelocity 0 (- speed)) North) /\
    (move = "D"%string -> dog_after (mkVelocity 0 speed) South) /\
    (move = EmptyString -> dog_after (mkVelocity 0 0) (dog_direction dog)) /\
    (forall it,
       player_metadata_ a !! player_id player = Some it -> is_retired it = false ->
       known_move move ->
       (move <> EmptyString -> speed <> 0 ->
          meta_after = Some (set_idle_start_time it None)) /\
       (move = EmptyString \/ speed = 0 ->
          meta_after = Some (idle_after it false now))).
Proof.
  intros Hok Hk Hm.
  destruct (registry_own_dog (game_ a) k player Hok Hk) as (dog & Hd & Hid & Hfind).
  exists dog. split; [assumption|]. split; [assumption|].
  exact (SetPlayerAction_resolved player move now a k dog j m Hfind Hm).
Qed.

Lemma SetPlayerAction_moves_and_idles_witness :
  let r := SetPlayerAction Examples.alice "L" 50 Scenario.idle_alice in
  snd r = true /\
  dogs (game_ (fst r))
  = [SetDirection (SetVelocity Scenario.idle_dog (mkVelocity (- 1) 0)) West] /\
  player_metadata_ (fst r) !! 0%Z = Some (mkPlayerMetadata 0 None false).
Proof.
  destruct (SetPlayerAction_moves_and_idles Examples.alice "L" 50 Scenario.idle_alice
              0 0 Scenario.meadow idle_game_registry eq_refl eq_refl)
    as (dog & Hd & _ & Hok & _ & HL & _ & _ & _ & _ & Hidle).
  injection Hd as <-.
  split; [apply Hok; left; reflexivity|].
  split; [exact (HL eq_refl)|].
  destruct (Hidle (mkPlayerMetadata 0 (Some 0%Z) false) eq_refl eq_refl
              (or_introl eq_refl)) as [Hclear _].
  apply Hclear; [discriminate|simpl; lra].
Defined.

Lemma alice_gone_bob :
  SetPlayerAction Examples.bob "R" 50 Examples.alice_gone
  = (set_player_metadata
       (set_game Examples.alice_gone
          (set_dogs (game_ Examples.alice_gone)
             (<[1%nat := SetDirection
                           (SetVelocity
                              (SetBagCapacity
                                 (new_dog 2 "Carol" "town" (mkPosition 0 0)) 3)
                              (mkVelocity 1 0)) East]>
                (dogs (game_ Examples.alice_gone)))))
       match player_metadata_ Examples.alice_gone !! player_id Examples.bob with
       | Some it =>
           if is_retired it then player_metadata_ Examples.alice_gone
           else <[player_id Examples.bob :=
                    idle_after it (negb (is_zero (mkVelocity 1 0))) 50]>
                  (player_metadata_ Examples.alice_gone)
       | None => player_metadata_ Examples.alice_gone
       end, true).
Proof.
  apply (SetPlayerAction_accepted Examples.bob "R" 50 Examples.alice_gone 1
           (SetBagCapacity (new_dog 2 "Carol" "town" (mkPosition 0 0)) 3)
           0 (Examples.town 1 3 []) (mkVelocity 1 0) East);
    vm_compute; reflexivity.
Qed.

(** C7 fails as stated, in two ways.  On a map whose dog speed is 0 the
    movement command L is accepted, leaves the dog at rest, and the
    idle-start time, unset before, is set to [now] instead of being
    cleared.  And once Alice has been retired from among four players, the
    indices are stale: Bob's command R is accepted and sets the velocity of
    Carol's dog, and Dave's command is refused although his dog and his map
    are in the game. *)
Lemma SetPlayerAction_counterexample :
  let a := Examples.alice_alone 0 in
  let r := SetPlayerAction Examples.alice "L" 50 a in
  let s := Examples.alice_gone in
  let rb := SetPlayerAction Examples.bob "R" 50 s in
  (snd r = true /\
   player_metadata_ (fst r) !! 0%Z = Some (mkPlayerMetadata 10 (Some 50%Z) false) /\
   player_metadata_ (fst r) !! 0%Z <> Some (mkPlayerMetadata 10 None false)) /\
  players (game_ s) = [Examples.bob; Examples.carol; Examples.dave] /\
  (fun d => (dog_id d, dog_name d)) <$> dogs (game_ s)
  = [(1%Z, "Bob"%string); (2%Z, "Carol"%string); (3%Z, "Dave"%string)] /\
  FindMap (game_ s) "town" = Some (0%nat, Examples.town 1 3 []) /\
  snd rb = true /\
  (fun d => (dog_name d, dog_velocity d)) <$> dogs (game_ (fst rb))
  = [("Bob"%string, mkVelocity 0 0); ("Carol"%string, mkVelocity 1 0);
     ("Dave"%string, mkVelocity 0 0)] /\
  SetPlayerAction Examples.dave "R" 50 s = (s, false).
Proof.
  cbv zeta. split; [|split; [|split; [|split; [|split; [|split]]]]].
  - assert (Hs : SetPlayerAction Examples.alice "L" 50 (Examples.alice_alone 0) = _)
      by (apply (SetPlayerAction_accepted Examples.alice "L" 50 (Examples.alice_alone 0) 0
                   (SetBagCapacity (new_dog 0 "Alice" "town" (mkPosition 0 0)) 3)
                   0 (Examples.town 0 3 []) (mkVelocity (- 0) 0) West);
          vm_compute; reflexivity).
    rewrite Hs. rewrite is_zero_true by (simpl; lra).
    split; [reflexivity|].
    assert (Hm : forall md, md = Some (mkPlayerMetadata 10 (Some 50%Z) false) ->
                   md = Some (mkPlayerMetadata 10 (Some 50%Z) false) /\
                   md <> Some (mkPlayerMetadata 10 None false))
      by (intros md ->; split; [reflexivity|discriminate]).
    apply Hm. vm_compute. reflexivity.
  - vm_compute. reflexivity.
  - vm_compute. reflexivity.
  - vm_compute. reflexivity.
  - now rewrite alice_gone_bob.
  - rewrite alice_gone_bob.
    cbn [fst game_ set_player_metadata set_game dogs set_dogs].
    vm_compute. reflexivity.
  - unfold SetPlayerAction.
    replace (FindDog (game_ Examples.alice_gone) (player_dog_id Examples.dave))
      with (@None (nat * Dog)) by (vm_compute; reflexivity).
    reflexivity.
Qed.

(** X7.  [SetPlayerAction] touches the velocity and the direction of one
    dog, the one at the position the dog-id index gives for the player's
    dog id, and the metadata of the player, and nothing else: maps,
    players, indices and counters stay, no dog changes identity, bag, score
    or position, no dog at another position changes at all, and no other
    player's metadata changes; a refused call changes nothing.  While the
    registry is in order the dog touched is the player's own: every dog
    with another id stays as it is. *)
Theorem SetPlayerAction_frame (player : Player) (move : string) (now : Z)
    (a : Application) :
  let r := SetPlayerAction player move now a in
  let a' := fst r in
  (snd r = false -> a' = a) /\
  maps (game_ a') = maps (game_ a) /\
  session (game_ a') = session (game_ a) /\
  dog_identity <$> dogs (game_ a') = dog_identity <$> dogs (game_ a) /\
  dog_holdings <$> dogs (game_ a') = dog_holdings <$> dogs (game_ a) /\
  dog_position <$> dogs (game_ a') = dog_position <$> dogs (game_ a) /\
  (forall i d, FindDog (game_ a) (player_dog_id player) = Some (i, d) ->
     forall k, k <> i -> dogs (game_ a') !! k = dogs (game_ a) !! k) /\
  (FindDog (game_ a) (player_dog_id player) = None ->
     dogs (game_ a') = dogs (game_ a)) /\
  (registry_ok (game_ a) ->
     forall k d, dogs (game_ a) !! k = Some d -> dog_id d <> player_dog_id player ->
                 dogs (game_ a') !! k = Some d) /\
  (forall id, id <> player_id player ->
     player_metadata_ a' !! id = player_metadata_ a !! id) /\
  (next_loot_id a', next_dog_id a', next_player_id a')
    = (next_loot_id a, next_dog_id a, next_player_id a).
Proof.
  cbv zeta. unfold SetPlayerAction.
  destruct (FindDog (game_ a) (player_dog_id player)) as [[i dog]|] eqn:Hd.
  2: { repeat split; intros; try discriminate; assumption. }
  destruct (FindMap (game_ a) (player_map_id player)) as [[j m]|].
  2: { repeat split; intros; try discriminate; assumption. }
  destruct (decode_move _ _ _) as [[v d]|].
  2: { repeat split; intros; try discriminate; assumption. }
  pose proof Hd as Hfind. apply FindDog_lookup in Hd. simpl.
  assert (Hins : forall {B} (f : Dog -> B),
            f (SetDirection (SetVelocity dog v) d) = f dog ->
            f <$> <[i := SetDirection (SetVelocity dog v) d]> (dogs (game_ a))
            = f <$> dogs (game_ a)).
  { intros B f Hf. rewrite list_fmap_insert, Hf.
    apply list_insert_id. now rewrite list_lookup_fmap, Hd. }
  split; [discriminate|].
  repeat split; try (apply Hins; reflexivity).
  - intros i0 d0 [= <- <-] k Hk. now apply list_lookup_insert_ne.
  - discriminate.
  - intros (_ & _ & _ & _ & Hdg) k d0 Hk Hne.
    rewrite list_lookup_insert_ne; [assumption|]. intros <-.
    unfold FindDog in Hfind.
    destruct (dog_id_to_index (game_ a) !! player_dog_id player) as [i0|] eqn:Hi0;
      [|discriminate].
    destruct (Hdg _ _ Hi0) as (d1 & Hd1 & Hid).
    rewrite Hd1 in Hfind. injection Hfind as -> ->. congruence.
  - intros id Hid.
    destruct (player_metadata_ a !! player_id player) as [it|]; [|reflexivity].
    destruct (is_retired it); [reflexivity|].
    destruct (is_zero v).
    + destruct (idle_start_time it); [reflexivity|]. now apply lookup_insert_ne.
    + now apply lookup_insert_ne.
Qed.

Lemma decode_move_direction move speed dog v d dog' :
  decode_move move speed dog = Some (v, d) ->
  dog_direction dog' = d ->
  decode_move move speed dog' = Some (v, d).
Proof.
  unfold decode_move. intros H Hd.
  repeat (case_bool_decide; [exact H|]).
  case_bool_decide; [|discriminate]. injection H as <- <-. now rewrite Hd.
Qed.

(** X23.  Sending the same action again changes nothing, whatever the clock
    reads by then, and gets the same answer: the dog keeps its velocity and
    direction, and a player who was already standing still keeps the
    idle-start time of the first stop. *)
Theorem SetPlayerAction_repeated (player : Player) (move : string) (now now' : Z)
    (a : Application) :
  let r := SetPlayerAction player move now a in
  SetPlayerAction player move now' (fst r) = r.
Proof.
  cbv zeta. unfold SetPlayerAction at 2 3.
  destruct (FindDog (game_ a) (player_dog_id player)) as [[i dog]|] eqn:Hd.
  2: { simpl. unfold SetPlayerAction. now rewrite Hd. }
  destruct (FindMap (game_ a) (player_map_id player)) as [[j m]|] eqn:Hm.
  2: { simpl. unfold SetPlayerAction. now rewrite Hd, Hm. }
  destruct (decode_move move (GetDogSpeedForMap (game_ a) (player_map_id player)) dog)
    as [[v d]|] eqn:Hdec.
  2: { simpl. unfold SetPlayerAction. now rewrite Hd, Hm, Hdec. }
  cbn [fst].
  change (player_metadata_ (set_game a (set_dogs (game_ a)
            (<[i := SetDirection (SetVelocity dog v) d]> (dogs (game_ a))))))
    with (player_metadata_ a).
  set (dog' := SetDirection (SetVelocity dog v) d).
  set (md' := match _ with Some it => _ | None => _ end).
  pose proof (FindDog_lookup _ _ _ _ Hd) as Hi.
  assert (Hidx : dog_id_to_index (game_ a) !! player_dog_id player = Some i).
  { unfold FindDog in Hd. destruct (dog_id_to_index (game_ a) !! _) as [i0|]; [|discriminate].
    destruct (dogs (game_ a) !! i0); [|discriminate]. now injection Hd as -> _. }
  unfold SetPlayerAction.
  assert (Hd' : FindDog (game_ (set_player_metadata
                   (set_game a (set_dogs (game_ a) (<[i := dog']> (dogs (game_ a))))) md'))
                  (player_dog_id player) = Some (i, dog')).
  { unfold FindDog. simpl. rewrite Hidx.
    rewrite list_lookup_insert_eq by (eapply lookup_lt_Some; eassumption). reflexivity. }
  rewrite Hd'. clear Hd'.
  assert (Hm' : FindMap (game_ (set_player_metadata
                   (set_game a (set_dogs (game_ a) (<[i := dog']> (dogs (game_ a))))) md'))
                  (player_map_id player) = Some (j, m)) by exact Hm.
  rewrite Hm'.
  assert (Hs : GetDogSpeedForMap (game_ (set_player_metadata
                   (set_game a (set_dogs (game_ a) (<[i := dog']> (dogs (game_ a))))) md'))
                  (player_map_id player)
               = GetDogSpeedForMap (game_ a) (player_map_id player)) by reflexivity.
  rewrite Hs. rewrite (decode_move_direction _ _ _ _ _ dog' Hdec) by reflexivity.
  assert (Hdog : SetDirection (SetVelocity dog' v) d = dog') by reflexivity.
  rewrite Hdog. cbn [game_ set_player_metadata set_game set_dogs dogs player_metadata_].
  rewrite list_insert_insert_eq.
  assert (Hmd : match md' !! player_id player with
                | Some it =>
                    if is_retired it then md'
                    else if is_zero v then
                      match idle_start_time it with
                      | Some _ => md'
                      | None => <[player_id player := set_idle_start_time it (Some now')]> md'
                      end
                    else <[player_id player := set_idle_start_time it None]> md'
                | None => md'
                end = md').
  { subst md'.
    destruct (player_metadata_ a !! player_id player) as [it|] eqn:Hit.
    2: { now rewrite Hit. }
    destruct (is_retired it) eqn:Hr.
    { now rewrite Hit, Hr. }
    destruct (is_zero v) eqn:Hz.
    - destruct (idle_start_time it) as [t0|] eqn:Ht.
      + now rewrite Hit, Hr, Ht.
      + rewrite lookup_insert_eq. simpl. now rewrite Hr.
    - rewrite lookup_insert_eq. simpl. rewrite Hr.
      unfold set_idle_start_time. simpl. apply insert_insert_eq. }
  rewrite Hmd. reflexivity.
Qed.

Lemma filter_sublist {A} (f : A -> bool) (l : list A) : List.filter f l `sublist_of` l.
Proof.
  induction l as [|x l IH]; simpl; [constructor|].
  destruct (f x); [now apply sublist_skip|now apply sublist_cons].
Qed.

Lemma loot_only_leaves_refl ms : loot_only_leaves ms ms.
Proof. induction ms; constructor; [split; reflexivity|assumption]. Qed.

Lemma loot_only_leaves_trans ms1 ms2 ms3 :
  loot_only_leaves ms1 ms2 -> loot_only_leaves ms2 ms3 -> loot_only_leaves ms1 ms3.
Proof.
  intros H. revert ms3. induction H as [|m1 m2 l1 l2 [Ht Hs] _ IH]; intros ms3 H3.
  - inversion H3. constructor.
  - inversion H3 as [|? m3 ? l3 [Ht' Hs'] H']; subst. constructor.
    + split; [congruence|]. etransitivity; eassumption.
    + now apply IH.
Qed.

Lemma loot_only_leaves_insert ms i m m' :
  ms !! i = Some m -> map_topology m' = map_topology m ->
  map_loot_items m' `sublist_of` map_loot_items m ->
  loot_only_leaves ms (<[i := m']> ms).
Proof.
  revert i. induction ms as [|x l IH]; intros [|i] Hi Ht Hs; simpl in *; try discriminate.
  - injection Hi as ->. constructor; [now split|apply loot_only_leaves_refl].
  - constructor; [split; reflexivity|now apply IH].
Qed.

Lemma apply_event_frame st ev :
  let st' := apply_event st ev in
  map_topology (fst st') = map_topology (fst st) /\
  map_loot_items (fst st') `sublist_of` map_loot_items (fst st) /\
  dog_identity (snd st') = dog_identity (snd st) /\
  (dog_position (snd st'), dog_velocity (snd st'), dog_direction (snd st'))
  = (dog_position (snd st), dog_velocity (snd st), dog_direction (snd st)).
Proof.
  destruct st as [m dog]. unfold apply_event. simpl.
  destruct (type ev); try (repeat split; reflexivity).
  - destruct (IsBagFull dog); [repeat split; reflexivity|].
    destruct (item_id ev) as [id|]; [|repeat split; reflexivity].
    destruct (FindLootItem m id) as [item|]; [|repeat split; reflexivity].
    simpl. repeat split. apply filter_sublist.
  - rewrite add_scores. repeat split; reflexivity.
Qed.

Lemma apply_events_frame evs st :
  let st' := fold_left apply_event evs st in
  map_topology (fst st') = map_topology (fst st) /\
  map_loot_items (fst st') `sublist_of` map_loot_items (fst st) /\
  dog_identity (snd st') = dog_identity (snd st) /\
  (dog_position (snd st'), dog_velocity (snd st'), dog_direction (snd st'))
  = (dog_position (snd st), dog_velocity (snd st), dog_direction (snd st)).
Proof.
  revert st. induction evs as [|ev evs IH]; intros st; simpl.
  - repeat split; reflexivity.
  - destruct (IH (apply_event st ev)) as (H1 & H2 & H3 & H4).
    destruct (apply_event_frame st ev) as (G1 & G2 & G3 & G4).
    split; [congruence|]. split; [etransitivity; eassumption|].
    split; congruence.
Qed.

Lemma ProcessDogCollisions_frame {E : Externals} g dog s e :
  let r := ProcessDogCollisions g dog s e in
  session (fst r) = session g /\ dogs (fst r) = dogs g /\
  loot_only_leaves (maps g) (maps (fst r)) /\
  dog_identity (snd r) = dog_identity dog /\
  (dog_position (snd r), dog_velocity (snd r), dog_direction (snd r))
  = (dog_position dog, dog_velocity dog, dog_direction dog).
Proof.
  cbv zeta. unfold ProcessDogCollisions.
  destruct (FindMap g (dog_map_id dog)) as [[i m]|] eqn:Hm.
  2: { repeat split. apply loot_only_leaves_refl. }
  destruct (apply_events_frame (applied_events m dog s e) (m, dog)) as (H1 & H2 & H3 & H4).
  destruct (fold_left apply_event _ (m, dog)) as [m' dog']; simpl in *.
  repeat split; try assumption; try congruence.
  apply loot_only_leaves_insert with m; try assumption.
  unfold FindMap in Hm. now apply list_find_Some in Hm.
Qed.

Lemma MoveDog_frame {E : Externals} g dog dt :
  dog_identity (MoveDog g dog dt) = dog_identity dog /\
  dog_holdings (MoveDog g dog dt) = dog_holdings dog /\
  dog_direction (MoveDog g dog dt) = dog_direction dog.
Proof.
  unfold MoveDog. destruct (is_zero _); [repeat split|].
  destruct (FindMap _ _); [|repeat split].
  destruct (collision_occurred _); repeat split.
Qed.

Lemma update_dogs_frame {E : Externals} dt ds g :
  let r := update_dogs dt g ds in
  session (fst r) = session g /\ dogs (fst r) = dogs g /\
  loot_only_leaves (maps g) (maps (fst r)) /\
  dog_identity <$> snd r = dog_identity <$> ds /\
  dog_direction <$> snd r = dog_direction <$> ds.
Proof.
  revert g. induction ds as [|dog rest IH]; intros g; simpl.
  - repeat split. apply loot_only_leaves_refl.
  - destruct (MoveDog_frame g dog dt) as (M1 & _ & M3).
    destruct (ProcessDogCollisions_frame g (MoveDog g dog dt) (dog_position dog)
                (dog_position (MoveDog g dog dt))) as (P1 & P2 & P3 & P4 & P5).
    destruct (ProcessDogCollisions g _ _ _) as [g1 dog2]; simpl in *.
    destruct (IH g1) as (I1 & I2 & I3 & I4 & I5).
    destruct (update_dogs dt g1 rest) as [g2 rest']; simpl in *.
    split; [congruence|]. split; [congruence|].
    split; [eapply loot_only_leaves_trans; eassumption|].
    split; f_equal; try assumption; congruence.
Qed.

(** X8.  [UpdateGameState] keeps the players and the three indices, keeps
    the dogs in their order with their identity and the direction they
    face, and leaves every map as it is but for loot items taken off it:
    the update neither adds loot nor reorders it. *)
Theorem UpdateGameState_frame {E : Externals} (g : Game) (dt : R) :
  let g' := UpdateGameState g dt in
  session g' = session g /\
  dog_identity <$> dogs g' = dog_identity <$> dogs g /\
  dog_direction <$> dogs g' = dog_direction <$> dogs g /\
  loot_only_leaves (maps g) (maps g').
Proof.
  cbv zeta. unfold UpdateGameState.
  destruct (update_dogs_frame dt (dogs g) g) as (H1 & H2 & H3 & H4 & H5).
  destruct (update_dogs dt g (dogs g)) as [g' ds]; simpl in *.
  repeat split; assumption.
Qed.

(** ** The value in the game *)

Section Worth.
Local Open Scope Z_scope.

Lemma sum_of_insert {A} (f : A -> Z) (l : list A) i a b :
  l !! i = Some a -> sum_of f (<[i := b]> l) = sum_of f l - f a + f b.
Proof.
  revert i. induction l as [|c l IH]; intros [|i] Hi; simpl in *; try discriminate.
  - injection Hi as ->. lia.
  - rewrite (IH i Hi). lia.
Qed.

Lemma sum_of_remove_found (l : list LootItem) id item :
  NoDup (loot_id <$> l) ->
  List.find (fun l => bool_decide (loot_id l = id)) l = Some item ->
  sum_of loot_value (List.filter (fun l => negb (bool_decide (loot_id l = loot_id item))) l)
  = sum_of loot_value l - loot_value item.
Proof.
  induction l as [|a l IH]; simpl; intros Hnd Hf; [discriminate|].
  apply NoDup_cons in Hnd. destruct Hnd as [Hnin Hnd].
  case_bool_decide as Ha.
  - injection Hf as <-. rewrite bool_decide_eq_true_2 by reflexivity. simpl.
    assert (Hl : List.filter (fun l0 => negb (bool_decide (loot_id l0 = loot_id a))) l = l).
    { clear -Hnin. induction l as [|b l IH]; simpl; [reflexivity|].
      rewrite fmap_cons, not_elem_of_cons in Hnin. destruct Hnin as [Hb Hnin].
      rewrite bool_decide_eq_false_2 by congruence. simpl. now rewrite IH. }
    rewrite Hl. lia.
  - assert (Hid : loot_id item = id).
    { apply List.find_some in Hf. destruct Hf as [_ Hf].
      now apply bool_decide_eq_true_1 in Hf. }
    rewrite bool_decide_eq_false_2 by congruence. simpl.
    rewrite (IH Hnd Hf). lia.
Qed.

Lemma apply_event_worth st ev :
  NoDup (loot_id <$> map_loot_items (fst st)) ->
  loot_worth (fst (apply_event st ev)) + dog_worth (snd (apply_event st ev))
  = loot_worth (fst st) + dog_worth (snd st).
Proof.
  destruct st as [m dog]. unfold apply_event. simpl. intros Hnd.
  destruct (type ev); try reflexivity.
  - destruct (IsBagFull dog); [reflexivity|].
    destruct (item_id ev) as [id|]; [|reflexivity].
    destruct (FindLootItem m id) as [item|] eqn:Hf; [|reflexivity].
    unfold loot_worth, dog_worth, RemoveLootItem, AddToBag. simpl.
    rewrite (sum_of_remove_found _ id item Hnd Hf), bag_value_app. simpl. lia.
  - rewrite add_scores. unfold dog_worth, ClearBag, AddScore. simpl. lia.
Qed.

Lemma apply_events_worth evs st :
  NoDup (loot_id <$> map_loot_items (fst st)) ->
  loot_worth (fst (fold_left apply_event evs st))
  + dog_worth (snd (fold_left apply_event evs st))
  = loot_worth (fst st) + dog_worth (snd st).
Proof.
  revert st. induction evs as [|ev rest IH]; intros st Hnd; simpl; [reflexivity|].
  rewrite IH by now apply apply_event_unique. now apply apply_event_worth.
Qed.

Lemma ProcessDogCollisions_worth {E : Externals} g dog s e :
  loot_ids_unique (maps g) ->
  sum_of loot_worth (maps (fst (ProcessDogCollisions g dog s e)))
  + dog_worth (snd (ProcessDogCollisions g dog s e))
  = sum_of loot_worth (maps g) + dog_worth dog.
Proof.
  unfold loot_ids_unique, ProcessDogCollisions, FindMap. intros Hu.
  destruct (list_find _ (maps g)) as [[i m]|] eqn:Hfind; [|reflexivity].
  apply list_find_Some in Hfind. destruct Hfind as (Hi & _ & _).
  pose proof (apply_events_worth (applied_events m dog s e) (m, dog)) as Hw.
  destruct (fold_left apply_event _ (m, dog)) as [m' dog']; simpl in *.
  rewrite (sum_of_insert _ _ _ m) by assumption.
  rewrite Forall_lookup in Hu. specialize (Hw (Hu i m Hi)). lia.
Qed.

Lemma MoveDog_worth {E : Externals} g dog dt : dog_worth (MoveDog g dog dt) = dog_worth dog.
Proof.
  unfold MoveDog. destruct (is_zero _); [reflexivity|].
  destruct (FindMap _ _); [|reflexivity].
  now destruct (collision_occurred _).
Qed.

Lemma update_dogs_worth {E : Externals} dt ds g :
  loot_ids_unique (maps g) ->
  sum_of loot_worth (maps (fst (update_dogs dt g ds)))
  + sum_of dog_worth (snd (update_dogs dt g ds))
  = sum_of loot_worth (maps g) + sum_of dog_worth ds.
Proof.
  revert g. induction ds as [|dog rest IH]; intros g Hu; simpl; [reflexivity|].
  pose proof (ProcessDogCollisions_worth g (MoveDog g dog dt) (dog_position dog)
                (dog_position (MoveDog g dog dt)) Hu) as Hw.
  pose proof (ProcessDogCollisions_unique g (MoveDog g dog dt) (dog_position dog)
                (dog_position (MoveDog g dog dt)) Hu) as Hu1.
  rewrite MoveDog_worth in Hw.
  destruct (ProcessDogCollisions g _ _ _) as [g1 dog2]; simpl in *.
  specialize (IH g1 Hu1). destruct (update_dogs dt g1 rest) as [g2 rest']; simpl in *.
  lia.
Qed.

(** X9.  While loot ids are unique on every map, [UpdateGameState] neither
    creates nor loses value: the values of the loot on the maps, of the
    items in the bags and the scores add up to the same total before and
    after (a pickup moves the value of one item into a bag, an office return
    moves the value of the bag into the score). *)
Theorem UpdateGameState_conserves_value {E : Externals} (g : Game) (dt : R) :
  loot_ids_unique (maps g) ->
  game_worth (UpdateGameState g dt) = game_worth g.
Proof.
  intros Hu. unfold game_worth, UpdateGameState.
  pose proof (update_dogs_worth dt (dogs g) g Hu) as Hw.
  destruct (update_dogs dt g (dogs g)) as [g' ds]. exact Hw.
Qed.

End Worth.

Lemma UpdateGameState_conserves_value_witness :
  game_worth (UpdateGameState (E := Examples.free_world) Scenario.twin_game 1)
  = game_worth Scenario.twin_game.
Proof.
  apply (UpdateGameState_conserves_value (E := Examples.free_world)
           Scenario.twin_game 1).
  repeat constructor; rewrite ?elem_of_cons, ?elem_of_nil;
    intros Hin; decompose [or] Hin; try discriminate; assumption.
Defined.

Lemma reachable_loot_ids_unique_witness :
  loot_ids_unique
    (maps (game_ (fst (Tick (E := Examples.free_world) 50 1000 (fun _ => 1000%Z)
                         (initial_application
                            [Examples.town 1 1 Examples.twin_loot] false Chrono.sixty_seconds true))))).
Proof.
  apply (reachable_loot_ids_unique (E := Examples.free_world)
           [Examples.town 1 1 Examples.twin_loot]).
  - repeat constructor; rewrite ?elem_of_cons, ?elem_of_nil;
      intros Hin; decompose [or] Hin; try discriminate; assumption.
  - apply reachable_tick, reachable_initial.
Defined.

(** ** The events of a motion *)




(** ** Replenishing the loot *)

Lemma generate_for_maps_stocked ms c :
  let r := generate_for_maps ms c in
  Forall (fun m => has_loot m = true) (fst r) /\
  snd r = (c + 5 * Z.of_nat (length (List.filter (fun m => negb (has_loot m)) ms)))%Z.
Proof.
  cbv zeta. rewrite generate_for_maps_replenish. revert c.
  induction ms as [|m rest IH]; intros c; simpl.
  - split; [constructor|lia].
  - unfold has_loot at 2. destruct (map_loot_items m) as [|l ls] eqn:Hl.
    + destruct (IH (c + 5)%Z) as [I1 I2].
      destruct (replenish rest (c + 5)) as [ms' c']; simpl in *.
      split; [constructor; [reflexivity|assumption]|]. lia.
    + destruct (IH c) as [I1 I2].
      destruct (replenish rest c) as [ms' c']; simpl in *.
      split; [constructor; [|assumption]|assumption].
      unfold has_loot. now rewrite Hl.
Qed.

Lemma generate_for_maps_fixed ms c :
  Forall (fun m => has_loot m = true) ms -> generate_for_maps ms c = (ms, c).
Proof.
  rewrite generate_for_maps_replenish.
  induction 1 as [|m rest Hm _ IH]; simpl; [reflexivity|].
  unfold has_loot in Hm. destruct (map_loot_items m); [discriminate|].
  now rewrite IH.
Qed.

(** X12.  [GenerateLootItems] leaves no map without loot, draws five ids
    from the counter for every map that had none, and running it again
    right away changes nothing. *)
Theorem GenerateLootItems_stocks_once (a : Application) :
  let a' := GenerateLootItems a in
  Forall (fun m => map_loot_items m <> []) (maps (game_ a')) /\
  next_loot_id a' =
    (next_loot_id a
     + 5 * Z.of_nat (length (List.filter (fun m => negb (has_loot m)) (maps (game_ a)))))%Z /\
  GenerateLootItems a' = a'.
Proof.
  cbv zeta. unfold GenerateLootItems.
  destruct (generate_for_maps_stocked (maps (game_ a)) (next_loot_id a)) as [H1 H2].
  destruct (generate_for_maps (maps (game_ a)) (next_loot_id a)) as [ms c]; simpl in *.
  split; [|split; [assumption|]].
  - eapply Forall_impl; [exact H1|]. intros m Hm Hn. unfold has_loot in Hm.
    now rewrite Hn in Hm.
  - now rewrite generate_for_maps_fixed.
Qed.

(** ** Ticks and retirement *)

Lemma RetirePlayer_metadata now id a k :
  player_metadata_ (fst (RetirePlayer now id a)) !! k = player_metadata_ a !! k \/
  (k = id /\ exists it, player_metadata_ a !! id = Some it /\ is_retired it = false /\
     player_metadata_ (fst (RetirePlayer now id a)) !! id
     = Some (mkPlayerMetadata (join_time it) (idle_start_time it) true)).
Proof.
  unfold RetirePlayer.
  destruct (player_metadata_ a !! id) as [it|] eqn:Hit; [|now left].
  destruct (is_retired it) eqn:Hr; [now left|].
  destruct (FindPlayer (game_ a) id) as [player|]; [|now left].
  destruct (FindDog (game_ a) (player_dog_id player)) as [[i dog]|]; [|now left].
  simpl. destruct (decide (k = id)) as [->|Hne].
  - right. split; [reflexivity|]. exists it. rewrite lookup_insert_eq. auto.
  - left. now apply lookup_insert_ne.
Qed.

Lemma RetirePlayer_config now id a :
  retirement_callback_ (fst (RetirePlayer now id a)) = retirement_callback_ a /\
  dog_retirement_time_seconds_ (fst (RetirePlayer now id a))
  = dog_retirement_time_seconds_ a.
Proof.
  unfold RetirePlayer.
  destruct (player_metadata_ a !! id) as [it|]; [|now split].
  destruct (is_retired it); [now split|].
  destruct (FindPlayer (game_ a) id) as [player|]; [|now split].
  destruct (FindDog (game_ a) (player_dog_id player)) as [[i dog]|]; now split.
Qed.

Lemma RetirePlayer_frozen now id a k it :
  player_metadata_ a !! k = Some it -> is_retired it = true ->
  player_metadata_ (fst (RetirePlayer now id a)) !! k = Some it.
Proof.
  intros Hk Hr. destruct (RetirePlayer_metadata now id a k) as [->|(-> & it' & H1 & H2 & _)];
    [assumption|congruence].
Qed.

Lemma retire_fold_frozen rc ids st k it :
  player_metadata_ (fst st) !! k = Some it -> is_retired it = true ->
  player_metadata_ (fst (fold_left (retire_step rc) ids st)) !! k = Some it.
Proof.
  revert st. induction ids as [|id rest IH]; intros st Hk Hr; simpl; [assumption|].
  apply IH; [|assumption]. unfold retire_step.
  pose proof (RetirePlayer_frozen (rc id) id (fst st) k it Hk Hr) as H.
  now destruct (RetirePlayer (rc id) id (fst st)).
Qed.

Lemma retire_fold_flips rc ids st k it it' :
  player_metadata_ (fst st) !! k = Some it -> is_retired it = false ->
  player_metadata_ (fst (fold_left (retire_step rc) ids st)) !! k = Some it' ->
  is_retired it' = true -> k ∈ ids.
Proof.
  revert st it. induction ids as [|id rest IH]; intros st it Hk Hr Hk' Hr'; simpl in *.
  - congruence.
  - destruct (decide (k = id)) as [->|Hne]; [left|right].
    unfold retire_step in Hk'.
    destruct (RetirePlayer_metadata (rc id) id (fst st) k) as [Heq|[Heq _]];
      [|contradiction].
    destruct (RetirePlayer (rc id) id (fst st)) as [a1 e] eqn:HR. simpl in *.
    apply (IH (a1, snd st ++ match e with Some r => [r] | None => [] end) it);
      simpl; try assumption. congruence.
Qed.

Lemma UpdateGameState_GenerateLootItems_metadata {E : Externals} a dt :
  let a2 := GenerateLootItems (set_game a (UpdateGameState (game_ a) dt)) in
  player_metadata_ a2 = player_metadata_ a /\
  dog_retirement_time_seconds_ a2 = dog_retirement_time_seconds_ a /\
  retirement_callback_ a2 = retirement_callback_ a.
Proof.
  cbv zeta. unfold GenerateLootItems. simpl.
  destruct (generate_for_maps _ _). simpl. auto.
Qed.

Lemma fmap_filter_sublist {A B} (f : A -> B) (p : A -> bool) (l : list A) :
  f <$> List.filter p l `sublist_of` f <$> l.
Proof.
  induction l as [|x l IH]; simpl; [constructor|].
  destruct (p x); simpl; [now apply sublist_skip|now apply sublist_cons].
Qed.

Lemma RetirePlayer_frame now id a :
  let r := RetirePlayer now id a in
  maps (game_ (fst r)) = maps (game_ a) /\
  players (game_ (fst r)) `sublist_of` players (game_ a) /\
  dog_identity <$> dogs (game_ (fst r)) `sublist_of` dog_identity <$> dogs (game_ a) /\
  (next_loot_id (fst r), next_dog_id (fst r), next_player_id (fst r))
  = (next_loot_id a, next_dog_id a, next_player_id a) /\
  (retirement_callback_ a = false -> snd r = None) /\
  (forall k, option_map join_time (player_metadata_ (fst r) !! k)
             = option_map join_time (player_metadata_ a !! k)).
Proof.
  cbv zeta. unfold RetirePlayer.
  destruct (player_metadata_ a !! id) as [it|] eqn:Hit; [|now repeat split].
  destruct (is_retired it); [now repeat split|].
  destruct (FindPlayer (game_ a) id) as [player|]; [|now repeat split].
  destruct (FindDog (game_ a) (player_dog_id player)) as [[i dog]|]; [|now repeat split].
  simpl. repeat split.
  - apply filter_sublist.
  - apply fmap_filter_sublist.
  - now intros ->.
  - intros k. destruct (decide (k = id)) as [->|Hne].
    + now rewrite lookup_insert_eq, Hit.
    + now rewrite lookup_insert_ne by congruence.
Qed.

Lemma retire_fold_frame rc ids st :
  let r := fold_left (retire_step rc) ids st in
  maps (game_ (fst r)) = maps (game_ (fst st)) /\
  players (game_ (fst r)) `sublist_of` players (game_ (fst st)) /\
  dog_identity <$> dogs (game_ (fst r)) `sublist_of` dog_identity <$> dogs (game_ (fst st)) /\
  (next_loot_id (fst r), next_dog_id (fst r), next_player_id (fst r))
  = (next_loot_id (fst st), next_dog_id (fst st), next_player_id (fst st)) /\
  (retirement_callback_ (fst st) = false -> snd r = snd st) /\
  (forall k, option_map join_time (player_metadata_ (fst r) !! k)
             = option_map join_time (player_metadata_ (fst st) !! k)).
Proof.
  revert st. induction ids as [|id rest IH]; intros st; simpl.
  - repeat split; reflexivity.
  - destruct (RetirePlayer_frame (rc id) id (fst st)) as (R1 & R2 & R3 & R4 & R5 & R6).
    destruct (RetirePlayer_config (rc id) id (fst st)) as (C1 & _).
    specialize (IH (retire_step rc st id)). cbv zeta in IH.
    unfold retire_step in *.
    destruct (RetirePlayer (rc id) id (fst st)) as [a1 e]; simpl in *.
    destruct IH as (I1 & I2 & I3 & I4 & I5 & I6).
    split; [congruence|]. split; [etransitivity; eassumption|].
    split; [etransitivity; eassumption|]. split; [congruence|]. split.
    + intros Hcb. rewrite I5 by congruence. rewrite (R5 Hcb). apply app_nil_r.
    + intros k. now rewrite I6, R6.
Qed.

Lemma check_entry_join_time now a id it :
  join_time (fst (check_entry now a id it)) = join_time it.
Proof.
  unfold check_entry. destruct (is_retired it); [reflexivity|].
  destruct (FindPlayer _ _); [|reflexivity].
  destruct (FindDog _ _) as [[i dog]|]; [|reflexivity].
  destruct (is_zero _); [|reflexivity].
  destruct (idle_start_time it); [|reflexivity].
  destruct (Chrono.reaches _ _); reflexivity.
Qed.

Lemma RetirePlayer_record now id a r :
  snd (RetirePlayer now id a) = Some r ->
  exists it p i d,
    player_metadata_ a !! id = Some it /\ is_retired it = false /\
    FindPlayer (game_ a) id = Some p /\
    FindDog (game_ a) (player_dog_id p) = Some (i, d) /\
    r = mkRetiredPlayer (player_name p) (dog_score d)
          (Chrono.seconds_of_count (duration_cast_milliseconds (now - join_time it))) /\
    exists it', player_metadata_ (fst (RetirePlayer now id a)) !! id = Some it' /\
                is_retired it' = true.
Proof.
  unfold RetirePlayer.
  destruct (player_metadata_ a !! id) as [it|] eqn:Hit; [|discriminate].
  destruct (is_retired it) eqn:Hr; [discriminate|].
  destruct (FindPlayer (game_ a) id) as [player|] eqn:Hp; [|discriminate].
  destruct (FindDog (game_ a) (player_dog_id player)) as [[i dog]|] eqn:Hd; [|discriminate].
  simpl. destruct (retirement_callback_ a); [|discriminate].
  intros [= <-]. exists it, player, i, dog.
  split; [reflexivity|]. split; [assumption|]. split; [reflexivity|].
  split; [assumption|]. split; [reflexivity|].
  eexists. rewrite lookup_insert_eq. split; reflexivity.
Qed.

Lemma FindPlayer_elem g id p : FindPlayer g id = Some p -> p ∈ players g.
Proof.
  unfold FindPlayer. destruct (player_id_to_index g !! id) as [i|]; [|discriminate].
  intros H. eapply list_elem_of_lookup_2; eassumption.
Qed.

Lemma FindDog_elem g id i d : FindDog g id = Some (i, d) -> d ∈ dogs g.
Proof. intros H. apply FindDog_lookup in H. eapply list_elem_of_lookup_2; eassumption. Qed.

Lemma RetirePlayer_dogs now id a :
  dogs (game_ (fst (RetirePlayer now id a))) `sublist_of` dogs (game_ a).
Proof.
  unfold RetirePlayer.
  destruct (player_metadata_ a !! id) as [it|]; [|reflexivity].
  destruct (is_retired it); [reflexivity|].
  destruct (FindPlayer (game_ a) id) as [player|]; [|reflexivity].
  destruct (FindDog (game_ a) (player_dog_id player)) as [[i dog]|]; [|reflexivity].
  simpl. apply filter_sublist.
Qed.

(** Every record of a run of retirements comes from an entry that the run
    retires; its name is that of a player and its score that of a dog of
    the game the run starts from. *)
Lemma retire_fold_records rc ids st r :
  r ∈ snd (fold_left (retire_step rc) ids st) ->
  r ∈ snd st \/
  exists id it p d,
    player_metadata_ (fst st) !! id = Some it /\ is_retired it = false /\
    p ∈ players (game_ (fst st)) /\ d ∈ dogs (game_ (fst st)) /\
    r = mkRetiredPlayer (player_name p) (dog_score d)
          (Chrono.seconds_of_count (duration_cast_milliseconds (rc id - join_time it))) /\
    exists it', player_metadata_ (fst (fold_left (retire_step rc) ids st)) !! id
                = Some it' /\ is_retired it' = true.
Proof.
  revert st. induction ids as [|id0 rest IH]; intros st Hr; simpl in *; [now left|].
  apply IH in Hr. clear IH.
  pose proof (RetirePlayer_record (rc id0) id0 (fst st)) as Hrec.
  pose proof (RetirePlayer_metadata (rc id0) id0 (fst st)) as Hmd.
  pose proof (RetirePlayer_frame (rc id0) id0 (fst st)) as (_ & Hpl & _).
  pose proof (RetirePlayer_dogs (rc id0) id0 (fst st)) as Hdg.
  pose proof (fun k it => retire_fold_frozen rc rest (retire_step rc st id0) k it) as Hfr.
  unfold retire_step in *.
  destruct (RetirePlayer (rc id0) id0 (fst st)) as [a1 e]; simpl in *.
  destruct Hr as [Hr|(id & it & p & d & Hit & Hnr & Hp & Hd & Hrec' & Hafter)].
  - apply elem_of_app in Hr. destruct Hr as [Hr|Hr]; [now left|].
    destruct e as [r0|]; [|inversion Hr].
    apply list_elem_of_singleton in Hr. subst r0.
    destruct (Hrec r eq_refl) as (it & p & i & d & Hit & Hnr & Hp & Hd & Hre & it' & Hit' & Hr').
    right. exists id0, it, p, d. split; [assumption|]. split; [assumption|].
    split; [eapply FindPlayer_elem; eassumption|].
    split; [eapply FindDog_elem; eassumption|]. split; [assumption|].
    exists it'. split; [|assumption]. now apply Hfr.
  - right. destruct (Hmd id) as [Heq|(-> & it0 & _ & _ & Hflip)].
    + exists id, it, p, d. rewrite <- Heq. split; [assumption|]. split; [assumption|].
      split; [eapply elem_of_sublist; eassumption|].
      split; [eapply elem_of_sublist; eassumption|]. split; assumption.
    + rewrite Hflip in Hit. injection Hit as <-. discriminate.
Qed.

Lemma retire_fold_appends rc ids st :
  exists more, snd (fold_left (retire_step rc) ids st) = snd st ++ more.
Proof.
  revert st. induction ids as [|id rest IH]; intros st; simpl.
  - exists []. now rewrite app_nil_r.
  - destruct (IH (retire_step rc st id)) as [more ->]. unfold retire_step.
    destruct (RetirePlayer (rc id) id (fst st)) as [a1 e]; simpl.
    eexists. now rewrite <- List.app_assoc.
Qed.

Lemma RetirePlayer_silent now id a :
  snd (RetirePlayer now id a) = None -> retirement_callback_ a = true ->
  fst (RetirePlayer now id a) = a.
Proof.
  unfold RetirePlayer.
  destruct (player_metadata_ a !! id) as [it|]; [|reflexivity].
  destruct (is_retired it); [reflexivity|].
  destruct (FindPlayer (game_ a) id) as [player|]; [|reflexivity].
  destruct (FindDog (game_ a) (player_dog_id player)) as [[i dog]|]; [|reflexivity].
  simpl. intros H Hcb. rewrite Hcb in H. discriminate.
Qed.

(** The first record of a run of retirements is made in the state the run
    starts from. *)
Lemma retire_fold_first rc ids a r more :
  snd (fold_left (retire_step rc) ids (a, [])) = r :: more ->
  exists id it p i d,
    player_metadata_ a !! id = Some it /\ is_retired it = false /\
    FindPlayer (game_ a) id = Some p /\
    FindDog (game_ a) (player_dog_id p) = Some (i, d) /\
    r = mkRetiredPlayer (player_name p) (dog_score d)
          (Chrono.seconds_of_count (duration_cast_milliseconds (rc id - join_time it))).
Proof.
  destruct (retirement_callback_ a) eqn:Hc.
  - revert a Hc. induction ids as [|id rest IH]; intros a Hc; simpl; [discriminate|].
    unfold retire_step at 2. simpl.
    pose proof (RetirePlayer_record (rc id) id a) as Hrec.
    pose proof (RetirePlayer_silent (rc id) id a) as Hsil.
    destruct (RetirePlayer (rc id) id a) as [a1 [r0|]]; simpl in *.
    + destruct (retire_fold_appends rc rest (a1, [r0])) as [more' ->]. simpl.
      intros [= <- _].
      destruct (Hrec r0 eq_refl) as (it & p & i & d & H1 & H2 & H3 & H4 & H5 & _).
      exists id, it, p, i, d. repeat split; assumption.
    + rewrite (Hsil eq_refl Hc). now apply IH.
  - destruct (retire_fold_frame rc ids (a, [])) as (_ & _ & _ & _ & F5 & _).
    simpl in F5. rewrite (F5 Hc). discriminate.
Qed.

(** The session and the identity of the dogs decide whether the registry
    is in order. *)
Lemma registry_ok_transfer g g' :
  session g' = session g -> dog_identity <$> dogs g' = dog_identity <$> dogs g ->
  registry_ok g -> registry_ok g'.
Proof.
  unfold session. intros Hs Hd (Hlen & Hp & Ht & Hk & Hdg).
  injection Hs as Hs1 Hs2 Hs3 Hs4.
  assert (Hdog : forall i d, dogs g !! i = Some d ->
            exists d', dogs g' !! i = Some d' /\ dog_id d' = dog_id d).
  { intros i d Hi. apply (f_equal (fun l => l !! i)) in Hd.
    rewrite !list_lookup_fmap, Hi in Hd. simpl in Hd.
    destruct (dogs g' !! i) as [d'|]; [|discriminate]. simpl in Hd.
    injection Hd as Hd. exists d'. split; [reflexivity|].
    unfold dog_identity in Hd. congruence. }
  unfold registry_ok. rewrite Hs1, Hs2, Hs3, Hs4.
  split; [|split; [|split; [|split]]]; try assumption.
  - rewrite <- Hlen. apply (f_equal length) in Hd. now rewrite !length_fmap in Hd.
  - intros i p Hi. destruct (Hp i p Hi) as (H1 & H2 & d & H3 & H4 & H5).
    split; [assumption|]. split; [assumption|].
    destruct (Hdog i d H3) as (d' & Hd' & Hid). exists d'. rewrite Hid. auto.
  - intros k i Hi. destruct (Hdg k i Hi) as (d & H1 & H2).
    destruct (Hdog i d H1) as (d' & Hd' & Hid). exists d'. split; [assumption|congruence].
Qed.

Lemma tick_update_session {E : Externals} a dt :
  let a2 := GenerateLootItems (set_game a (UpdateGameState (game_ a) dt)) in
  session (game_ a2) = session (game_ a) /\
  dog_identity <$> dogs (game_ a2) = dog_identity <$> dogs (game_ a) /\
  dogs (game_ a2) = dogs (UpdateGameState (game_ a) dt).
Proof.
  cbv zeta. unfold GenerateLootItems. simpl. destruct (generate_for_maps _ _). simpl.
  unfold UpdateGameState.
  destruct (update_dogs_frame dt (dogs (game_ a)) (game_ a)) as (H1 & _ & _ & H4 & _).
  destruct (update_dogs _ _ _) as [g' ds]. simpl in *.
  split; [exact H1|]. split; [exact H4|reflexivity].
Qed.


Lemma idle_alice_update :
  UpdateGameState (E := Examples.free_world) idle_game 0 = idle_game.
Proof.
  unfold UpdateGameState, idle_game. cbn [dogs update_dogs].
  unfold MoveDog. rewrite is_zero_true by reflexivity.
  unfold ProcessDogCollisions.
  replace (FindMap _ (dog_map_id idle_dog)) with (Some (0%nat, meadow))
    by (vm_compute; reflexivity).
  unfold applied_events, gather_events, loot_events, office_events.
  cbn [map_loot_items map_offices meadow omap list_omap app].
  cbn [Examples.free_world fold_right fold_left].
  reflexivity.
Qed.

Lemma map_imap_singleton {A B} (f : Z -> A -> option B) (k : Z) (v : A) (w : B) :
  f k v = Some w -> map_imap f ({[k := v]} : gmap Z A) = {[k := w]}.
Proof.
  intros Hf. apply map_eq. intros j. rewrite map_lookup_imap.
  destruct (decide (j = k)) as [->|Hne].
  - rewrite !lookup_singleton_eq. exact Hf.
  - now rewrite !lookup_singleton_ne by congruence.
Qed.

Lemma idle_alice_tick :
  Tick (E := Examples.free_world) 0 a_minute (fun _ => a_bit_later) idle_alice
  = (mkApplication
       (mkGame [set_loot meadow (seed_items 0)] [] [] ∅ ∅ ∅) false
                Chrono.sixty_seconds
       {[0%Z := mkPlayerMetadata 0 (Some 0%Z) true]} true 5 1 1,
     [mkRetiredPlayer "Alice" 0 (Chrono.seconds_of_count 61000)]).
Proof.
  unfold Tick. cbn [game_ idle_alice].
  replace (IZR 0 / 1000) with 0 by lra.
  rewrite idle_alice_update.
  unfold GenerateLootItems. rewrite generate_for_maps_replenish.
  cbn [set_game game_ maps idle_game replenish map_loot_items meadow next_loot_id
       randomize_spawn_points_ dog_retirement_time_seconds_ player_metadata_
       retirement_callback_ next_dog_id next_player_id].
  unfold CheckPlayerRetirement.
  cbn [player_metadata_ idle_alice randomize_spawn_points_
       dog_retirement_time_seconds_ retirement_callback_ next_loot_id next_dog_id
       next_player_id].
  match goal with |- context [check_entry _ ?a _ _] => set (a2 := a) end.
  assert (Hce : check_entry a_minute a2 0 (mkPlayerMetadata 0 (Some 0%Z) false)
                = (mkPlayerMetadata 0 (Some 0%Z) false, true)).
  { unfold check_entry. cbn [is_retired].
    replace (FindPlayer (game_ a2) 0) with (Some Examples.alice)
      by (vm_compute; reflexivity).
    replace (FindDog (game_ a2) (player_dog_id Examples.alice))
      with (Some (0%nat, idle_dog)) by (vm_compute; reflexivity).
    rewrite is_zero_true by reflexivity. cbn [idle_start_time].
    unfold duration_cast_milliseconds, a_minute. cbn [dog_retirement_time_seconds_ a2].
    change ((60000000000 - 0) ÷ 1000000)%Z with 60000%Z.
    reflexivity. }
  rewrite map_to_list_singleton. cbn [omap list_omap fst snd]. rewrite Hce. cbn [snd].
  rewrite (map_imap_singleton _ _ _ (mkPlayerMetadata 0 (Some 0%Z) false))
    by (now rewrite Hce).
  unfold retire_all. cbn [fold_left]. unfold retire_step, a2.
  vm_compute. reflexivity.
Qed.


(** X13.  A tick never adds a player or a dog and never reorders them, never
    draws a player id or a dog id, keeps the set of metadata entries and
    every join time, and hands nothing to the callback when none is
    installed. *)
Theorem Tick_frame {E : Externals} (delta now : Z) (retire_clock : Z -> Z)
    (a : Application) :
  let r := Tick delta now retire_clock a in
  players (game_ (fst r)) `sublist_of` players (game_ a) /\
  dog_identity <$> dogs (game_ (fst r)) `sublist_of` dog_identity <$> dogs (game_ a) /\
  (next_dog_id (fst r), next_player_id (fst r)) = (next_dog_id a, next_player_id a) /\
  (forall id, option_map join_time (player_metadata_ (fst r) !! id)
              = option_map join_time (player_metadata_ a !! id)) /\
  (retirement_callback_ a = false -> snd r = []).
Proof.
  cbv zeta. unfold Tick, CheckPlayerRetirement, retire_all.
  destruct (UpdateGameState_GenerateLootItems_metadata a (IZR delta / 1000))
    as (Hmd & _ & Hcb). cbv zeta in Hmd, Hcb.
  assert (Hg : players (game_ (GenerateLootItems
                 (set_game a (UpdateGameState (game_ a) (IZR delta / 1000)))))
               = players (game_ a) /\
               dog_identity <$> dogs (game_ (GenerateLootItems
                 (set_game a (UpdateGameState (game_ a) (IZR delta / 1000)))))
               = dog_identity <$> dogs (game_ a) /\
               (next_dog_id (GenerateLootItems
                 (set_game a (UpdateGameState (game_ a) (IZR delta / 1000)))),
                next_player_id (GenerateLootItems
                 (set_game a (UpdateGameState (game_ a) (IZR delta / 1000)))))
               = (next_dog_id a, next_player_id a)).
  { unfold GenerateLootItems. simpl. destruct (generate_for_maps _ _). simpl.
    unfold UpdateGameState.
    destruct (update_dogs_frame (IZR delta / 1000) (dogs (game_ a)) (game_ a))
      as (H1 & _ & _ & H4 & _).
    destruct (update_dogs _ _ _) as [g' ds]. simpl in *.
    unfold session in H1. split; [congruence|]. split; [assumption|reflexivity]. }
  set (a2 := GenerateLootItems _) in *.
  destruct Hg as (Hp & Hd & Hn).
  match goal with |- context [fold_left ?f ?ids ?st] =>
    destruct (retire_fold_frame retire_clock ids st) as (_ & F2 & F3 & F4 & F5 & F6) end.
  simpl in F2, F3, F4, F5, F6.
  rewrite Hp in F2. rewrite Hd in F3.
  repeat split; try assumption.
  - injection F4 as _ F4a F4b. injection Hn as Hn1 Hn2. congruence.
  - intros id. rewrite F6, map_lookup_imap, Hmd.
    destruct (player_metadata_ a !! id) as [it|]; [|reflexivity]. simpl.
    now rewrite check_entry_join_time.
  - intros Hf. apply F5. congruence.
Qed.

(** A player idle for 100 whole milliseconds has reached a retirement time
    of 0.1 seconds: the quotient is rounded to the same [double]. *)
Lemma a_tenth_of_a_second_is_reached :
  Chrono.reaches (Chrono.seconds_of_count 100) Chrono.a_tenth = true.
Proof. vm_compute. reflexivity. Qed.

(** X14.  A tick retires only the idle: a player whose retired flag goes up
    during a tick had an idle-start time on record before the tick, and the
    whole milliseconds from it to the clock reading of the tick, divided by
    1000.0 in [double] arithmetic, are not below the retirement time. *)
Theorem Tick_retires_only_idle {E : Externals} (delta now : Z) (retire_clock : Z -> Z)
    (a : Application) (id : Z) (it it' : PlayerMetadata) :
  player_metadata_ a !! id = Some it -> is_retired it = false ->
  player_metadata_ (fst (Tick delta now retire_clock a)) !! id = Some it' ->
  is_retired it' = true ->
  exists t0,
    idle_start_time it = Some t0 /\
    PrimFloat.leb (dog_retirement_time_seconds_ a)
      (PrimFloat.div (Chrono.double_of_int64 (duration_cast_milliseconds (now - t0)))
                     Chrono.thousand)
    = true.
Proof.
  intros Hit Hr Hit' Hr'. unfold Tick, CheckPlayerRetirement, retire_all in Hit'.
  destruct (UpdateGameState_GenerateLootItems_metadata a (IZR delta / 1000))
    as (Hmd & Hth & _). cbv zeta in Hmd, Hth.
  set (a2 := GenerateLootItems _) in *.
  assert (Hin : id ∈ omap (fun e : Z * PlayerMetadata =>
                   if snd (check_entry now a2 (fst e) (snd e)) then Some (fst e) else None)
                  (map_to_list (player_metadata_ a2))).
  { eapply retire_fold_flips; [| |exact Hit'|exact Hr'].
    - simpl. rewrite map_lookup_imap, Hmd, Hit. simpl. reflexivity.
    - unfold check_entry. rewrite Hr.
      destruct (FindPlayer _ _); [|assumption].
      destruct (FindDog _ _) as [[i dog]|]; [|assumption].
      destruct (is_zero _); [|assumption].
      destruct (idle_start_time it); [|assumption].
      destruct (Chrono.reaches _ _); assumption. }
  apply list_elem_of_omap in Hin. destruct Hin as ([k md] & Hkm & Hq). simpl in Hq.
  destruct (snd (check_entry now a2 k md)) eqn:Hc; [|discriminate].
  injection Hq as ->. apply elem_of_map_to_list in Hkm.
  rewrite Hmd, Hit in Hkm. injection Hkm as <-.
  unfold check_entry in Hc. rewrite Hr in Hc.
  destruct (FindPlayer _ _); [|discriminate].
  destruct (FindDog _ _) as [[i dog]|]; [|discriminate].
  destruct (is_zero _); [|discriminate].
  destruct (idle_start_time it) as [t0|]; [|discriminate].
  exists t0. split; [reflexivity|].
  destruct (Chrono.reaches _ _) eqn:Hge; [|discriminate].
  rewrite <- Hth. exact Hge.
Qed.

Lemma Tick_retires_only_idle_witness :
  exists t0,
    idle_start_time (mkPlayerMetadata 0 (Some 0%Z) false) = Some t0 /\
    PrimFloat.leb (dog_retirement_time_seconds_ idle_alice)
      (PrimFloat.div (Chrono.double_of_int64 (duration_cast_milliseconds (a_minute - t0)))
                     Chrono.thousand)
    = true.
Proof.
  apply (Tick_retires_only_idle (E := Examples.free_world) 0 a_minute
           (fun _ => a_bit_later) idle_alice 0
           (mkPlayerMetadata 0 (Some 0%Z) false) (mkPlayerMetadata 0 (Some 0%Z) true)).
  - reflexivity.
  - reflexivity.
  - now rewrite idle_alice_tick.
  - reflexivity.
Defined.




(** X15.  Every record a tick hands to the callback stems from a metadata
    entry that this tick retires: its play time is the time from the join
    time of that entry to the clock reading of the retirement, cut to whole
    milliseconds and divided by 1000.0 in [double] arithmetic.  Its name is
    that of a player who was in the game before the tick and its score that
    of a dog of the game as the update of this tick left it: the player the
    player-id index gives for the retired id at that moment and the dog the
    dog-id index gives for that player's dog id.  For the first record of a
    tick that starts with the registry in order, they are the retired
    player and its own dog. *)
Theorem Tick_records_play_time {E : Externals} (delta now : Z) (retire_clock : Z -> Z)
    (a : Application) (r : RetiredPlayer) :
  r ∈ snd (Tick delta now retire_clock a) ->
  (exists id it it' p d,
     player_metadata_ a !! id = Some it /\ is_retired it = false /\
     player_metadata_ (fst (Tick delta now retire_clock a)) !! id = Some it' /\
     is_retired it' = true /\
     p ∈ players (game_ a) /\
     d ∈ dogs (UpdateGameState (game_ a) (IZR delta / 1000)) /\
     r = mkRetiredPlayer (player_name p) (dog_score d)
           (Chrono.seconds_of_count
              (duration_cast_milliseconds (retire_clock id - join_time it)))) /\
  (registry_ok (game_ a) ->
   forall more, snd (Tick delta now retire_clock a) = r :: more ->
   exists id it p d,
     player_metadata_ a !! id = Some it /\ is_retired it = false /\
     p ∈ players (game_ a) /\ player_id p = id /\
     d ∈ dogs (UpdateGameState (game_ a) (IZR delta / 1000)) /\
     dog_id d = player_dog_id p /\
     r = mkRetiredPlayer (player_name p) (dog_score d)
           (Chrono.seconds_of_count
              (duration_cast_milliseconds (retire_clock id - join_time it)))).
Proof.
  unfold Tick, CheckPlayerRetirement, retire_all. intros Hr.
  destruct (UpdateGameState_GenerateLootItems_metadata a (IZR delta / 1000))
    as (Hmd & _ & _). cbv zeta in Hmd.
  destruct (tick_update_session a (IZR delta / 1000)) as (Hses & Hids & Hdogs).
  cbv zeta in Hses, Hids, Hdogs.
  set (a2 := GenerateLootItems _) in *.
  assert (Hsame : forall id it, is_retired (fst (check_entry now a2 id it)) = is_retired it).
  { intros id it. unfold check_entry. destruct (is_retired it) eqn:Hi; [assumption|].
    destruct (FindPlayer _ _); [|assumption].
    destruct (FindDog _ _) as [[i dog]|]; [|assumption].
    destruct (is_zero _); [|assumption].
    destruct (idle_start_time it); [|assumption].
    destruct (Chrono.reaches _ _); assumption. }
  assert (Hpl : players (game_ a2) = players (game_ a)).
  { unfold session in Hses. now injection Hses. }
  split.
  - apply retire_fold_records in Hr.
    destruct Hr as [Hr|(id & it1 & p & d & Hit1 & Hnr & Hp & Hd & Hrec & it' & Hit' & Hr')];
      [inversion Hr|].
    simpl in Hit1, Hp, Hd. rewrite map_lookup_imap, Hmd in Hit1.
    destruct (player_metadata_ a !! id) as [it|] eqn:Hit; [|discriminate].
    simpl in Hit1. injection Hit1 as <-.
    exists id, it, it', p, d. split; [exact Hit|].
    split; [now rewrite <- (Hsame id it)|]. split; [assumption|]. split; [assumption|].
    split; [now rewrite <- Hpl|]. split; [now rewrite <- Hdogs|].
    now rewrite check_entry_join_time in Hrec.
  - intros Hok more Hfirst. apply retire_fold_first in Hfirst.
    destruct Hfirst as (id & it1 & p & i & d & Hit1 & Hnr & Hp & Hd & Hrec).
    simpl in Hit1, Hp, Hd. rewrite map_lookup_imap, Hmd in Hit1.
    destruct (player_metadata_ a !! id) as [it|] eqn:Hit; [|discriminate].
    simpl in Hit1. injection Hit1 as <-.
    assert (Hok2 : registry_ok (game_ a2)) by (eapply registry_ok_transfer; eassumption).
    destruct Hok2 as (_ & _ & _ & Hk & Hdg).
    exists id, it, p, d. split; [exact Hit|]. split; [now rewrite <- (Hsame id it)|].
    split; [rewrite <- Hpl; eapply FindPlayer_elem; eassumption|].
    split.
    { unfold FindPlayer in Hp.
      destruct (player_id_to_index (game_ a2) !! id) as [j|] eqn:Hj; [|discriminate].
      destruct (Hk id j Hj) as (q & Hq & Hqid). congruence. }
    split; [rewrite <- Hdogs; eapply FindDog_elem; eassumption|].
    split.
    { unfold FindDog in Hd.
      destruct (dog_id_to_index (game_ a2) !! player_dog_id p) as [j|] eqn:Hj;
        [|discriminate].
      destruct (Hdg _ j Hj) as (q & Hq & Hqid).
      destruct (dogs (game_ a2) !! j) as [d0|]; [|discriminate].
      injection Hd as _ <-. congruence. }
    now rewrite check_entry_join_time in Hrec.
Qed.

Lemma Tick_records_play_time_witness :
  let r := mkRetiredPlayer "Alice" 0 (Chrono.seconds_of_count 61000) in
  exists id it it' p d,
    player_metadata_ idle_alice !! id = Some it /\ is_retired it = false /\
    player_metadata_ (fst (Tick (E := Examples.free_world) 0 a_minute
                             (fun _ => a_bit_later) idle_alice)) !! id = Some it' /\
    is_retired it' = true /\
    p ∈ players (game_ idle_alice) /\
    d ∈ dogs (UpdateGameState (E := Examples.free_world) (game_ idle_alice)
                (IZR 0 / 1000)) /\
    r = mkRetiredPlayer (player_name p) (dog_score d)
          (Chrono.seconds_of_count
             (duration_cast_milliseconds (a_bit_later - join_time it))).
Proof.
  apply (Tick_records_play_time (E := Examples.free_world) 0 a_minute
           (fun _ => a_bit_later) idle_alice).
  rewrite idle_alice_tick. left.
Defined.

(** X16.  Retirement is final: the metadata entry of a retired player is
    changed neither by an action nor by a tick, and by a join only if the
    player-id counter has wrapped round to that very id. *)
Theorem retired_metadata_is_frozen {E : Externals} (a : Application) (id : Z)
    (it : PlayerMetadata) :
  player_metadata_ a !! id = Some it -> is_retired it = true ->
  (forall player move now,
     player_metadata_ (fst (SetPlayerAction player move now a)) !! id = Some it) /\
  (forall delta now retire_clock,
     player_metadata_ (fst (Tick delta now retire_clock a)) !! id = Some it) /\
  (forall user_name map_id_ token position now,
     id <> next_player_id a ->
     player_metadata_ (fst (JoinGame user_name map_id_ token position now a)) !! id
     = Some it).
Proof.
  intros Hit Hr. split; [|split].
  - intros player move now. unfold SetPlayerAction.
    destruct (FindDog _ _) as [[i dog]|]; [|assumption].
    destruct (FindMap _ _) as [[j m]|]; [|assumption].
    destruct (decode_move _ _ _) as [[v d]|]; [|assumption]. simpl.
    destruct (decide (id = player_id player)) as [->|Hne].
    + now rewrite Hit, Hr.
    + destruct (player_metadata_ a !! player_id player) as [it0|]; [|assumption].
      destruct (is_retired it0); [assumption|].
      destruct (is_zero v).
      * destruct (idle_start_time it0); [assumption|].
        rewrite lookup_insert_ne by congruence. assumption.
      * rewrite lookup_insert_ne by congruence. assumption.
  - intros delta now rc. unfold Tick, CheckPlayerRetirement, retire_all.
    destruct (UpdateGameState_GenerateLootItems_metadata a (IZR delta / 1000))
      as (Hmd & _ & _). cbv zeta in Hmd.
    apply retire_fold_frozen; [|assumption]. simpl.
    rewrite map_lookup_imap, Hmd, Hit. simpl.
    unfold check_entry. now rewrite Hr.
  - intros user_name map_id_ token position now Hne. unfold JoinGame.
    destruct (FindMap _ _) as [[j m]|]; [|assumption].
    case_bool_decide; [assumption|]. simpl.
    rewrite lookup_insert_ne by congruence. assumption.
Qed.

Lemma retired_metadata_is_frozen_witness :
  (forall player move now,
     player_metadata_ (fst (SetPlayerAction player move now Scenario.retired_alice))
       !! 0%Z = Some (mkPlayerMetadata 0 (Some 0%Z) true)) /\
  (forall delta now retire_clock,
     player_metadata_ (fst (Tick (E := Examples.free_world) delta now retire_clock
                              Scenario.retired_alice))
       !! 0%Z = Some (mkPlayerMetadata 0 (Some 0%Z) true)) /\
  (forall user_name map_id_ token position now,
     0%Z <> next_player_id Scenario.retired_alice ->
     player_metadata_ (fst (JoinGame (E := Examples.free_world) user_name map_id_
                              token position now Scenario.retired_alice))
       !! 0%Z = Some (mkPlayerMetadata 0 (Some 0%Z) true)).
Proof.
  apply (retired_metadata_is_frozen (E := Examples.free_world)
           Scenario.retired_alice 0 (mkPlayerMetadata 0 (Some 0%Z) true)).
  - reflexivity.
  - reflexivity.
Defined.

(** ** The session token *)

Section TokenProperties.
Import Stdlib.Strings.Ascii Token.
Local Open Scope Z_scope.

Lemma fixed_digits_zero fuel acc :
  fixed_digits fuel 0 acc = replicate fuel "0"%char ++ acc.
Proof.
  revert acc. induction fuel as [|f IH]; intros acc; simpl; [reflexivity|].
  change (0 / 16) with 0. change (hex_digit (0 mod 16)) with "0"%char.
  rewrite IH. change ("0"%char :: acc) with ([ "0"%char ] ++ acc).
  rewrite List.app_assoc. f_equal.
  clear. induction f; simpl; [reflexivity|]. now f_equal.
Qed.

Lemma hex_digits_length fuel n acc :
  (length acc <= length (hex_digits fuel n acc) <= fuel + length acc)%nat.
Proof.
  revert n acc. induction fuel as [|f IH]; intros n acc; simpl; [lia|].
  destruct (n / 16 =? 0); simpl; [lia|].
  specialize (IH (n / 16) (hex_digit (n mod 16) :: acc)). simpl in IH. lia.
Qed.

Lemma fixed_digits_setw fuel n acc :
  fixed_digits fuel n acc
  = replicate (fuel - (length (hex_digits fuel n acc) - length acc)) "0"%char
    ++ hex_digits fuel n acc.
Proof.
  revert n acc. induction fuel as [|f IH]; intros n acc; [reflexivity|].
  cbn [fixed_digits hex_digits].
  destruct (n / 16 =? 0) eqn:Hq.
  - apply Z.eqb_eq in Hq. rewrite Hq, fixed_digits_zero. simpl.
    replace (S (length acc) - length acc)%nat with 1%nat by lia.
    now replace (S f - 1)%nat with f by lia.
  - rewrite IH. f_equal. f_equal.
    pose proof (hex_digits_length f (n / 16) (hex_digit (n mod 16) :: acc)) as H.
    simpl in *. lia.
Qed.

Lemma setw_to_hex n : setw 16 "0"%char (to_hex n) = fixed_digits 16 n [].
Proof.
  unfold setw, to_hex. rewrite fixed_digits_setw. simpl length.
  now rewrite Nat.sub_0_r.
Qed.

Lemma fixed_digits_length fuel n acc :
  length (fixed_digits fuel n acc) = (fuel + length acc)%nat.
Proof.
  revert n acc. induction fuel as [|f IH]; intros n acc; simpl; [reflexivity|].
  rewrite IH. simpl. lia.
Qed.

Lemma hex_digit_alphabet d : 0 <= d < 16 -> hex_digit d ∈ hex_alphabet.
Proof.
  intros Hd. unfold hex_digit. apply list_elem_of_In, nth_In.
  change (length hex_alphabet) with 16%nat. lia.
Qed.

Lemma fixed_digits_alphabet fuel n acc :
  Forall (fun c => c ∈ hex_alphabet) acc ->
  Forall (fun c => c ∈ hex_alphabet) (fixed_digits fuel n acc).
Proof.
  revert n acc. induction fuel as [|f IH]; intros n acc Hacc; simpl; [assumption|].
  apply IH. constructor; [|assumption]. apply hex_digit_alphabet.
  apply Z.mod_pos_bound. lia.
Qed.

Lemma digit_value_hex_digit d : 0 <= d < 16 -> digit_value (hex_digit d) = Some d.
Proof.
  intros Hd.
  assert (Hc : d = 0 \/ d = 1 \/ d = 2 \/ d = 3 \/ d = 4 \/ d = 5 \/ d = 6 \/ d = 7 \/
               d = 8 \/ d = 9 \/ d = 10 \/ d = 11 \/ d = 12 \/ d = 13 \/ d = 14 \/ d = 15)
    by lia.
  repeat (destruct Hc as [->|Hc]; [vm_compute; reflexivity|]). subst. reflexivity.
Qed.

Lemma fold_fixed_digits fuel n acc v :
  0 <= n < 16 ^ Z.of_nat fuel ->
  fold_left (fun v c => v * 16 + default 0 (digit_value c)) (fixed_digits fuel n acc) v
  = fold_left (fun v c => v * 16 + default 0 (digit_value c)) acc
              (v * 16 ^ Z.of_nat fuel + n).
Proof.
  revert n acc v. induction fuel as [|f IH]; intros n acc v Hn.
  - simpl in *. f_equal. lia.
  - cbn [fixed_digits]. rewrite Nat2Z.inj_succ, Z.pow_succ_r in * by lia.
    rewrite IH.
    2: { split; [apply Z.div_pos; lia|]. apply Z.div_lt_upper_bound; lia. }
    simpl. rewrite digit_value_hex_digit by (apply Z.mod_pos_bound; lia). simpl.
    f_equal. pose proof (Z.div_mod n 16). lia.
Qed.

Lemma hex_value_fixed_digits n :
  0 <= n < 2 ^ 64 -> hex_value (fixed_digits 16 n []) = n.
Proof.
  intros Hn. unfold hex_value. rewrite fold_fixed_digits; [reflexivity|].
  change (16 ^ Z.of_nat 16) with (2 ^ 64). lia.
Qed.

Lemma list_ascii_GenerateToken p1 p2 :
  list_ascii_of_string (GenerateToken p1 p2)
  = fixed_digits 16 p1 [] ++ fixed_digits 16 p2 [].
Proof.
  unfold GenerateToken. now rewrite list_ascii_of_string_of_list_ascii, !setw_to_hex.
Qed.

Lemma parse_GenerateToken p1 p2 :
  0 <= p1 < 2 ^ 64 -> 0 <= p2 < 2 ^ 64 ->
  parse_token (GenerateToken p1 p2) = (p1, p2).
Proof.
  intros H1 H2. unfold parse_token. rewrite list_ascii_GenerateToken.
  rewrite take_app_length', drop_app_length'
    by (rewrite fixed_digits_length; reflexivity).
  now rewrite !hex_value_fixed_digits.
Qed.

Lemma string_length_list s : String.length s = length (list_ascii_of_string s).
Proof. induction s; simpl; congruence. Qed.

(** X17.  A token is 32 characters long, all of them digits or the letters
    a to f, and reads back as the two 64-bit words it was made from: the
    first 16 characters are the first word, the last 16 the second, each
    padded with zeros on the left. *)
Theorem GenerateToken_format (part1 part2 : Z) :
  0 <= part1 < 2 ^ 64 -> 0 <= part2 < 2 ^ 64 ->
  String.length (GenerateToken part1 part2) = 32%nat /\
  Forall (fun c => c ∈ hex_alphabet) (list_ascii_of_string (GenerateToken part1 part2)) /\
  parse_token (GenerateToken part1 part2) = (part1, part2).
Proof.
  intros H1 H2. split; [|split].
  - rewrite string_length_list, list_ascii_GenerateToken, length_app,
      !fixed_digits_length. reflexivity.
  - rewrite list_ascii_GenerateToken. apply Forall_app.
    split; apply fixed_digits_alphabet; constructor.
  - now apply parse_GenerateToken.
Qed.

Lemma GenerateToken_format_witness :
  String.length (GenerateToken 26 255) = 32%nat /\
  Forall (fun c => c ∈ hex_alphabet) (list_ascii_of_string (GenerateToken 26 255)) /\
  parse_token (GenerateToken 26 255) = (26, 255).
Proof.
  apply (GenerateToken_format 26 255); lia.
Defined.

(** X18.  Two tokens are equal only if they were made from the same two
    words: tokens collide only when the random words do. *)
Theorem GenerateToken_injective (p1 p2 q1 q2 : Z) :
  0 <= p1 < 2 ^ 64 -> 0 <= p2 < 2 ^ 64 -> 0 <= q1 < 2 ^ 64 -> 0 <= q2 < 2 ^ 64 ->
  GenerateToken p1 p2 = GenerateToken q1 q2 -> p1 = q1 /\ p2 = q2.
Proof.
  intros Hp1 Hp2 Hq1 Hq2 Heq.
  pose proof (parse_GenerateToken p1 p2 Hp1 Hp2) as Hp.
  rewrite Heq, parse_GenerateToken in Hp by assumption.
  now injection Hp as -> ->.
Qed.

Lemma GenerateToken_injective_witness :
  GenerateToken 26 255 = GenerateToken 26 255 /\ (26 = 26 /\ 255 = 255).
Proof.
  split; [reflexivity|].
  apply (GenerateToken_injective 26 255 26 255); try lia. reflexivity.
Defined.

End TokenProperties.

(** ** The connection pool *)

Section PoolProperties.
Import Pool.
Context {Conn : Type}.

Lemma live_app (l1 l2 : list (option Conn)) : live (l1 ++ l2) = live l1 ++ live l2.
Proof. apply omap_app. Qed.

Lemma live_replicate_None n : live (replicate n (@None Conn)) = [].
Proof. induction n; simpl; [reflexivity|assumption]. Qed.

Lemma live_delete (held : list (option Conn)) k c :
  held !! k = Some (Some c) -> Permutation (live held) (c :: live (delete k held)).
Proof.
  revert k. induction held as [|h held IH]; intros [|k] Hk; simpl in *; try discriminate.
  - injection Hk as ->. reflexivity.
  - destruct h as [c'|]; simpl.
    + rewrite (IH k Hk). apply perm_swap.
    + fold (live held). fold (live (delete k held)). now apply IH.
Qed.

Lemma step_ok (st : State Conn) o :
  pool_ok st ->
  exists st', step st o = Some st' /\ pool_ok st' /\
    length (pool_ (fst st')) = length (pool_ (fst st)) /\
    Permutation (live (pool_ (fst st')) ++ live (snd st'))
                (live (pool_ (fst st)) ++ live (snd st)).
Proof.
  destruct st as [[pool used] held]. intros (Hle & Hlen & Htake & Hdrop & Hheld).
  simpl in *. destruct o as [|k]; simpl.
  - unfold GetConnection. simpl. destruct (decide (used < length pool)%nat) as [Hlt|Hge].
    2: { eexists. split; [reflexivity|]. repeat split; try assumption; reflexivity. }
    destruct (pool !! used) as [conn|] eqn:Hu.
    2: { apply lookup_ge_None in Hu. lia. }
    eexists. split; [reflexivity|]. simpl.
    assert (Hc : is_Some conn).
    { rewrite Forall_forall in Hdrop. apply Hdrop.
      apply list_elem_of_lookup. exists 0%nat. rewrite lookup_drop.
      now rewrite Nat.add_0_r. }
    destruct Hc as [c ->].
    assert (Hsplit : pool = replicate used None ++ Some c :: drop (S used) pool).
    { rewrite <- Htake. rewrite <- (take_drop_middle pool used (Some c)) at 1 by assumption.
      reflexivity. }
    assert (Hins : <[used := None]> pool
                   = replicate (S used) None ++ drop (S used) pool).
    { rewrite Hsplit at 1.
      rewrite insert_app_r_alt by (rewrite length_replicate; lia).
      rewrite length_replicate, Nat.sub_diag. simpl.
      generalize (drop (S used) pool). clear. intros l.
      induction used; simpl; [reflexivity|]. now f_equal. }
    repeat split.
    + rewrite length_insert. lia.
    + simpl. lia.
    + rewrite Hins. rewrite take_app_length'; [reflexivity|].
      now rewrite length_replicate.
    + rewrite Hins. rewrite drop_app_length' by now rewrite length_replicate.
      replace (drop (S used) pool) with (drop 1 (drop used pool)).
      2: { rewrite drop_drop. f_equal. lia. }
      now apply Forall_drop.
    + constructor; [now exists c|assumption].
    + apply length_insert.
    + rewrite Hins. rewrite Hsplit at 2.
      rewrite !live_app, !live_replicate_None. simpl.
      fold (live (drop (S used) pool)). fold (live held).
      apply Permutation_sym, Permutation_middle.
  - destruct (held !! k) as [conn|] eqn:Hk.
    2: { eexists. split; [reflexivity|]. repeat split; try assumption; reflexivity. }
    assert (Hc : is_Some conn).
    { rewrite Forall_forall in Hheld. apply Hheld.
      apply list_elem_of_lookup. now exists k. }
    destruct Hc as [c ->]. simpl. unfold ReturnConnection. simpl.
    destruct used as [|n].
    { apply lookup_lt_Some in Hk. lia. }
    eexists. split; [reflexivity|]. simpl.
    assert (Hn : (n < length pool)%nat) by lia.
    assert (Hsplit : pool = replicate n None ++ None :: drop (S n) pool).
    { assert (Hp : pool !! n = Some None).
      { rewrite <- (lookup_take_lt pool (S n) n) by lia. rewrite Htake.
        apply lookup_replicate. split; [reflexivity|lia]. }
      rewrite <- (take_drop_middle pool n None) at 1 by assumption.
      f_equal.
      replace (take n pool) with (take n (take (S n) pool))
        by (rewrite take_take; f_equal; lia).
      rewrite Htake, take_replicate. f_equal. lia. }
    assert (Hins : <[n := Some c]> pool
                   = replicate n None ++ Some c :: drop (S n) pool).
    { rewrite Hsplit at 1.
      rewrite insert_app_r_alt by (rewrite length_replicate; lia).
      now rewrite length_replicate, Nat.sub_diag. }
    repeat split.
    + rewrite length_insert. lia.
    + rewrite length_delete by eauto. lia.
    + rewrite Hins. rewrite take_app_length'; [reflexivity|].
      now rewrite length_replicate.
    + rewrite Hins. rewrite drop_app_length' by now rewrite length_replicate.
      constructor; [now exists c|assumption].
    + rewrite Forall_forall in *. intros x Hx. apply Hheld.
      eapply elem_of_sublist; [exact Hx|]. apply sublist_delete.
    + apply length_insert.
    + rewrite Hins. rewrite Hsplit at 2.
      rewrite !live_app, !live_replicate_None. simpl.
      fold (live (drop (S n) pool)). fold (live held). fold (live (delete k held)).
      rewrite (live_delete held k c Hk).
      apply Permutation_middle.
Qed.

(** X19.  Whatever the clients of a pool of live connections do, in whatever
    order they take connections and let go of the wrappers they hold, the
    assertion of [ReturnConnection] never fails, every wrapper alive owns a
    connection, [used_connections_] counts the wrappers alive, and the
    connections in the pool together with those held by wrappers are the
    connections the pool was made with: none is lost, none is handed out
    twice. *)
Theorem ConnectionPool_never_loses_a_connection (connections : list Conn) (ops : list Op) :
  exists p held,
    run ops (new_pool (Some <$> connections), []) = Some (p, held) /\
    length (pool_ p) = length connections /\
    used_connections_ p = length held /\
    Forall is_Some held /\
    Permutation (live (pool_ p) ++ live held) connections.
Proof.
  assert (Hgen : forall (st : State Conn), pool_ok st ->
            exists st', run ops st = Some st' /\ pool_ok st' /\
              length (pool_ (fst st')) = length (pool_ (fst st)) /\
              Permutation (live (pool_ (fst st')) ++ live (snd st'))
                          (live (pool_ (fst st)) ++ live (snd st))).
  { induction ops as [|o rest IH]; intros st Hok; simpl.
    - exists st. repeat split; [assumption|reflexivity].
    - destruct (step_ok st o Hok) as (st1 & Hs & Hok1 & Hl1 & Hp1). rewrite Hs.
      destruct (IH st1 Hok1) as (st2 & Hr & Hok2 & Hl2 & Hp2).
      exists st2. repeat split; [assumption|assumption|congruence|].
      etransitivity; eassumption. }
  destruct (Hgen (new_pool (Some <$> connections), [])) as ([p held] & Hr & Hok & Hl & Hp).
  { simpl. split; [lia|]. split; [reflexivity|]. split; [reflexivity|].
    split; [|constructor].
    rewrite drop_0. apply Forall_fmap, Forall_true. intros c. now exists c. }
  exists p, held. simpl in *. destruct Hok as (_ & Hu & _ & _ & Hh).
  repeat split; try assumption.
  - now rewrite Hl, length_fmap.
  - rewrite Hp, app_nil_r. unfold live. clear.
    induction connections; simpl; [reflexivity|]. now constructor.
Qed.

(** X20.  In a pool in order, [GetConnection] makes the caller wait exactly
    when every connection is out; otherwise it hands out a live connection
    and counts it, and destroying the wrapper right away puts the pool back
    as it was. *)
Theorem GetConnection_release_round_trip (st : State Conn) :
  pool_ok st ->
  (GetConnection (fst st) = None <->
   used_connections_ (fst st) = length (pool_ (fst st))) /\
  (forall conn p', GetConnection (fst st) = Some (conn, p') ->
     is_Some conn /\ used_connections_ p' = S (used_connections_ (fst st)) /\
     release conn p' = Some (fst st)).
Proof.
  destruct st as [[pool used] held]. intros (Hle & Hlen & Htake & Hdrop & Hheld).
  simpl in *. unfold GetConnection. simpl. split.
  - destruct (decide (used < length pool)%nat) as [Hlt|Hge]; [|split; [lia|reflexivity]].
    destruct (pool !! used) as [conn|] eqn:Hu.
    + split; [discriminate|lia].
    + apply lookup_ge_None in Hu. lia.
  - intros conn p'. destruct (decide (used < length pool)%nat) as [Hlt|Hge]; [|discriminate].
    destruct (pool !! used) as [conn0|] eqn:Hu; [|discriminate].
    intros [= <- <-].
    assert (Hc : is_Some conn0).
    { rewrite Forall_forall in Hdrop. apply Hdrop.
      apply list_elem_of_lookup. exists 0%nat. rewrite lookup_drop.
      now rewrite Nat.add_0_r. }
    split; [assumption|]. split; [reflexivity|].
    destruct Hc as [c ->]. simpl. unfold ReturnConnection. simpl.
    rewrite list_insert_insert_eq. now rewrite list_insert_id.
Qed.

End PoolProperties.

Lemma GetConnection_release_round_trip_witness :
  (Pool.GetConnection (fst Scenario.busy_pool) = None <->
   Pool.used_connections_ (fst Scenario.busy_pool)
   = length (Pool.pool_ (fst Scenario.busy_pool))) /\
  (forall conn p', Pool.GetConnection (fst Scenario.busy_pool) = Some (conn, p') ->
     is_Some conn /\
     Pool.used_connections_ p' = S (Pool.used_connections_ (fst Scenario.busy_pool)) /\
     Pool.release conn p' = Some (fst Scenario.busy_pool)).
Proof.
  apply (GetConnection_release_round_trip Scenario.busy_pool).
  simpl. split; [lia|]. split; [reflexivity|]. split; [reflexivity|].
  split; repeat constructor; eauto.
Defined.

(** ** The configuration loader *)

Section LoaderProperties.
Import JsonLoader.
Variable type_sees_increment : bool.
Variable value_of_double : R -> Z.

Lemma contains_false o key : contains o key = false <-> at_ o key = None.
Proof. unfold contains. destruct (at_ o key); split; congruence. Qed.

Lemma at_int64 o k z : at_ o k ≫= as_int64 = Some z <-> at_ o k = Some (int64 z).
Proof. destruct (at_ o k) as [[]|]; simpl; split; congruence. Qed.

(** X21.  [ParseRoad] accepts a road description exactly when [x0] and [y0]
    are integers and either [x1] is an integer, which makes the road
    horizontal whether or not there is a [y1], or there is no [x1] and [y1]
    is an integer, which makes it vertical.  A description whose [x1] is
    not an integer is rejected even when its [y1] is fine. *)
Theorem ParseRoad_accepts (road_obj : list (string * value)) (r : Road) :
  ParseRoad road_obj = Some r <->
  exists x0 y0,
    at_ road_obj "x0" = Some (int64 x0) /\ at_ road_obj "y0" = Some (int64 y0) /\
    ((exists x1, at_ road_obj "x1" = Some (int64 x1) /\
                 r = mkRoad HORIZONTAL (mkPoint x0 y0) x1) \/
     (exists y1, at_ road_obj "x1" = None /\ at_ road_obj "y1" = Some (int64 y1) /\
                 r = mkRoad VERTICAL (mkPoint x0 y0) y1)).
Proof.
  unfold ParseRoad. split.
  - destruct (contains road_obj "x0" && contains road_obj "x1") eqn:Hh.
    + destruct (at_ road_obj "x0" ≫= as_int64) as [x0|] eqn:E0; [|discriminate].
      destruct (at_ road_obj "y0" ≫= as_int64) as [y0|] eqn:E1; [|discriminate].
      destruct (at_ road_obj "x1" ≫= as_int64) as [x1|] eqn:E2; [|discriminate].
      simpl. intros [= <-]. apply at_int64 in E0, E1, E2.
      exists x0, y0. split; [assumption|]. split; [assumption|].
      left. now exists x1.
    + destruct (contains road_obj "y0" && contains road_obj "y1"); [|discriminate].
      destruct (at_ road_obj "x0" ≫= as_int64) as [x0|] eqn:E0; [|discriminate].
      destruct (at_ road_obj "y0" ≫= as_int64) as [y0|] eqn:E1; [|discriminate].
      destruct (at_ road_obj "y1" ≫= as_int64) as [y1|] eqn:E2; [|discriminate].
      simpl. intros [= <-]. apply at_int64 in E0, E1, E2.
      exists x0, y0. split; [assumption|]. split; [assumption|].
      right. exists y1. split; [|now split].
      apply contains_false. apply andb_false_iff in Hh as [Hh|Hh]; [|assumption].
      apply contains_false in Hh. congruence.
  - intros (x0 & y0 & Hx & Hy & [(x1 & Hx1 & ->)|(y1 & Hx1 & Hy1 & ->)]);
      unfold contains; rewrite Hx, Hx1, ?Hy, ?Hy1; reflexivity.
Qed.

Lemma add_items_3 loot_obj m c st' :
  add_items type_sees_increment value_of_double 3 0 loot_obj (m, c) = Some st' ->
  exists i0 i1 i2,
    st' = (set_loot m (map_loot_items m ++ [i0; i1; i2]), (c + 3)%Z) /\
    loot_id <$> [i0; i1; i2] = [c; (c + 1)%Z; (c + 2)%Z] /\
    loot_position <$> [i0; i1; i2]
    = [mkPosition 10 (10 + 3 * IZR c); mkPosition 15 (10 + 3 * IZR (c + 1));
       mkPosition 20 (10 + 3 * IZR (c + 2))].
Proof.
  cbn [add_items].
  destruct (if contains loot_obj "value"
            then at_ loot_obj "value" ≫= as_double else Some 10) as [v|];
    [|discriminate].
  cbn [mbind option_bind]. intros [= <-].
  eexists _, _, _. split; [|split].
  - unfold AddLootItem, set_loot. cbn [map_id map_name map_roads map_offices
      map_loot_items map_dog_speed map_bag_capacity].
    rewrite <- !List.app_assoc. cbn [app].
    f_equal; first [reflexivity|lia].
  - cbn [fmap list_fmap loot_id].
    repeat (apply f_equal2; [lia|]). reflexivity.
  - cbn [fmap list_fmap loot_position].
    replace (c + 1 + 1)%Z with (c + 2)%Z by lia.
    change (IZR (0 + 1 + 1)) with 2. change (IZR (0 + 1)) with 1.
    replace (10 + 0 * 5) with 10 by lra. replace (10 + 1 * 5) with 15 by lra.
    replace (10 + 2 * 5) with 20 by lra.
    now rewrite !(Rmult_comm _ 3).
Qed.

Lemma load_loot_types_items types m k st' :
  load_loot_types type_sees_increment value_of_double types (m, (3 * Z.of_nat k)%Z)
  = Some st' ->
  exists items,
    fst st' = set_loot m (map_loot_items m ++ items) /\
    loot_id <$> items = Z.of_nat <$> seq (3 * k) (3 * length types) /\
    Forall (fun it => loot_position it = loaded_position (loot_id it)) items.
Proof.
  revert m k st'. induction types as [|t rest IH]; intros m k st'.
  - simpl. intros [= <-]. exists []. simpl. rewrite app_nil_r.
    split; [now destruct m|]. split; [reflexivity|constructor].
  - cbn [load_loot_types]. destruct (as_object t) as [obj|]; [|discriminate].
    cbn [mbind option_bind].
    destruct (add_items _ _ 3 0 obj (m, (3 * Z.of_nat k)%Z)) as [st1|] eqn:Hadd;
      [|discriminate].
    apply add_items_3 in Hadd. destruct Hadd as (i0 & i1 & i2 & -> & Hids & Hpos).
    replace (3 * Z.of_nat k + 3)%Z with (3 * Z.of_nat (S k))%Z by lia.
    intros Hrest. apply IH in Hrest. destruct Hrest as (items & Hst & Hid & Hp).
    exists ([i0; i1; i2] ++ items). split; [|split].
    + rewrite Hst. unfold set_loot. simpl. now rewrite <- List.app_assoc.
    + rewrite fmap_app, Hids, Hid.
      replace (3 * length (t :: rest))%nat with (3 + 3 * length rest)%nat by (simpl; lia).
      rewrite seq_app, fmap_app. f_equal.
      * simpl. repeat (apply f_equal2; [lia|]). reflexivity.
      * f_equal. f_equal. lia.
    + apply Forall_app. split; [|assumption].
      injection Hids as H0 H1 H2. injection Hpos as P0 P1 P2.
      assert (Hm : forall j, (0 <= j < 3)%Z -> ((3 * Z.of_nat k + j) mod 3 = j)%Z).
      { intros j Hj. rewrite Z.add_comm, Z.mul_comm, Z_mod_plus_full.
        now apply Z.mod_small. }
      unfold loaded_position.
      repeat constructor.
      * rewrite P0, H0. replace (3 * Z.of_nat k)%Z with (3 * Z.of_nat k + 0)%Z at 2 by lia.
        rewrite Hm by lia. f_equal. simpl. lra.
      * rewrite P1, H1. rewrite Hm by lia. f_equal. simpl. lra.
      * rewrite P2, H2. rewrite Hm by lia. f_equal. simpl. lra.
Qed.

(** X22.  When [LoadMapLootTypes] returns, the map is as before but for its
    loot, to which three items have been appended for every loot type the
    description lists (none when it lists none), numbered 0, 1, 2, ... in
    order and placed at x = 10 + 5 (id mod 3), y = 10 + 3 id.  On a map that
    had no loot the ids are therefore unique. *)
Theorem LoadMapLootTypes_numbers_the_items (map_json : value) (map map' : Map) :
  LoadMapLootTypes type_sees_increment value_of_double map_json map = Some map' ->
  map_topology map' = map_topology map /\
  exists items,
    map_loot_items map' = map_loot_items map ++ items /\
    loot_id <$> items = Z.of_nat <$> seq 0 (3 * length (loot_types map_json)) /\
    Forall (fun it => loot_position it = loaded_position (loot_id it)) items /\
    (map_loot_items map = [] -> NoDup (loot_id <$> map_loot_items map')).
Proof.
  unfold LoadMapLootTypes, loot_types.
  destruct (as_object map_json) as [o|]; [|discriminate]. cbn [mbind option_bind].
  destruct (contains o "lootTypes") eqn:Hc; cbn [negb].
  - destruct (at_ o "lootTypes" ≫= as_array) as [types|]; [|discriminate].
    cbn [mbind option_bind default].
    destruct (load_loot_types _ _ types (map, 0%Z)) as [st'|] eqn:Hl; [|discriminate].
    cbn [fmap option_fmap option_map]. intros [= <-].
    apply (load_loot_types_items types map 0) in Hl.
    destruct Hl as (items & Hst & Hid & Hp). rewrite Hst.
    split; [reflexivity|]. exists items. simpl in *.
    repeat split; try assumption.
    intros ->. simpl. rewrite Hid.
    apply NoDup_fmap; [apply Nat2Z.inj'|apply NoDup_seq].
  - intros [= <-]. apply contains_false in Hc. rewrite Hc. simpl.
    split; [reflexivity|]. exists []. rewrite app_nil_r.
    repeat split; [constructor|]. intros ->. constructor.
Qed.

End LoaderProperties.

Lemma LoadMapLootTypes_numbers_the_items_witness :
  exists map',
    JsonLoader.LoadMapLootTypes false Int_part Scenario.town_json Scenario.meadow
    = Some map' /\
    map_topology map' = map_topology Scenario.meadow /\
    exists items,
      map_loot_items map' = map_loot_items Scenario.meadow ++ items /\
      loot_id <$> items
      = Z.of_nat <$> seq 0 (3 * length (JsonLoader.loot_types Scenario.town_json)) /\
      Forall (fun it => loot_position it = JsonLoader.loaded_position (loot_id it))
             items /\
      (map_loot_items Scenario.meadow = [] ->
       NoDup (loot_id <$> map_loot_items map')).
Proof.
  eexists. split; [reflexivity|].
  apply (LoadMapLootTypes_numbers_the_items false Int_part Scenario.town_json
           Scenario.meadow).
  reflexivity.
Defined.

